(** * PyZwaver serial driver (pyzwaver/driver.py): a shallow embedding

    The development follows the layout of the source file:
    - [Py]       the few pieces of Python semantics the driver relies on
                 (exception classes, floor division, indexing);
    - [MQ]       class [MessageQueueOut];
    - [ZMessage] the parts of [zmessage.py] and [zwave.py] the driver
                 calls;
    - [Stats]    [MessageStatsString];
    - [Driver]   the sequential methods of class [Driver]: [_SendRaw],
                 the body of [_DriverReceivingThread] and the supervision
                 wrapper [_run_child_thread];
    - [Sys]      the three child threads, [Terminate] and
                 [WaitUntilAllPreviousMessagesHaveBeenHandled] running
                 against the shared driver object, as an interleaving
                 step function;
    - [Scenario] concrete schedules of [Sys].

    Python integers are unbounded, so they are [Z].  Time stamps returned
    by [time.time()] are idealised as rationals ([Q]).  Dictionaries are
    [gmap]s; a [collections.defaultdict(int)] or [collections.Counter] is
    read with default [0]. *)

From Stdlib Require Import ZArith QArith List Lia Bool.
From stdpp Require Import base option list gmap strings sorting pretty.

(** ** Python semantics used by the driver *)
Module Py.

(** The exception classes that occur in the modelled code.  The first
    six derive from [Exception]; the last two derive from
    [BaseException] only. *)
Inductive exn :=
| AssertionError
| AttributeError
| ZeroDivisionError
| TypeError
| IndexError
| SerialException
| KeyboardInterrupt
| SystemExit.

(** [isinstance(e, Exception)], which is what [except Exception] tests. *)
Definition is_Exception (e : exn) : bool :=
  match e with
  | KeyboardInterrupt | SystemExit => false
  | _ => true
  end.

(** The outcome of evaluating a piece of Python code. *)
Inductive result (A : Type) :=
| Ok (a : A)
| Raise (e : exn).
Arguments Ok {A} a.
Arguments Raise {A} e.

(** [a // b] on integers. *)
Definition floordiv (a b : Z) : result Z :=
  if (b =? 0)%Z then Raise ZeroDivisionError else Ok (a / b)%Z.

(** [dict[k]] on a [defaultdict(int)] or a [Counter]. *)
Definition getitem (d : gmap Z Z) (k : Z) : Z := default 0%Z (d !! k).

End Py.

(** ** class MessageQueueOut *)
Module MQ.
Import Py.
Local Open Scope Z_scope.

(** A priority is the tuple [(level, count, node)]. *)
Definition priority : Type := Z * Z * Z.

Definition level (p : priority) : Z := p.1.1.
Definition count (p : priority) : Z := p.1.2.
Definition node (p : priority) : Z := p.2.

(** Python's lexicographic order on the tuples. *)
Definition prio_ltb (p q : priority) : bool :=
  (level p <? level q)
  || ((level p =? level q)
      && ((count p <? count q)
          || ((count p =? count q) && (node p <? node q)))).

Definition prio_lt (p q : priority) : Prop := prio_ltb p q = true.

Section Queue.
Context {M : Type}.

(** [queue.PriorityQueue] holds the pairs [((level, count, node), message)]
    in a binary heap; [get] removes the least pair.  The heap is modelled by
    the sequence of its entries in increasing key order: [pq_put] inserts
    behind the entries whose key is not greater, [get] takes the head.
    Keys never repeat inside the queue ([keys_distinct] below), so the
    second components are never compared. *)
Fixpoint pq_put (e : priority * M) (q : list (priority * M)) :
    list (priority * M) :=
  match q with
  | [] => [e]
  | x :: q' => if prio_ltb e.1 x.1 then e :: x :: q' else x :: pq_put e q'
  end.

Record MessageQueueOut := mkMQ {
  _q : list (priority * M);
  _lo_counts : gmap Z Z;
  _hi_counts : gmap Z Z;
  _lo_min : Z;
  _hi_min : Z;
  _counter : Z;
  _per_node_size : gmap Z Z
}.

(** [MessageQueueOut.__init__] *)
Definition init : MessageQueueOut :=
  {| _q := []; _lo_counts := ∅; _hi_counts := ∅; _lo_min := 0;
     _hi_min := 0; _counter := 0; _per_node_size := ∅ |}.

Definition qsize (s : MessageQueueOut) : Z := Z.of_nat (length (_q s)).

Definition qsize_for_node (s : MessageQueueOut) (n : Z) : Z :=
  getitem (_per_node_size s) n.

Definition empty (s : MessageQueueOut) : bool :=
  match _q s with [] => true | _ => false end.

(** The first statement of [put]: forget the fairness state when the
    queue has drained. *)
Definition reset_if_empty (s : MessageQueueOut) : MessageQueueOut :=
  if empty s then
    {| _q := _q s; _lo_counts := ∅; _hi_counts := ∅; _lo_min := 0;
       _hi_min := 0; _counter := _counter s;
       _per_node_size := _per_node_size s |}
  else s.

(** [MessageQueueOut.put] *)
Definition put (p : priority) (message : M) (s : MessageQueueOut) :
    MessageQueueOut :=
  let s := reset_if_empty s in
  let '(level, _, node) := p in
  let psz := <[node := getitem (_per_node_size s) node + 1]> (_per_node_size s) in
  if level =? 2 then
    let count := Z.max (getitem (_hi_counts s) node + 1) (_hi_min s) in
    {| _q := pq_put ((level, count, node), message) (_q s);
       _lo_counts := _lo_counts s;
       _hi_counts := <[node := count]> (_hi_counts s);
       _lo_min := _lo_min s; _hi_min := _hi_min s;
       _counter := _counter s; _per_node_size := psz |}
  else if level =? 3 then
    let count := Z.max (getitem (_lo_counts s) node + 1) (_lo_min s) in
    {| _q := pq_put ((level, count, node), message) (_q s);
       _lo_counts := <[node := count]> (_lo_counts s);
       _hi_counts := _hi_counts s;
       _lo_min := _lo_min s; _hi_min := _hi_min s;
       _counter := _counter s; _per_node_size := psz |}
  else
    let count := _counter s in
    {| _q := pq_put ((level, count, node), message) (_q s);
       _lo_counts := _lo_counts s; _hi_counts := _hi_counts s;
       _lo_min := _lo_min s; _hi_min := _hi_min s;
       _counter := _counter s + 1; _per_node_size := psz |}.

(** [MessageQueueOut.get].  On an empty queue the call blocks; that is
    the result [None].  The two tests of the [if]/[elif] chain are kept as
    the source has them: both compare the level with [2]. *)
Definition get (s : MessageQueueOut) : option (M * MessageQueueOut) :=
  match _q s with
  | [] => None
  | (p, message) :: rest =>
    let level := level p in
    let hi_min := if level =? 2 then count p else _hi_min s in
    let lo_min :=
      if level =? 2 then _lo_min s
      else if level =? 2 then count p
      else _lo_min s in
    Some (message,
          {| _q := rest;
             _lo_counts := _lo_counts s; _hi_counts := _hi_counts s;
             _lo_min := lo_min; _hi_min := hi_min;
             _counter := _counter s;
             _per_node_size :=
               <[node p := getitem (_per_node_size s) (node p) - 1]>
                 (_per_node_size s) |})
  end.

(** The key of the entry that the next [get] removes. *)
Definition front (s : MessageQueueOut) : option priority :=
  match _q s with
  | [] => None
  | (p, _) :: _ => Some p
  end.

(** *** Runs of the queue

    A client of the queue issues [put]s and [get]s.  [run] replays such
    a sequence and records, for every [get] that returns, the key that
    was served together with the keys still queued right after it.  A
    [get] on the empty queue blocks and serves nothing. *)
Inductive op :=
| Put (p : priority) (message : M)
| Get.

Record served := mkServed {
  s_key : priority;
  s_msg : M;
  s_queued : list priority
}.

Fixpoint run (ops : list op) (s : MessageQueueOut) : list served :=
  match ops with
  | [] => []
  | Put p message :: ops' => run ops' (put p message s)
  | Get :: ops' =>
    match front s, get s with
    | Some p, Some (message, s') =>
      mkServed p message (map fst (_q s')) :: run ops' s'
    | _, _ => run ops' s
    end
  end.

(** The state after a sequence of operations. *)
Fixpoint exec (ops : list op) (s : MessageQueueOut) : MessageQueueOut :=
  match ops with
  | [] => s
  | Put p message :: ops' => exec ops' (put p message s)
  | Get :: ops' =>
    match get s with
    | Some (_, s') => exec ops' s'
    | None => exec ops' s
    end
  end.

(** Levels 2 (high) and 3 (low) are the ones [put] manages with the
    per-node counters. *)
Definition fair_level (l : Z) : Prop := l = 2 \/ l = 3.

(** Destination [d] has an entry of level [l] among the keys [ks]. *)
Definition queued_at (l d : Z) (ks : list priority) : Prop :=
  exists c, (l, c, d) ∈ ks.

(** Round-robin fairness of a run: whenever a destination is served
    twice at a fairness-managed level, every other destination that
    had an entry of that level queued at the first of the two services
    is served in between. *)
Definition window_fair (tr : list served) : Prop :=
  forall (i j : nat) (ei ej : served),
    (i < j)%nat -> tr !! i = Some ei -> tr !! j = Some ej ->
    fair_level (level (s_key ei)) ->
    level (s_key ej) = level (s_key ei) ->
    node (s_key ej) = node (s_key ei) ->
    forall d', d' <> node (s_key ei) ->
      queued_at (level (s_key ei)) d' (s_queued ei) ->
      exists (k : nat) (ek : served),
        (i < k < j)%nat /\ tr !! k = Some ek /\
        level (s_key ek) = level (s_key ei) /\ node (s_key ek) = d'.

(** *** Invariants of the queue *)

(** The keys in the queue, least first. *)
Definition keys (s : MessageQueueOut) : list priority := (_q s).*1.

(** The key under which [put] files the message. *)
Definition put_key (p : priority) (s : MessageQueueOut) : priority :=
  let s' := reset_if_empty s in
  (level p,
   if level p =? 2 then
     Z.max (Py.getitem (_hi_counts s') (node p) + 1) (_hi_min s')
   else if level p =? 3 then
     Z.max (Py.getitem (_lo_counts s') (node p) + 1) (_lo_min s')
   else _counter s',
   node p).

(** The counters bound the keys in the queue from above, per node for
    the levels 2 and 3 and globally for the other levels; a new key lies
    above the bound. *)
Definition wf (s : MessageQueueOut) : Prop :=
  StronglySorted prio_lt (keys s) /\
  (forall k, k ∈ keys s -> level k = 2 ->
     count k <= Py.getitem (_hi_counts s) (node k)) /\
  (forall k, k ∈ keys s -> level k = 3 ->
     count k <= Py.getitem (_lo_counts s) (node k)) /\
  (forall k, k ∈ keys s -> level k <> 2 -> level k <> 3 ->
     count k < _counter s).

(** Within a fairness-managed level the counts queued for a node form an
    initial segment [1..c]. *)
Definition closed (ks : list priority) : Prop :=
  forall l c n, fair_level l -> (l, c, n) ∈ ks ->
    1 <= c /\ forall c', 1 <= c' <= c -> (l, c', n) ∈ ks.

(** The state while a batch is put into a drained queue: both floors
    are still zero and a node's counter is the number of its entries. *)
Definition binv (s : MessageQueueOut) : Prop :=
  _hi_min s = 0 /\ _lo_min s = 0 /\
  (forall n, 0 <= Py.getitem (_hi_counts s) n) /\
  (forall n, 0 <= Py.getitem (_lo_counts s) n) /\
  (forall c n, (2, c, n) ∈ keys s <-> 1 <= c <= Py.getitem (_hi_counts s) n) /\
  (forall c n, (3, c, n) ∈ keys s <-> 1 <= c <= Py.getitem (_lo_counts s) n) /\
  wf s.

(** The fields that decide what is served; [_per_node_size] is
    bookkeeping for the diagnostics only. *)
Definition core (s : MessageQueueOut) :
    list (priority * M) * gmap Z Z * gmap Z Z * Z * Z * Z :=
  (_q s, _lo_counts s, _hi_counts s, _lo_min s, _hi_min s, _counter s).

(** A drained queue with the given value of the global counter. *)
Definition drained (c : Z) : MessageQueueOut :=
  {| _q := []; _lo_counts := ∅; _hi_counts := ∅; _lo_min := 0;
     _hi_min := 0; _counter := c; _per_node_size := ∅ |}.

(** What successive [get]s serve from a queue content. *)
Fixpoint pops (q : list (priority * M)) : list served :=
  match q with
  | [] => []
  | (p, message) :: rest => mkServed p message rest.*1 :: pops rest
  end.

(** *** Bookkeeping *)

(** The number of entries among the keys [ks] that are filed for node
    [n]. *)
Definition node_count (n : Z) (ks : list priority) : Z :=
  Z.of_nat (length (filter (fun k => node k = n) ks)).

(** [_per_node_size] is exact: it holds, for every node, the number of
    entries in the queue. *)
Definition acct (s : MessageQueueOut) : Prop :=
  forall n, qsize_for_node s n = node_count n (keys s).

(** [MessageQueueOut.__str__]: the dictionary [non_empty] whose [str()]
    follows the caption, the nodes with a size that is not zero. *)
Definition non_empty (s : MessageQueueOut) : gmap Z Z :=
  filter (fun kv => kv.2 <> 0) (_per_node_size s).

(** The messages handed to [put] in a sequence of operations, in
    order. *)
Definition puts_of (ops : list op) : list M :=
  omap (fun o => match o with Put _ m => Some m | Get => None end) ops.

(** The key that was served lies strictly below every key left in the
    queue. *)
Definition least_served (e : served) : Prop :=
  Forall (prio_lt (s_key e)) (s_queued e).

End Queue.
Arguments MessageQueueOut M : clear implicits.
Arguments op M : clear implicits.
Arguments served M : clear implicits.

End MQ.

(** ** What the driver uses of zwave.py and zmessage.py

    Neither module is part of the sources at hand.  This module holds
    the constants, the message class and the in-flight record that
    driver.py refers to, each modelled from the specification. *)
Module ZMessage.
Import Py.

Definition bytes : Type := list Byte.byte.

(** Modelled from the spec: the wire control bytes [z.SOF], [z.ACK],
    [z.NAK] and [z.CAN] of zwave.py, which is missing; section 6 fixes
    them as frame-start marker 0x01, acknowledge 0x06,
    negative-acknowledge 0x15 and collision 0x18. *)
Definition SOF : Byte.byte := Byte.x01.
Definition ACK : Byte.byte := Byte.x06.
Definition NAK : Byte.byte := Byte.x15.
Definition CAN : Byte.byte := Byte.x18.

(** Modelled from the spec: [zmessage.RAW_MESSAGE_ACK] and
    [zmessage.RAW_MESSAGE_NAK], the one-byte frames made of the control
    bytes. *)
Definition RAW_MESSAGE_ACK : bytes := [ACK].
Definition RAW_MESSAGE_NAK : bytes := [NAK].

(** Modelled from the spec: the values [zmessage.DO_ACK], [DO_RETRY] and
    [DO_PROPAGATE] that [NextActionForReceivedMessage] returns and
    [_DriverReceivingThread] tests; [DO_NOTHING] stands for any other
    value. *)
Inductive action := DO_NOTHING | DO_ACK | DO_RETRY | DO_PROPAGATE.

(** The completion callbacks.  driver.py builds two closures of its own,
    [lambda _: lock.release()] in
    [WaitUntilAllPreviousMessagesHaveBeenHandled] and [cb] in
    [Terminate]; every other callback belongs to a client. *)
Inductive Callback := CbClient | CbRelease | CbTerminate.

(** Modelled from the spec: class [zmessage.Message], which is missing.
    Section 3 gives a message a destination id or none, a priority, the
    payload bytes, the completion callback and an optional expected-reply
    predicate.  The remaining fields are the attributes that
    [MessageStatsString] reads ([can], [state], [start], [end]) and the
    value of the method [WasAborted()].  [mid] is the identity of the
    Python object. *)
Record Message := mkMessage {
  mid : nat;
  payload : option bytes;
  priority : MQ.priority;
  callback : Callback;
  node : option Z;
  expected_reply : option (bytes -> bool);
  can : Z;
  state : string;
  WasAborted : bool;
  start : Q;
  end_ : option Q
}.

(** Modelled from the spec: class [zmessage.InflightMessage], which is
    missing: the in-flight record of section 3 with its message, its
    state and its retry count.  The record is idle when it holds no
    message. *)
Record InflightMessage := mkInflight {
  _message : option Message;
  _awaiting_response : bool;
  _retries : nat
}.

(** Modelled from the spec: the state [Idle] of section 4.2, which
    is also where a resolved record ends up. *)
Definition idle : InflightMessage :=
  {| _message := None; _awaiting_response := false; _retries := 0 |}.

(** [InflightMessage.GetMessage()]: "the current outbound message being
    processed or None" (docstring of [Driver.GetInFlightMessage]). *)
Definition GetMessage (i : InflightMessage) : option Message := _message i.

(** Modelled from the spec: [InflightMessage.StartMessage], which is
    missing.  Section 4.2: "transitions Idle->Sent only if currently
    Idle; returns whether accepted". *)
Definition StartMessage (m : Message) (ts : Q) (i : InflightMessage) :
    bool * InflightMessage :=
  match _message i with
  | None =>
    (true, {| _message := Some m; _awaiting_response := false; _retries := 0 |})
  | Some _ => (false, i)
  end.

(** Modelled from the spec: the terminal resolutions of section 4.2,
    [Resolved(Success|Failed|TimedOut)]; a success carries the reply
    frame, if any. *)
Inductive outcome :=
| Success (reply : option bytes)
| Failed
| TimedOut.

(** Modelled from the spec: [InflightMessage.NextActionForReceivedMessage],
    which is missing.  Section 4.2, [OnReceive]: an acknowledge byte moves
    the message on to awaiting its response, or resolves it when no reply
    is expected; a negative-acknowledge or collision byte increments the
    retry counter and asks for a retry unless the retries are exhausted,
    in which case the message is resolved as failed; a data frame that
    satisfies the expected-reply predicate is propagated and resolves the
    message; any other data frame is propagated without touching the
    record.  The result is the action, the comment for the log, the new
    record and the message that was resolved, if any, with its outcome.
    [max_retries] is the fixed maximum retry count. *)
Definition NextActionForReceivedMessage (max_retries : nat) (ts : Q)
    (frame : bytes) (i : InflightMessage) :
    action * string * InflightMessage * option (Message * outcome) :=
  match frame with
  | [b] =>
    if Byte.eqb b ACK then
      match _message i with
      | Some m =>
        if _awaiting_response i then (DO_NOTHING, "", i, None)
        else
          match expected_reply m with
          | None => (DO_NOTHING, "ack", idle, Some (m, Success None))
          | Some _ =>
            (DO_NOTHING, "ack",
             {| _message := Some m; _awaiting_response := true;
                _retries := _retries i |}, None)
          end
      | None => (DO_NOTHING, "", i, None)
      end
    else if Byte.eqb b NAK || Byte.eqb b CAN then
      let comment := if Byte.eqb b NAK then "nak" else "can" in
      match _message i with
      | Some m =>
        if (_retries i <? max_retries)%nat then
          (DO_RETRY, comment,
           {| _message := Some m; _awaiting_response := _awaiting_response i;
              _retries := S (_retries i) |}, None)
        else (DO_NOTHING, comment, idle, Some (m, Failed))
      | None => (DO_NOTHING, comment, i, None)
      end
    else (DO_NOTHING, "", i, None)
  | _ =>
    match _message i with
    | Some m =>
      match expected_reply m with
      | Some matches =>
        if matches frame then
          (DO_PROPAGATE, "", idle, Some (m, Success (Some frame)))
        else (DO_PROPAGATE, "", i, None)
      | None => (DO_PROPAGATE, "", i, None)
      end
    | None => (DO_PROPAGATE, "", i, None)
    end
  end.

(** Modelled from the spec: the deadline inside
    [InflightMessage.WaitForMessageCompletion], which is missing.
    Section 4.2: "an internal deadline forces Resolved(TimedOut)". *)
Definition Timeout (i : InflightMessage) :
    InflightMessage * option (Message * outcome) :=
  match _message i with
  | Some m => (idle, Some (m, TimedOut))
  | None => (i, None)
  end.

(** Modelled from the spec: [zmessage.ExtracRawMessage], the frame codec
    of section 4.1, which is missing: "A frame beginning with the start
    marker is incomplete until its declared length plus checksum bytes
    are present."  The byte after the start marker declares how many
    bytes follow it, the checksum included; [None] is the falsy result
    for an incomplete buffer. *)
Definition ExtracRawMessage (buf : bytes) : option bytes :=
  match buf with
  | _ :: len :: rest =>
    let n := N.to_nat (Byte.to_N len) in
    if (n <=? length rest)%nat then Some (take (2 + n) buf) else None
  | _ => None
  end.

End ZMessage.

(** ** MessageStatsString *)
Module Stats.
Import Py ZMessage.
Local Open Scope Z_scope.

(** [int(x)] on a float: truncation towards zero. *)
Definition int_of (x : Q) : Z := Z.quot (Qnum x) (Z.pos (Qden x)).

(** Truthiness of [m.end]: [None] and [0.0] are false. *)
Definition truthy (e : option Q) : bool :=
  match e with
  | Some x => negb (Qeq_bool x 0)
  | None => false
  end.

(** [c[k] += v] on a [Counter]. *)
Definition incr `{Countable K} (c : gmap K Z) (k : K) (v : Z) : gmap K Z :=
  <[k := default 0 (c !! k) + v]> c.

Definition counter_get `{Countable K} (c : gmap K Z) (k : K) : Z :=
  default 0 (c !! k).

(** The local variables that the loop over the history updates. *)
Record locals := mkLocals {
  with_can : Z;
  total_can : Z;
  by_node_cnt : gmap (option Z) Z;
  by_node_can : gmap (option Z) Z;
  by_node_dur : gmap (option Z) Z;
  by_node_bad : gmap (option Z) Z;
  by_state : gmap string Z;
  sum_duration : Z
}.

Definition locals0 : locals :=
  {| with_can := 0; total_can := 0; by_node_cnt := ∅; by_node_can := ∅;
     by_node_dur := ∅; by_node_bad := ∅; by_state := ∅; sum_duration := 0 |}.

(** The body of [for m in mm]. *)
Definition loop_body (a : locals) (m : Message) : locals :=
  let node := node m in
  let '(with_can', total_can', by_node_can') :=
    if 0 <? can m then
      (with_can a + 1, total_can a + can m, incr (by_node_can a) node 1)
    else (with_can a, total_can a, by_node_can a) in
  let by_state' := incr (by_state a) (state m) 1 in
  let by_node_cnt' := incr (by_node_cnt a) node 1 in
  let by_node_bad' :=
    if WasAborted m then incr (by_node_bad a) node 1 else by_node_bad a in
  let '(by_node_dur', sum_duration') :=
    match end_ m with
    | Some e =>
      if truthy (Some e) then
        let duration := int_of (1000 * (e - start m))%Q in
        (incr (by_node_dur a) node duration, sum_duration a + duration)
      else (by_node_dur a, sum_duration a)
    | None => (by_node_dur a, sum_duration a)
    end in
  {| with_can := with_can'; total_can := total_can';
     by_node_cnt := by_node_cnt'; by_node_can := by_node_can';
     by_node_dur := by_node_dur'; by_node_bad := by_node_bad';
     by_state := by_state'; sum_duration := sum_duration' |}.

(** The conversions of the [%] operator that the function uses. *)
Definition spaces (n : nat) : string :=
  String.concat "" (replicate n " "%string).

(** [%<w>d] *)
Definition fmt_d (w : nat) (z : Z) : string :=
  let t := pretty z in spaces (w - String.length t) +:+ t.

(** [%-<w>s] *)
Definition fmt_s_left (w : nat) (t : string) : string :=
  t +:+ spaces (w - String.length t).

Definition str_le (a b : string) : Prop := String.leb a b = true.

Global Instance str_le_dec a b : Decision (str_le a b).
Proof. unfold str_le. apply _. Defined.

(** [sorted(by_state.keys())] *)
Definition sorted_states (c : gmap string Z) : list string :=
  merge_sort str_le (map_to_list c).*1.

(** [sorted(by_node_cnt.keys())]: the keys are node ids or [None], and
    Python cannot order [None] against an integer. *)
Definition sorted_nodes (c : gmap (option Z) Z) : result (list (option Z)) :=
  let ks := (map_to_list c).*1 in
  let ints := omap id ks in
  match ints with
  | [] => Ok ks
  | _ :: _ =>
    if bool_decide (None ∈ ks) then Raise TypeError
    else Ok (Some <$> merge_sort Z.le ints)
  end.

(** One line of the per-node table; [%2d] does not take [None]. *)
Definition node_line (a : locals) (n : option Z) : result string :=
  match n with
  | None => Raise TypeError
  | Some z =>
    match floordiv (counter_get (by_node_dur a) n) (counter_get (by_node_cnt a) n) with
    | Raise e => Raise e
    | Ok avg =>
      Ok (" " +:+ fmt_d 2 z +:+ ": " +:+ fmt_d 4 (counter_get (by_node_cnt a) n)
          +:+ " (" +:+ fmt_d 3 (counter_get (by_node_can a) n) +:+ ") "
          +:+ fmt_d 4 avg +:+ "ms ("
          +:+ fmt_d 3 (counter_get (by_node_bad a) n) +:+ ")")
    end
  end.

Fixpoint node_lines (a : locals) (ns : list (option Z)) : result (list string) :=
  match ns with
  | [] => Ok []
  | n :: ns' =>
    match node_line a n with
    | Raise e => Raise e
    | Ok l =>
      match node_lines a ns' with
      | Raise e => Raise e
      | Ok ls => Ok (l :: ls)
      end
    end
  end.

Definition state_line (a : locals) (n : string) : string :=
  " " +:+ fmt_s_left 20 n +:+ ": " +:+ fmt_d 4 (counter_get (by_state a) n).

Definition cutoff : Z := 0.

(** [MessageStatsString(history)] *)
Definition MessageStatsString (history : list Message) : result string :=
  let mm :=
    if 0 <? cutoff then drop (length history - Z.to_nat cutoff) history
    else history in
  let count := Z.of_nat (length mm) in
  let a := foldl loop_body locals0 mm in
  match floordiv (sum_duration a) count with
  | Raise e => Raise e
  | Ok avg =>
    let out :=
      [ "processed: " +:+ fmt_d 0 count +:+ "  with-can: "
        +:+ fmt_d 0 (with_can a) +:+ " (total can: "
        +:+ fmt_d 0 (total_can a) +:+ ") avg-time: " +:+ fmt_d 0 avg +:+ "ms";
        "by state:" ] in
    let out := out ++ (state_line a <$> sorted_states (by_state a)) in
    let out := out ++ ["node  cnt nt can dur. bad"] in
    match sorted_nodes (by_node_cnt a) with
    | Raise e => Raise e
    | Ok ns =>
      match node_lines a ns with
      | Raise e => Raise e
      | Ok ls => Ok (String.concat (String (Ascii.ascii_of_nat 10) "") (out ++ ls))
      end
    end
  end.

End Stats.

(** ** class Driver: the object and its methods *)
Module Driver.
Import Py ZMessage.

(** The entries of [child_threads] in [__init__]. *)
Definition child_threads : list string :=
  ["_tx_thread"; "_rx_thread"; "_forwarding_thread"].

(** [threading.Barrier(parties)]: the number of parties and the number
    of threads that have called [wait()]. *)
Record Barrier := mkBarrier {
  parties : nat;
  arrived : nat
}.

(** The attributes of a [Driver].  [_device] is the serial device, seen
    as the sequence of buffers handed to its [write], oldest first; a
    call of [write] that raises is in the sequence like one that
    returns.  A listener is seen as the sequence of pairs that its [put]
    has accepted. *)
Record Driver := mkDriver {
  _device : list (option bytes);
  _out_queue : MQ.MessageQueueOut Message;
  _raw_history : list (Q * bool * option bytes * string);
  _history : list Message;
  _terminate : bool;
  _in_queue : list (Q * option bytes);
  _listeners : list (list (Q * bytes));
  _termination_barrier : Barrier;
  _inflight : InflightMessage
}.

Definition set_device v (d : Driver) : Driver :=
  mkDriver v (_out_queue d) (_raw_history d) (_history d) (_terminate d)
    (_in_queue d) (_listeners d) (_termination_barrier d) (_inflight d).
Definition set_out_queue v (d : Driver) : Driver :=
  mkDriver (_device d) v (_raw_history d) (_history d) (_terminate d)
    (_in_queue d) (_listeners d) (_termination_barrier d) (_inflight d).
Definition set_raw_history v (d : Driver) : Driver :=
  mkDriver (_device d) (_out_queue d) v (_history d) (_terminate d)
    (_in_queue d) (_listeners d) (_termination_barrier d) (_inflight d).
Definition set_history v (d : Driver) : Driver :=
  mkDriver (_device d) (_out_queue d) (_raw_history d) v (_terminate d)
    (_in_queue d) (_listeners d) (_termination_barrier d) (_inflight d).
Definition set_terminate v (d : Driver) : Driver :=
  mkDriver (_device d) (_out_queue d) (_raw_history d) (_history d) v
    (_in_queue d) (_listeners d) (_termination_barrier d) (_inflight d).
Definition set_in_queue v (d : Driver) : Driver :=
  mkDriver (_device d) (_out_queue d) (_raw_history d) (_history d)
    (_terminate d) v (_listeners d) (_termination_barrier d) (_inflight d).
Definition set_listeners v (d : Driver) : Driver :=
  mkDriver (_device d) (_out_queue d) (_raw_history d) (_history d)
    (_terminate d) (_in_queue d) v (_termination_barrier d) (_inflight d).
Definition set_termination_barrier v (d : Driver) : Driver :=
  mkDriver (_device d) (_out_queue d) (_raw_history d) (_history d)
    (_terminate d) (_in_queue d) (_listeners d) v (_inflight d).
Definition set_inflight v (d : Driver) : Driver :=
  mkDriver (_device d) (_out_queue d) (_raw_history d) (_history d)
    (_terminate d) (_in_queue d) (_listeners d) (_termination_barrier d) v.

(** [_ClearDevice]: three negative-acknowledge frames are written;
    flushing leaves no trace in the write log. *)
Definition _ClearDevice (dev : list (option bytes)) : list (option bytes) :=
  dev ++ [Some RAW_MESSAGE_NAK; Some RAW_MESSAGE_NAK; Some RAW_MESSAGE_NAK].

(** [Driver.__init__], once it has returned. *)
Definition __init__ : Driver :=
  {| _device := _ClearDevice (_ClearDevice []);
     _out_queue := MQ.init;
     _raw_history := [];
     _history := [];
     _terminate := false;
     _in_queue := [];
     _listeners := [];
     _termination_barrier :=
       {| parties := length child_threads + 1; arrived := 0 |};
     _inflight := idle |}.

Definition AddListener (d : Driver) : Driver :=
  set_listeners (_listeners d ++ [[]]) d.

Definition HasInflight (d : Driver) : bool :=
  match GetMessage (_inflight d) with Some _ => true | None => false end.

Definition History (d : Driver) : list Message := _history d.

Definition _LogSent (ts : Q) (m : option bytes) (comment : string)
    (d : Driver) : Driver :=
  set_raw_history (_raw_history d ++ [(ts, true, m, comment)]) d.

Definition _LogReceived (ts : Q) (m : bytes) (comment : string)
    (d : Driver) : Driver :=
  set_raw_history (_raw_history d ++ [(ts, false, Some m, comment)]) d.

Definition _RecordInflight (m : Message) (d : Driver) : Driver :=
  set_history (_history d ++ [m]) d.

Definition SendMessage (m : Message) (d : Driver) : Driver :=
  set_out_queue (MQ.put (priority m) m (_out_queue d)) d.

Definition GetInFlightMessage (d : Driver) : option Message :=
  GetMessage (_inflight d).

Definition OutQueueSizeForNode (n : Z) (d : Driver) : Z :=
  MQ.qsize_for_node (_out_queue d) n.

(** [_SendRaw(payload, comment)]; [ts] is the value of [time.time()]
    inside.  The lock makes the log entry and the write one step. *)
Definition _SendRaw (payload : option bytes) (comment : string) (ts : Q)
    (d : Driver) : Driver :=
  let d := _LogSent ts payload comment d in
  set_device (_device d ++ [payload]) d.

(** [Driver.__str__]: the three elements of [out], evaluated in order.
    The first two are kept as the values whose [str()] is taken: the
    non-empty part of [_per_node_size] and the in-flight message. *)
Definition __str__ (d : Driver) :
    result (gmap Z Z * option Message * string) :=
  let non_empty :=
    filter (fun kv => kv.2 <> 0%Z) (MQ._per_node_size (_out_queue d)) in
  let inflight := GetMessage (_inflight d) in
  match Stats.MessageStatsString (_history d) with
  | Raise e => Raise e
  | Ok stats => Ok (non_empty, inflight, stats)
  end.

(** *** The body of [_DriverReceivingThread] *)

(** The local variables [buf] and [last_sof_arrival]. *)
Record rx_locals := mkRxLocals {
  buf : bytes;
  last_sof_arrival : option Q
}.

Definition rx_locals0 : rx_locals := {| buf := []; last_sof_arrival := None |}.

(** How the first half of an iteration (lines 353 to 374) ends: with
    [continue], or with a frame [m] to be handed to the in-flight
    record. *)
Inductive rx_next :=
| RxContinue (l : rx_locals)
| RxFrame (l : rx_locals) (m : bytes).

Section Receive.
(** [zmessage.ExtracRawMessage] *)
Variable ExtracRawMessage : bytes -> option bytes.

(** The truth value of the result: [None] and [b""] are false. *)
Definition falsy (m : option bytes) : bool :=
  match m with
  | None | Some [] => true
  | Some (_ :: _) => false
  end.

(** Lines 353 to 374; [r] is the result of [read(1)] and [ts] the
    value of [time.time()].  [assert False] raises [AssertionError]
    (the interpreter is taken to run without [-O]). *)
Definition rx_receive (r : bytes) (ts : Q) (l : rx_locals) : result rx_next :=
  match r with
  | [] => Ok (RxContinue l)
  | _ :: _ =>
    let buf := buf l ++ r in
    match take 1 buf with
    | [] => Raise IndexError
    | m0 :: _ =>
      if Byte.eqb m0 SOF then
        let last_sof_arrival :=
          match last_sof_arrival l with
          | None => ts
          | Some t => t
          end in
        let m := ExtracRawMessage buf in
        if falsy m then
          if negb (Qle_bool (ts - last_sof_arrival) 2) then
            Raise AssertionError
          else
            Ok (RxContinue {| buf := buf;
                              last_sof_arrival := Some last_sof_arrival |})
        else
          let m := default [] m in
          Ok (RxFrame {| buf := drop (length m) buf;
                         last_sof_arrival := None |} m)
      else
        let m := take 1 buf in
        Ok (RxFrame {| buf := drop (length m) buf;
                       last_sof_arrival := None |} m)
    end
  end.

(** Successive iterations of the loop, seen from its local variables:
    [reads] are the results of [read(1)], each with the time stamp taken
    after it.  The result is the sequence of frames handed to the
    in-flight record and the locals at the end; an exception ends the
    loop.  The second half of an iteration (lines 375 to 386) does not
    touch the locals. *)
Fixpoint rx_frames (reads : list (bytes * Q)) (l : rx_locals) :
    result (list bytes * rx_locals) :=
  match reads with
  | [] => Ok ([], l)
  | (r, ts) :: reads' =>
    match rx_receive r ts l with
    | Raise e => Raise e
    | Ok (RxContinue l') => rx_frames reads' l'
    | Ok (RxFrame l' m) =>
      match rx_frames reads' l' with
      | Raise e => Raise e
      | Ok (fs, l'') => Ok (m :: fs, l'')
      end
    end
  end.


End Receive.

(** Lines 378 to 386: what the loop does with the action; [now] is the
    value of [time.time()] inside [_SendRaw].  Reading [.payload] off
    [None] raises [AttributeError]. *)
Definition rx_dispatch (next_action : action) (ts : Q) (m : bytes) (now : Q)
    (d : Driver) : result Driver :=
  match next_action with
  | DO_ACK => Ok (_SendRaw (Some RAW_MESSAGE_ACK) "" now d)
  | DO_RETRY =>
    match GetMessage (_inflight d) with
    | None => Raise AttributeError
    | Some message => Ok (_SendRaw (payload message) "re-try" now d)
    end
  | DO_PROPAGATE =>
    let d := _SendRaw (Some RAW_MESSAGE_ACK) "" now d in
    Ok (set_in_queue (_in_queue d ++ [(ts, Some m)]) d)
  | DO_NOTHING => Ok d
  end.

(** *** [_run_child_thread] *)

(** What the wrapper does once [fn()] has come to an end. *)
Inductive supervision :=
| LeaveLoop               (* [break]: on to the barrier *)
| Retry (delay : Q)       (* logged, slept, [fn()] is called again *)
| Propagate (e : exn).    (* not caught by [except Exception] *)

(** [delay] after the handler. *)
Definition next_delay (delay : Q) : Q :=
  if negb (Qle_bool 60 delay) then (delay * 2)%Q else delay.

(** One pass through the [try] statement, given how [fn()] ended.  After
    a caught exception the loop test decides whether [fn()] runs again;
    [Retry] carries the new delay. *)
Definition supervise (outcome : result unit) (delay : Q) : supervision :=
  match outcome with
  | Ok _ => LeaveLoop
  | Raise e => if is_Exception e then Retry (next_delay delay) else Propagate e
  end.

(** The value of [delay] after [n] passes through the handler:
    [delay = .5] at the start (line 308), [next_delay] at each pass.  It
    is the argument of [time.sleep] in pass [n + 1]. *)
Fixpoint backoff (n : nat) : Q :=
  match n with
  | O => 1 # 2
  | S n' => next_delay (backoff n')
  end.


End Driver.

(** ** The driver at work

    The three worker threads, a caller of [Terminate], a caller of
    [WaitUntilAllPreviousMessagesHaveBeenHandled] and any number of
    clients calling [SendMessage] run interleaved.  A step is one
    statement of one thread; [put] and [get] on the outbound queue and
    the operations of the in-flight record are taken as atomic.  The
    serial device may fail: [read], [write] and [flush] may raise
    [SerialException], and the [put] of a listener may raise; these are
    steps of their own, taken whenever the environment chooses. *)
Module Sys.
Import Py ZMessage Driver.

(** Program points inside [_DriverSendingThread]: the loop test
    (line 332), the [get] (333), [StartMessage] (334),
    [_RecordInflight] (335), [_SendRaw] (336) and
    [WaitForMessageCompletion] (337). *)
Inductive tx_pc :=
| TxLoop
| TxGet
| TxStart (m : Message)
| TxRecord (m : Message)
| TxSend (m : Message)
| TxWait.

(** Program points inside [_DriverReceivingThread]: the loop test
    (line 352), the [read] (353) and the branch on [next_action] (378). *)
Inductive rx_pc :=
| RxLoop (l : rx_locals)
| RxRead (l : rx_locals)
| RxAct (l : rx_locals) (a : action) (ts : Q) (m : bytes).

(** Program points inside [_DriverForwardingThread]: blocked in
    [_in_queue.get()] (line 390), and inside the loop over the listeners
    (lines 393 and 394) with the pair [(ts, m)] in hand, about to look
    at the listener of index [k]. *)
Inductive fw_pc :=
| FwGet
| FwPut (ts : Q) (m : bytes) (k : nat).

(** A child thread inside [_run_child_thread]: at the loop test
    (line 311), inside [fn()], about to call the barrier's [wait()]
    (323), blocked in it, past it (325), or brought down by an exception
    that [except Exception] does not catch. *)
Inductive thread (P : Type) :=
| Sup (delay : Q)
| Run (delay : Q) (pc : P)
| AtBarrier
| Waiting
| Finished
| Dead (e : exn).
Arguments Sup {P} delay.
Arguments Run {P} delay pc.
Arguments AtBarrier {P}.
Arguments Waiting {P}.
Arguments Finished {P}.
Arguments Dead {P} e.

(** The caller of [Terminate]: before the call, after [lock.acquire()]
    (line 257), after [_in_queue.put] (264), after [SendMessage] (265),
    after the second [lock.acquire()] (267), blocked in the barrier
    (270), returned. *)
Inductive term_pc :=
| TermIdle
| TermLocked
| TermMarked
| TermSent
| TermAtBarrier
| TermWaiting
| TermReturned.

(** The caller of [WaitUntilAllPreviousMessagesHaveBeenHandled]: before
    a call, after [lock.acquire()] (line 243), after [SendMessage] of
    the barrier message [b] (247), returned from the call that sent
    [b]. *)
Inductive wq_pc :=
| WqIdle
| WqLocked
| WqSent (b : Message)
| WqReturned (b : Message).

(** The whole system.  [completed] records the invocations of the
    completion callbacks, oldest first.  [submitted] and [started] are
    ghost histories: the arguments of [SendMessage] and the messages
    that [StartMessage] accepted, oldest first. *)
Record config := mkState {
  drv : Driver;
  tx : thread tx_pc;
  rx : thread rx_pc;
  fw : thread fw_pc;
  term : term_pc;
  wq : wq_pc;
  term_lock : bool;
  wq_lock : bool;
  completed : list (Message * outcome);
  submitted : list Message;
  started : list Message
}.

Definition set_drv v (s : config) : config :=
  mkState v (tx s) (rx s) (fw s) (term s) (wq s) (term_lock s) (wq_lock s)
    (completed s) (submitted s) (started s).
Definition set_tx v (s : config) : config :=
  mkState (drv s) v (rx s) (fw s) (term s) (wq s) (term_lock s) (wq_lock s)
    (completed s) (submitted s) (started s).
Definition set_rx v (s : config) : config :=
  mkState (drv s) (tx s) v (fw s) (term s) (wq s) (term_lock s) (wq_lock s)
    (completed s) (submitted s) (started s).
Definition set_fw v (s : config) : config :=
  mkState (drv s) (tx s) (rx s) v (term s) (wq s) (term_lock s) (wq_lock s)
    (completed s) (submitted s) (started s).
Definition set_term v (s : config) : config :=
  mkState (drv s) (tx s) (rx s) (fw s) v (wq s) (term_lock s) (wq_lock s)
    (completed s) (submitted s) (started s).
Definition set_wq v (s : config) : config :=
  mkState (drv s) (tx s) (rx s) (fw s) (term s) v (term_lock s) (wq_lock s)
    (completed s) (submitted s) (started s).
Definition set_term_lock v (s : config) : config :=
  mkState (drv s) (tx s) (rx s) (fw s) (term s) (wq s) v (wq_lock s)
    (completed s) (submitted s) (started s).
Definition set_wq_lock v (s : config) : config :=
  mkState (drv s) (tx s) (rx s) (fw s) (term s) (wq s) (term_lock s) v
    (completed s) (submitted s) (started s).
Definition set_completed v (s : config) : config :=
  mkState (drv s) (tx s) (rx s) (fw s) (term s) (wq s) (term_lock s)
    (wq_lock s) v (submitted s) (started s).
Definition set_submitted v (s : config) : config :=
  mkState (drv s) (tx s) (rx s) (fw s) (term s) (wq s) (term_lock s)
    (wq_lock s) (completed s) v (started s).
Definition set_started v (s : config) : config :=
  mkState (drv s) (tx s) (rx s) (fw s) (term s) (wq s) (term_lock s)
    (wq_lock s) (completed s) (submitted s) v.

(** The state in which [Driver.__init__] has returned: the three child
    threads have been started with [delay = .5], nobody holds a lock.
    Each child thread is taken to run the function its attribute is named
    after: the [lambda] handed to [threading.Thread] reads the loop
    variable [fn] when the thread first runs, and the model assumes this
    happens before the loop of [__init__] rebinds it. *)
Definition init : config :=
  {| drv := __init__;
     tx := Sup (1 # 2); rx := Sup (1 # 2); fw := Sup (1 # 2);
     term := TermIdle; wq := WqIdle;
     term_lock := false; wq_lock := false;
     completed := []; submitted := []; started := [] |}.

(** [wait()] on the barrier: the caller is counted; the call returns at
    once for the party that completes the barrier. *)
Definition barrier_arrive (b : Barrier) : Barrier * bool :=
  ({| parties := parties b; arrived := S (arrived b) |},
   (S (arrived b) =? parties b)%nat).

(** A blocked [wait()] returns once all parties have arrived. *)
Definition barrier_open (b : Barrier) : bool :=
  (parties b <=? arrived b)%nat.

#[global] Instance Callback_eq_dec : EqDecision Callback.
Proof. solve_decision. Defined.

Section System.
(** Modelled from the spec: the fixed maximum retry count of
    section 4.2, a constant of zmessage.py. *)
Variable max_retries : nat.
(** Modelled from the spec: the value of [zmessage.LowestPriority()],
    which is missing; section 4.4 calls it the lowest priority. *)
Variable LowestPriority : MQ.priority.

(** Modelled from the spec: the object built by
    [zmessage.Message(None, zmessage.LowestPriority(), cb, None)]: no
    payload, no destination, no expected reply. *)
Definition barrier_message (id : nat) (cb : Callback) : Message :=
  {| mid := id; payload := None; priority := LowestPriority;
     callback := cb; node := None; expected_reply := None;
     can := 0; state := ""; WasAborted := false; start := 0; end_ := None |}.

(** The message object is new: no earlier argument of [SendMessage] is
    the same object. *)
Definition fresh (id : nat) (s : config) : bool :=
  bool_decide (id ∉ mid <$> submitted s).

(** [Driver.SendMessage(m)], with the ghost history. *)
Definition send_message (m : Message) (s : config) : config :=
  set_submitted (submitted s ++ [m]) (set_drv (SendMessage m (drv s)) s).

(** Modelled from the spec: a message that reaches its terminal
    resolution has its callback invoked with the outcome (section 3).
    The callback runs in the thread that resolved the message:
    [lambda _: lock.release()] frees the lock of the waiting caller,
    [cb] of [Terminate] sets [_terminate] and frees its lock. *)
Definition complete (r : option (Message * outcome)) (s : config) : config :=
  match r with
  | None => s
  | Some (m, o) =>
    let s := set_completed (completed s ++ [(m, o)]) s in
    match callback m with
    | CbClient => s
    | CbRelease => set_wq_lock false s
    | CbTerminate =>
      set_term_lock false (set_drv (set_terminate true (drv s)) s)
    end
  end.

(** How a thread goes on when [fn()] has come to an end. *)
Definition fn_end {P : Type} (outcome : result unit) (delay : Q) : thread P :=
  match supervise outcome delay with
  | LeaveLoop => AtBarrier
  | Retry delay' => Sup delay'
  | Propagate e => Dead e
  end.

(** The steps of [_run_child_thread] outside [fn()]; [entry] is the
    first program point of [fn]. *)
Definition sup_step {P : Type} (entry : P) (t : thread P) (d : Driver) :
    option (thread P * Driver) :=
  match t with
  | Sup delay =>
    Some (if _terminate d then AtBarrier else Run delay entry, d)
  | AtBarrier =>
    let '(b, last) := barrier_arrive (_termination_barrier d) in
    Some (if last then Finished else Waiting, set_termination_barrier b d)
  | Waiting =>
    if barrier_open (_termination_barrier d) then Some (Finished, d) else None
  | Run _ _ | Finished | Dead _ => None
  end.

(** One step of the transmit thread. *)
Definition tx_step (ts : Q) (s : config) : option config :=
  let d := drv s in
  match tx s with
  | Run delay pc =>
    match pc with
    | TxLoop =>
      Some (set_tx (if _terminate d then fn_end (Ok ()) delay
                    else Run delay TxGet) s)
    | TxGet =>
      match MQ.get (_out_queue d) with
      | None => None
      | Some (inflight, q) =>
        Some (set_tx (Run delay (TxStart inflight))
                (set_drv (set_out_queue q d) s))
      end
    | TxStart inflight =>
      let '(accepted, i) := StartMessage inflight ts (_inflight d) in
      if accepted then
        Some (set_started (started s ++ [inflight])
                (set_tx (Run delay (TxRecord inflight))
                   (set_drv (set_inflight i d) s)))
      else Some (set_tx (Run delay TxLoop) (set_drv (set_inflight i d) s))
    | TxRecord inflight =>
      Some (set_tx (Run delay (TxSend inflight))
              (set_drv (_RecordInflight inflight d) s))
    | TxSend inflight =>
      Some (set_tx (Run delay TxWait)
              (set_drv (_SendRaw (payload inflight) "" ts d) s))
    | TxWait =>
      match GetMessage (_inflight d) with
      | None => Some (set_tx (Run delay TxLoop) s)
      | Some _ => None
      end
    end
  | t =>
    match sup_step TxLoop t d with
    | Some (t', d') => Some (set_tx t' (set_drv d' s))
    | None => None
    end
  end.

(** The deadline inside [WaitForMessageCompletion] expires. *)
Definition tx_timeout (ts : Q) (s : config) : option config :=
  match tx s with
  | Run delay TxWait =>
    match Timeout (_inflight (drv s)) with
    | (i, Some r) =>
      Some (complete (Some r) (set_drv (set_inflight i (drv s)) s))
    | (_, None) => None
    end
  | _ => None
  end.

(** One step of the receive thread; [r] is what [read(1)] returns. *)
Definition rx_step (r : bytes) (ts : Q) (s : config) : option config :=
  let d := drv s in
  match rx s with
  | Run delay pc =>
    match pc with
    | RxLoop l =>
      Some (set_rx (if _terminate d then fn_end (Ok ()) delay
                    else Run delay (RxRead l)) s)
    | RxRead l =>
      match rx_receive ExtracRawMessage r ts l with
      | Raise e => Some (set_rx (fn_end (Raise e) delay) s)
      | Ok (RxContinue l') => Some (set_rx (Run delay (RxLoop l')) s)
      | Ok (RxFrame l' m) =>
        let '(next_action, comment, i, res) :=
          NextActionForReceivedMessage max_retries ts m (_inflight d) in
        let d := _LogReceived ts m comment (set_inflight i d) in
        Some (complete res
                (set_rx (Run delay (RxAct l' next_action ts m)) (set_drv d s)))
      end
    | RxAct l next_action ts0 m =>
      match rx_dispatch next_action ts0 m ts d with
      | Raise e => Some (set_rx (fn_end (Raise e) delay) s)
      | Ok d' => Some (set_rx (Run delay (RxLoop l)) (set_drv d' s))
      end
    end
  | t =>
    match sup_step (RxLoop rx_locals0) t d with
    | Some (t', d') => Some (set_rx t' (set_drv d' s))
    | None => None
    end
  end.

(** One step of the forwarding thread.  The [for] statement walks
    [_listeners] by index and looks at the length of the list at every
    turn, so a listener appended meanwhile is visited too. *)
Definition fw_step (s : config) : option config :=
  let d := drv s in
  match fw s with
  | Run delay FwGet =>
    match _in_queue d with
    | [] => None
    | (ts, None) :: q =>
      Some (set_fw (fn_end (Ok ()) delay) (set_drv (set_in_queue q d) s))
    | (ts, Some m) :: q =>
      Some (set_fw (Run delay (FwPut ts m 0)) (set_drv (set_in_queue q d) s))
    end
  | Run delay (FwPut ts m k) =>
    match _listeners d !! k with
    | Some l =>
      Some (set_fw (Run delay (FwPut ts m (S k)))
              (set_drv (set_listeners (<[k := l ++ [(ts, m)]]> (_listeners d)) d)
                 s))
    | None => Some (set_fw (Run delay FwGet) s)
    end
  | t =>
    match sup_step FwGet t d with
    | Some (t', d') => Some (set_fw t' (set_drv d' s))
    | None => None
    end
  end.

(** *** Faults of the environment *)

(** [device.write] or [device.flush] raises inside the [_SendRaw] of
    line 336: the entry is in the raw history, the buffer was handed to
    [write], and the exception leaves [_DriverSendingThread] before
    [WaitForMessageCompletion] is reached. *)
Definition tx_raise (ts : Q) (s : config) : option config :=
  match tx s with
  | Run delay (TxSend inflight) =>
    Some (set_tx (fn_end (Raise SerialException) delay)
            (set_drv (_SendRaw (payload inflight) "" ts (drv s)) s))
  | _ => None
  end.

(** [device.read] raises (line 353), or [device.write] or
    [device.flush] raises inside one of the [_SendRaw] calls of lines
    379, 383 and 385; in the last case nothing is put into
    [_in_queue]. *)
Definition rx_raise (ts : Q) (s : config) : option config :=
  let d := drv s in
  match rx s with
  | Run delay (RxRead l) =>
    Some (set_rx (fn_end (Raise SerialException) delay) s)
  | Run delay (RxAct l next_action ts0 m) =>
    match next_action with
    | DO_ACK | DO_PROPAGATE =>
      Some (set_rx (fn_end (Raise SerialException) delay)
              (set_drv (_SendRaw (Some RAW_MESSAGE_ACK) "" ts d) s))
    | DO_RETRY =>
      match GetMessage (_inflight d) with
      | Some message =>
        Some (set_rx (fn_end (Raise SerialException) delay)
                (set_drv (_SendRaw (payload message) "re-try" ts d) s))
      | None => None
      end
    | DO_NOTHING => None
    end
  | _ => None
  end.

(** [listener.put(ts, m)] raises [e] (line 394): the listener at hand
    and those behind it do not get the pair.  Listeners are taken to
    raise nothing but subclasses of [Exception]. *)
Definition fw_raise (e : exn) (s : config) : option config :=
  match fw s with
  | Run delay (FwPut ts m k) =>
    if is_Exception e && (k <? length (_listeners (drv s)))%nat then
      Some (set_fw (fn_end (Raise e) delay) s)
    else None
  | _ => None
  end.

(** One step of the caller of [Terminate]; [id] names the message
    object it creates. *)
Definition term_step (ts : Q) (id : nat) (s : config) : option config :=
  let d := drv s in
  match term s with
  | TermIdle => Some (set_term TermLocked (set_term_lock true s))
  | TermLocked =>
    Some (set_term TermMarked
            (set_drv (set_in_queue (_in_queue d ++ [(ts, None)]) d) s))
  | TermMarked =>
    if fresh id s then
      Some (set_term TermSent
              (send_message (barrier_message id CbTerminate) s))
    else None
  | TermSent =>
    if term_lock s then None
    else Some (set_term TermAtBarrier (set_term_lock true s))
  | TermAtBarrier =>
    let '(b, last) := barrier_arrive (_termination_barrier d) in
    Some (set_term (if last then TermReturned else TermWaiting)
            (set_drv (set_termination_barrier b d) s))
  | TermWaiting =>
    if barrier_open (_termination_barrier d) then
      Some (set_term TermReturned s)
    else None
  | TermReturned => None
  end.

(** One step of the caller of
    [WaitUntilAllPreviousMessagesHaveBeenHandled]; a new call may follow
    a return. *)
Definition wq_step (id : nat) (s : config) : option config :=
  match wq s with
  | WqIdle | WqReturned _ => Some (set_wq WqLocked (set_wq_lock true s))
  | WqLocked =>
    if fresh id s then
      let b := barrier_message id CbRelease in
      Some (set_wq (WqSent b) (send_message b s))
    else None
  | WqSent b =>
    if wq_lock s then None
    else Some (set_wq (WqReturned b) (set_wq_lock true s))
  end.

(** Who moves, and with which input. *)
Inductive label :=
| LSubmit (m : Message)
| LAddListener
| LWq (id : nat)
| LTerm (ts : Q) (id : nat)
| LTx (ts : Q)
| LTimeout (ts : Q)
| LRx (r : bytes) (ts : Q)
| LFw
| LTxRaise (ts : Q)
| LRxRaise (ts : Q)
| LFwRaise (e : exn).

(** A client submits a message object of its own, with a callback of
    its own. *)
Definition submit (m : Message) (s : config) : option config :=
  if fresh (mid m) s && bool_decide (callback m = CbClient) then
    Some (send_message m s)
  else None.

Definition step (l : label) (s : config) : option config :=
  match l with
  | LSubmit m => submit m s
  | LAddListener => Some (set_drv (AddListener (drv s)) s)
  | LWq id => wq_step id s
  | LTerm ts id => term_step ts id s
  | LTx ts => tx_step ts s
  | LTimeout ts => tx_timeout ts s
  | LRx r ts => rx_step r ts s
  | LFw => fw_step s
  | LTxRaise ts => tx_raise ts s
  | LRxRaise ts => rx_raise ts s
  | LFwRaise e => fw_raise e s
  end.

(** A schedule is run from the left; a step that is not enabled stops
    the run. *)
Fixpoint exec (ls : list label) (s : config) : option config :=
  match ls with
  | [] => Some s
  | l :: ls' =>
    match step l s with
    | Some s' => exec ls' s'
    | None => None
    end
  end.

(** The number of messages that were started and are not resolved. *)
Definition active_count (s : config) : nat :=
  length (started s) - length (completed s).

(** *** Invariants *)

(** The message held by the in-flight record. *)
Definition current (s : config) : option Message :=
  GetMessage (_inflight (drv s)).

(** The transmit thread starts a message only on an idle record, and
    the record holds no other message than the one that thread is busy
    with. *)
Definition tx_discipline (s : config) : Prop :=
  match tx s with
  | Run _ (TxRecord m) | Run _ (TxSend m) =>
    current s = None \/ current s = Some m
  | Run _ TxWait => True
  | _ => current s = None
  end.

(** The started messages are the resolved ones, in order, followed by
    the one in flight. *)
Definition started_inv (s : config) : Prop :=
  started s = (completed s).*1 ++ option_list (current s).

(** The messages waiting in the outbound queue, with their keys. *)
Definition entries (s : config) : list (MQ.priority * Message) :=
  MQ._q (_out_queue (drv s)).

Definition queued (s : config) : list Message := (entries s).*2.

(** The message the transmit thread has taken from the queue and not
    seen resolved. *)
Definition in_hand (s : config) : list Message :=
  match tx s with
  | Run _ (TxStart m) => [m]
  | Run _ (TxRecord _) | Run _ (TxSend _) | Run _ TxWait =>
    option_list (current s)
  | _ => []
  end.

(** [m] was submitted before [b]. *)
Definition before (s : config) (m b : Message) : Prop :=
  exists i j : nat,
    (i < j)%nat /\ submitted s !! i = Some m /\ submitted s !! j = Some b.

Definition lowest (m : Message) : Prop :=
  MQ.level (priority m) = MQ.level LowestPriority.

(** The invariant of the transmit side. *)
Record Inv (s : config) : Prop := mkInv {
  inv_tx : tx_discipline s;
  inv_started : started_inv s;
  inv_wf : MQ.wf (_out_queue (drv s));
  inv_nodup : NoDup (mid <$> submitted s);
  inv_parts : submitted s ≡ₚ queued s ++ in_hand s ++ (completed s).*1;
  inv_levels :
    Forall (fun m => (MQ.level (priority m) <= MQ.level LowestPriority)%Z)
      (submitted s);
  inv_key_level :
    forall k m, (k, m) ∈ entries s -> MQ.level k = MQ.level (priority m);
  inv_key_order :
    forall k1 m1 k2 m2,
      (k1, m1) ∈ entries s -> (k2, m2) ∈ entries s ->
      before s m1 m2 -> lowest m2 -> MQ.prio_lt k1 k2;
  inv_order :
    forall m b, before s m b -> lowest b ->
      b ∈ in_hand s \/ b ∈ (completed s).*1 -> m ∈ (completed s).*1;
  inv_wq_msg :
    forall b, wq s = WqSent b \/ wq s = WqReturned b ->
      priority b = LowestPriority /\ b ∈ submitted s;
  inv_wq_returned : forall b, wq s = WqReturned b -> b ∈ (completed s).*1;
  inv_wq_released :
    forall b, wq s = WqSent b -> wq_lock s = false -> b ∈ (completed s).*1;
  inv_wq_locked : wq s = WqLocked -> wq_lock s = true;
  inv_release :
    forall m, m ∈ queued s ++ in_hand s -> callback m = CbRelease ->
      wq s = WqSent m
}.

(** The components the invariant reads. *)
Definition core (s : config) :=
  (tx s, _out_queue (drv s), current s, submitted s, started s, completed s,
   wq s, wq_lock s).

(** The clients stay within the priority levels: none submits below
    [LowestPriority()]. *)
Definition within_levels (l : label) : Prop :=
  match l with
  | LSubmit m => (MQ.level (priority m) <= MQ.level LowestPriority)%Z
  | _ => True
  end.

(** The steps that may fall between the verdict of the in-flight
    record and the branch of the receive loop acting on it: those of
    the other threads, the deadline of [WaitForMessageCompletion]
    excepted. *)
Definition no_deadline (l : label) : Prop :=
  match l with
  | LTimeout _ | LRx _ _ | LRxRaise _ => False
  | _ => True
  end.

(** The steps that cannot put a message into the in-flight record, the
    steps of the receive loop itself excepted. *)
Definition no_start (l : label) : Prop :=
  match l with
  | LTx _ | LRx _ _ | LRxRaise _ => False
  | _ => True
  end.

(** No write to the device has failed on the transmit thread. *)
Definition tx_writes_ok (l : label) : Prop :=
  match l with
  | LTxRaise _ => False
  | _ => True
  end.

(** What a verdict of the in-flight record does to its message: either
    nothing, or the message it held is resolved and the record is idle. *)
Definition resolves (i i' : InflightMessage)
    (res : option (Message * outcome)) : Prop :=
  match res with
  | None => _message i' = _message i
  | Some (m, _) => _message i = Some m /\ _message i' = None
  end.

(** The part of the configuration that the transmit side and the
    callers see. *)
Definition view (s : config) :=
  (tx s, _out_queue (drv s), submitted s, started s, wq s, term s).

(** A step of the receive side or a deadline: the in-flight record gives
    a verdict, the callback of a resolved message runs, nothing else of
    the view changes. *)
Definition verdict (res : option (Message * outcome)) (s s' : config) : Prop :=
  view s' = view s /\
  resolves (_inflight (drv s)) (_inflight (drv s')) res /\
  completed s' = completed s ++ option_list res /\
  wq_lock s' =
    match res with
    | Some (m, _) => if decide (callback m = CbRelease) then false else wq_lock s
    | None => wq_lock s
    end /\
  term_lock s' =
    match res with
    | Some (m, _) =>
      if decide (callback m = CbTerminate) then false else term_lock s
    | None => term_lock s
    end /\
  _terminate (drv s') =
    match res with
    | Some (m, _) =>
      if decide (callback m = CbTerminate) then true else _terminate (drv s)
    | None => _terminate (drv s)
    end /\
  _raw_history (drv s) `prefix_of` _raw_history (drv s').

(** Between [StartMessage] and [_SendRaw] the in-flight record holds
    the message the transmit thread is busy with, if any. *)
Definition tx_holds (s : config) : Prop :=
  match tx s with
  | Run _ (TxRecord m) | Run _ (TxSend m) =>
    current s = None \/ current s = Some m
  | _ => True
  end.

(** The message in the in-flight record has been handed to [_SendRaw]
    by the transmit loop, or the transmit loop is on its way there
    (lines 335 and 336). *)
Definition sent_or_pending (s : config) : Prop :=
  forall m, current s = Some m ->
    (exists ts, (ts, true, payload m, ""%string) ∈ _raw_history (drv s)) \/
    (exists d, tx s = Run d (TxRecord m) \/ tx s = Run d (TxSend m)).

Record Inv1 (s : config) : Prop := mkInv1 {
  inv1_tx : tx_holds s;
  inv1_started : started_inv s;
  inv1_sent : sent_or_pending s
}.

(** *** The termination barrier *)

(** The thread has called [wait()] on the barrier: its loop in
    [_run_child_thread] is over. *)
Definition past_loop {P : Type} (t : thread P) : bool :=
  match t with
  | Waiting | Finished => true
  | _ => false
  end.

Definition term_arrived (t : term_pc) : bool :=
  match t with
  | TermWaiting | TermReturned => true
  | _ => false
  end.

(** The caller of [Terminate] has got its lock back from the callback
    of the final message. *)
Definition term_released (t : term_pc) : bool :=
  match t with
  | TermAtBarrier | TermWaiting | TermReturned => true
  | _ => false
  end.

(** The number of threads that have called [wait()]. *)
Definition arrivals (s : config) : nat :=
  (if past_loop (tx s) then 1 else 0) + (if past_loop (rx s) then 1 else 0)
  + (if past_loop (fw s) then 1 else 0)
  + (if term_arrived (term s) then 1 else 0).

Definition is_finished {P : Type} (t : thread P) : bool :=
  match t with
  | Finished => true
  | _ => false
  end.

(** [Terminate] has been called and has taken its lock. *)
Definition term_called (t : term_pc) : bool :=
  match t with
  | TermIdle => false
  | _ => true
  end.

Definition term_returned (t : term_pc) : bool :=
  match t with
  | TermReturned => true
  | _ => false
  end.

Record Inv3 (s : config) : Prop := mkInv3 {
  inv3_parties :
    parties (_termination_barrier (drv s)) = (length child_threads + 1)%nat;
  inv3_arrived : arrived (_termination_barrier (drv s)) = arrivals s;
  inv3_open :
    is_finished (tx s) || is_finished (rx s) || is_finished (fw s)
    || term_returned (term s) = true ->
    (parties (_termination_barrier (drv s))
     <= arrived (_termination_barrier (drv s)))%nat;
  inv3_flag : term_released (term s) = true -> _terminate (drv s) = true;
  inv3_lock :
    term_called (term s) = true -> term_lock s = false ->
    _terminate (drv s) = true
}.

End System.

(** *** The logs, the listeners and the supervision *)

(** The buffers that the raw history records as written to the device,
    oldest first. *)
Definition sent_log (h : list (Q * bool * option bytes * string)) :
    list (option bytes) :=
  omap (fun '(_, sent, m, _) => if sent : bool then Some m else None) h.

(** The frames that the raw history records as received, with their
    time stamps. *)
Definition received_log (h : list (Q * bool * option bytes * string)) :
    list (Q * bytes) :=
  omap (fun '(ts, sent, m, _) => if sent : bool then None else pair ts <$> m) h.

(** Every write to the device after start-up went through [_SendRaw]. *)
Definition io_inv (s : config) : Prop :=
  _device (drv s) = _device __init__ ++ sent_log (_raw_history (drv s)).

(** Both histories of [s] are initial segments of those of [s']. *)
Definition grows (s s' : config) : Prop :=
  _raw_history (drv s) `prefix_of` _raw_history (drv s') /\
  _history (drv s) `prefix_of` _history (drv s').

(** The frame the receive thread is about to act on (line 378). *)
Definition rx_frame (s : config) : list (Q * bytes) :=
  match rx s with
  | Run _ (RxAct _ _ ts m) => [(ts, m)]
  | _ => []
  end.

(** The pair the forwarding thread is handing to the listeners. *)
Definition fw_frame (s : config) : list (Q * bytes) :=
  match fw s with
  | Run _ (FwPut ts m _) => [(ts, m)]
  | _ => []
  end.

(** The frames waiting in [_in_queue]; the shutdown marker is none. *)
Definition in_frames (q : list (Q * option bytes)) : list (Q * bytes) :=
  omap (fun e => pair e.1 <$> e.2) q.

(** The raw history of [s] records the receipt of each pair of [l]. *)
Definition logged (s : config) (l : list (Q * bytes)) : Prop :=
  Forall (fun x => x ∈ received_log (_raw_history (drv s))) l.

(** What is on its way to the listeners, and what they have got, was
    logged on receipt. *)
Record fw_inv (s : config) : Prop := mkFwInv {
  fw_rx : logged s (rx_frame s);
  fw_queue : logged s (in_frames (_in_queue (drv s)));
  fw_hand : logged s (fw_frame s);
  fw_listeners : Forall (logged s) (_listeners (drv s))
}.

(** A listener has been handed nothing but what every listener
    registered before it has been handed, in the same order. *)
Definition listeners_aligned (ls : list (list (Q * bytes))) : Prop :=
  forall (i j : nat) li lj,
    (i <= j)%nat -> ls !! i = Some li -> ls !! j = Some lj -> lj `sublist_of` li.

(** While the pair [x] is handed out and the loop has got to index [k]:
    the listeners in front of [k] have [x] as their last pair, and
    without it they still cover the listeners from [k] on. *)
Definition delivering (x : Q * bytes) (k : nat)
    (ls : list (list (Q * bytes))) : Prop :=
  (k <= length ls)%nat /\
  forall (i : nat) li,
    (i < k)%nat -> ls !! i = Some li ->
    exists li', li = li' ++ [x] /\
      forall (j : nat) lj, (k <= j)%nat -> ls !! j = Some lj -> lj `sublist_of` li'.

Definition fw_aligned (s : config) : Prop :=
  listeners_aligned (_listeners (drv s)) /\
  match fw s with
  | Run _ (FwPut ts m k) => delivering (ts, m) k (_listeners (drv s))
  | _ => True
  end.

(** No exception has escaped from [_run_child_thread]. *)
Definition alive {P : Type} (t : thread P) : bool :=
  match t with
  | Dead _ => false
  | _ => true
  end.

(** The local variable [delay] of [_run_child_thread], while the thread
    is in its loop. *)
Definition delay_of {P : Type} (t : thread P) : option Q :=
  match t with
  | Sup d | Run d _ => Some d
  | _ => None
  end.

(** The thread has not left the loop of [_run_child_thread]. *)
Definition in_loop {P : Type} (t : thread P) : bool :=
  match t with
  | Sup _ | Run _ _ => true
  | _ => false
  end.

(** The thread is alive, with a delay that the back-off produces. *)
Definition supervised {P : Type} (t : thread P) : Prop :=
  match t with
  | Sup d | Run d _ => exists n, d = backoff n
  | Dead _ => False
  | _ => True
  end.

Definition all_supervised (s : config) : Prop :=
  supervised (tx s) /\ supervised (rx s) /\ supervised (fw s).

(** The forwarding thread stays out of its loop and the listeners of
    [s] are left as they are. *)
Definition kept (s s' : config) : Prop :=
  in_loop (fw s') = false /\
  forall i l, _listeners (drv s) !! i = Some l -> _listeners (drv s') !! i = Some l.

(** The message the transmit thread holds between [get] and
    [WaitForMessageCompletion]. *)
Definition tx_msgs (s : config) : list Message :=
  match tx s with
  | Run _ (TxStart m) | Run _ (TxRecord m) | Run _ (TxSend m) => [m]
  | _ => []
  end.

(** The driver while nobody has called [Terminate]: the flag is unset,
    no message carries the callback of [Terminate], the inbound queue
    holds no shutdown marker and the child threads are in their loops. *)
Record quiet (s : config) : Prop := mkQuiet {
  q_flag : _terminate (drv s) = false;
  q_queue :
    Forall (fun e => callback e.2 <> CbTerminate) (MQ._q (_out_queue (drv s)));
  q_tx : Forall (fun m => callback m <> CbTerminate) (tx_msgs s);
  q_inflight :
    Forall (fun m => callback m <> CbTerminate) (option_list (current s));
  q_marker : Forall (fun e => is_Some e.2) (_in_queue (drv s));
  q_threads : in_loop (tx s) && in_loop (rx s) && in_loop (fw s) = true
}.


End Sys.

(** ** Concrete runs

    Schedules of the system used to exercise the statements below, with
    a retry limit of 3 and [(1000, 0, -1)] for [LowestPriority()]. *)
Module Scenario.
Import Py ZMessage Driver Sys.

Definition retries : nat := 3.
Definition lowest_priority : MQ.priority := (1000, 0, -1)%Z.

(** A client message for node 5 at the low level, payload [01 02], no
    reply expected. *)
Definition m1 : Message :=
  {| mid := 1; payload := Some [Byte.x01; Byte.x02];
     priority := (3, 0, 5)%Z; callback := CbClient; node := Some 5%Z;
     expected_reply := None; can := 0; state := ""; WasAborted := false;
     start := 0; end_ := None |}.

(** The transmit thread enters its loop, [m1] is submitted and sent. *)
Definition send_m1 : list label :=
  [LTx 0; LTx 0; LSubmit m1; LTx 1; LTx 1; LTx 1; LTx 1].

(** The receive thread enters its loop and waits in [read]. *)
Definition rx_ready : list label := [LRx [] 1; LRx [] 1].

(** [m1] is sent, the stick answers with a negative acknowledge and the
    in-flight record asks for a retry. *)
Definition nak_m1 : list label := send_m1 ++ rx_ready ++ [LRx [NAK] 2].

(** As [nak_m1]; then the deadline of [WaitForMessageCompletion]
    expires before the receive thread acts on the verdict. *)
Definition nak_then_deadline : list label := nak_m1 ++ [LTimeout 3].

(** [m1] is submitted, a caller asks for quiescence, [m1] is sent and
    acknowledged, the barrier message is taken and resolved, the caller
    returns. *)
Definition quiesce : list label :=
  [LTx 0; LTx 0; LSubmit m1; LWq 0; LWq 7;
   LTx 1; LTx 1; LTx 1; LTx 1] ++ rx_ready ++
  [LRx [ACK] 2; LRx [] 2; LTx 2; LTx 2; LTx 3; LTx 3; LTx 3; LTx 3;
   LTimeout 4; LWq 0].

(** A start marker arrives at time 0 and nothing completes the frame;
    the next byte comes at time 3. *)
Definition desync : list label :=
  rx_ready ++ [LRx [SOF] 0; LRx [] 0; LRx [Byte.x05] 3].

(** [Terminate] from start to return, with the three child threads
    leaving their loops. *)
Definition shutdown : list label :=
  [LTx 0; LTx 0; LRx [] 0; LRx [] 0; LFw;
   LTerm 1 0; LTerm 1 0; LTerm 1 9;
   LTx 2; LTx 2; LTx 2; LTx 2; LTimeout 3;
   LTerm 3 0; LTerm 3 0;
   LTx 4; LTx 4; LTx 4;
   LRx [] 4; LRx [] 4; LRx [] 4;
   LFw; LFw; LTerm 5 0].

(** Two data frames: start marker, length, payload. *)
Definition frame1 : bytes := [SOF; Byte.x02; Byte.x0a; Byte.x0b].
Definition frame2 : bytes := [SOF; Byte.x01; Byte.x0c].

(** The receive thread, waiting in [read], gets the bytes of [f] one
    per [read(1)] at time [ts], acts on the frame and is back in
    [read]. *)
Definition receive (f : bytes) (ts : Q) : list label :=
  flat_map (fun b => [LRx [b] ts; LRx [] ts]) f ++ [LRx [] ts].

(** The forwarding thread takes a pair from the inbound queue and hands
    it to [n] listeners, one after the other. *)
Definition deliver (n : nat) : list label := repeat LFw (n + 2).

(** A listener is registered, [frame1] arrives and is forwarded, a
    second listener is registered, [frame2] arrives and is forwarded. *)
Definition forward : list label :=
  [LAddListener; LFw] ++ rx_ready ++ receive frame1 1 ++
  deliver 1 ++ [LAddListener] ++ receive frame2 2 ++ deliver 2.

(** As [forward]; then [Terminate] is called and the forwarding thread
    takes the shutdown marker from the inbound queue. *)
Definition marker_taken : list label :=
  forward ++ [LTerm 3 0; LTerm 3 0; LFw].

(** [frame1] arrives once more and the forwarding thread moves on to
    the barrier. *)
Definition late_frame : list label := receive frame1 4 ++ [LFw].

(** What [read(1)] returns while [frame1] and an acknowledge byte
    arrive. *)
Definition reads : list (bytes * Q) :=
  [([SOF], 1); ([Byte.x02], 1); ([], 1); ([Byte.x0a], 1); ([Byte.x0b], 1);
   ([ACK], 2)]%Q.


(** A second client message, for node 7, with another payload. *)
Definition m2 : Message :=
  {| mid := 2; payload := Some [Byte.x03; Byte.x04];
     priority := (3, 0, 7)%Z; callback := CbClient; node := Some 7%Z;
     expected_reply := None; can := 0; state := ""; WasAborted := false;
     start := 0; end_ := None |}.

(** A client message filed at a level beyond that of [LowestPriority()]. *)
Definition m3 : Message :=
  {| mid := 3; payload := Some [Byte.x05];
     priority := (2000, 0, 9)%Z; callback := CbClient; node := Some 9%Z;
     expected_reply := None; can := 0; state := ""; WasAborted := false;
     start := 0; end_ := None |}.

(** [m1] is taken from the queue, started and recorded; the write of
    its payload fails; the supervision wrapper re-enters the transmit
    loop, which gets to its [get]. *)
Definition write_fails : list label :=
  [LTx 0; LTx 0; LSubmit m1; LTx 1; LTx 1; LTx 1; LTxRaise 1; LTx 2; LTx 2].

(** As [write_fails]; then [m2] is submitted and the transmit loop
    takes it from the queue. *)
Definition next_taken : list label := write_fails ++ [LSubmit m2; LTx 3].

(** As [write_fails]; then [m2] is submitted and a caller asks for
    quiescence; the transmit loop takes [m2], which [StartMessage]
    refuses; [m1] is acknowledged; the barrier message is taken, started
    and resolved, and the caller returns. *)
Definition dropped : list label :=
  write_fails ++ [LSubmit m2; LWq 0; LWq 7; LTx 3; LTx 3] ++ rx_ready ++
  [LRx [ACK] 4; LRx [] 4; LTx 5; LTx 5; LTx 5; LTx 5; LTx 5; LTimeout 6;
   LWq 0].

(** [m3] is submitted, a caller asks for quiescence; the barrier
    message is served first, started and resolved, and the caller
    returns. *)
Definition beyond : list label :=
  [LTx 0; LTx 0; LSubmit m3; LWq 0; LWq 7; LTx 1; LTx 1; LTx 1; LTx 1;
   LTimeout 2; LWq 0].

(** As [nak_m1]; then the deadline resolves [m1] before the receive
    thread acts on the retry verdict, [m2] is submitted, and the
    transmit loop takes and starts it. *)
Definition other_started : list label :=
  nak_m1 ++ [LTimeout 3; LSubmit m2; LTx 3; LTx 3; LTx 3; LTx 3].

End Scenario.

(* ================================================================== *)
(** * Properties *)

(** ** The outbound queue *)
Section MQ_facts.
Import MQ.
Local Open Scope Z_scope.
Context {M : Type}.
Implicit Types (p q r : priority) (s : MessageQueueOut M).

Lemma prio_ltb_spec p q :
  prio_ltb p q = true <->
  level p < level q \/
  (level p = level q /\ (count p < count q \/ (count p = count q /\ node p < node q))).
Proof. unfold prio_ltb. lia. Qed.

Lemma prio_lt_irrefl p : ~ prio_lt p p.
Proof. unfold prio_lt. rewrite prio_ltb_spec. lia. Qed.

Lemma prio_lt_trans p q r : prio_lt p q -> prio_lt q r -> prio_lt p r.
Proof. unfold prio_lt. rewrite !prio_ltb_spec. lia. Qed.

Lemma prio_lt_asym p q : prio_lt p q -> ~ prio_lt q p.
Proof. unfold prio_lt. rewrite !prio_ltb_spec. lia. Qed.

Lemma prio_eq p q :
  level p = level q -> count p = count q -> node p = node q -> p = q.
Proof.
  destruct p as [[a b] c], q as [[a' b'] c']. unfold level, count, node.
  simpl. congruence.
Qed.

Lemma prio_trichotomy p q : prio_lt p q \/ p = q \/ prio_lt q p.
Proof.
  destruct (decide (level p = level q /\ count p = count q /\ node p = node q))
    as [(?&?&?)|Hne].
  - right; left. by apply prio_eq.
  - unfold prio_lt. rewrite !prio_ltb_spec. lia.
Qed.

(** *** The heap as a sorted sequence *)


Lemma elem_of_pq_put (e x : priority * M) l :
  x ∈ pq_put e l <-> x = e \/ x ∈ l.
Proof.
  induction l as [|y l IH]; simpl.
  - rewrite list_elem_of_singleton, elem_of_nil. tauto.
  - destruct (prio_ltb e.1 y.1); rewrite !elem_of_cons; [tauto|].
    rewrite IH. tauto.
Qed.

Lemma pq_put_perm (e : priority * M) l : pq_put e l ≡ₚ e :: l.
Proof.
  induction l as [|y l IH]; simpl; [done|].
  destruct (prio_ltb e.1 y.1); [done|]. rewrite IH. apply Permutation_swap.
Qed.

Lemma pq_put_keys (e : priority * M) l k :
  k ∈ (pq_put e l).*1 <-> k = e.1 \/ k ∈ l.*1.
Proof.
  rewrite !list_elem_of_fmap. split.
  - intros (x & -> & Hx). apply elem_of_pq_put in Hx as [->|Hx]; eauto.
  - intros [->|(x & -> & Hx)].
    + exists e. split; [done|]. apply elem_of_pq_put. by left.
    + exists x. split; [done|]. apply elem_of_pq_put. by right.
Qed.

Lemma pq_put_sorted (e : priority * M) l :
  e.1 ∉ l.*1 ->
  StronglySorted prio_lt l.*1 -> StronglySorted prio_lt (pq_put e l).*1.
Proof.
  induction l as [|y l IH]; simpl; intros Hfresh Hs.
  - repeat constructor.
  - inversion Hs as [|? ? Hs' Hall]; subst.
    destruct (prio_ltb e.1 y.1) eqn:Hlt; simpl.
    + constructor; [done|]. constructor; [done|].
      eapply Forall_impl; [exact Hall|]. intros z Hz.
      by eapply prio_lt_trans.
    + assert (prio_lt y.1 e.1) as Hye.
      { destruct (prio_trichotomy e.1 y.1) as [H|[H|H]]; [|..|done].
        - unfold prio_lt in H. congruence.
        - exfalso. apply Hfresh. rewrite H. apply elem_of_cons. by left. }
      constructor.
      * apply IH; [|done]. intros Hin. apply Hfresh, elem_of_cons. by right.
      * apply Forall_forall. intros z Hz.
        apply pq_put_keys in Hz as [->|Hz]; [done|].
        by eapply (proj1 (Forall_forall _ _)) in Hall.
Qed.

Lemma sorted_lookup_lt (l : list priority) (i j : nat) p q :
  StronglySorted prio_lt l -> (i < j)%nat ->
  l !! i = Some p -> l !! j = Some q -> prio_lt p q.
Proof.
  intros Hs. revert i j. induction Hs as [|x l Hs IH Hall]; intros i j Hij Hi Hj.
  - by rewrite lookup_nil in Hi.
  - destruct j as [|j]; [lia|]. destruct i as [|i]; simpl in *.
    + injection Hi as <-. eapply (proj1 (Forall_forall _ _)); [exact Hall|].
      by eapply list_elem_of_lookup_2.
    + eapply (IH i j); [lia|done..].
Qed.

Lemma sorted_lookup_inv (l : list priority) (i j : nat) p q :
  StronglySorted prio_lt l ->
  l !! i = Some p -> l !! j = Some q -> prio_lt p q -> (i < j)%nat.
Proof.
  intros Hs Hi Hj Hpq.
  destruct (lt_eq_lt_dec i j) as [[?| ->]|Hji]; [done|..].
  - rewrite Hi in Hj. injection Hj as ->. by apply prio_lt_irrefl in Hpq.
  - exfalso. eapply prio_lt_asym; [exact Hpq|].
    by eapply (sorted_lookup_lt l j i).
Qed.

Lemma sorted_NoDup (l : list priority) : StronglySorted prio_lt l -> NoDup l.
Proof.
  induction 1 as [|x l Hs IH Hall]; constructor; [|done].
  intros Hin. eapply (proj1 (Forall_forall _ _)) in Hall; [|exact Hin].
  by apply prio_lt_irrefl in Hall.
Qed.

(** *** What [put] and [get] do to the fields *)

Lemma getitem_insert (d : gmap Z Z) (n n' c : Z) :
  Py.getitem (<[n := c]> d) n' = if decide (n = n') then c else Py.getitem d n'.
Proof.
  unfold Py.getitem. destruct (decide (n = n')) as [->|Hne].
  - by rewrite lookup_insert_eq.
  - by rewrite lookup_insert_ne.
Qed.

Lemma getitem_empty (n : Z) : Py.getitem ∅ n = 0.
Proof. unfold Py.getitem. by rewrite lookup_empty. Qed.

Lemma reset_if_empty_q s : _q (reset_if_empty s) = _q s.
Proof. unfold reset_if_empty. by destruct (empty s). Qed.

Lemma reset_if_empty_nonempty s : _q s <> [] -> reset_if_empty s = s.
Proof. unfold reset_if_empty, empty. by destruct (_q s). Qed.


Lemma put_q p (m : M) s : _q (put p m s) = pq_put (put_key p s, m) (_q s).
Proof.
  unfold put, put_key. destruct p as [[l c] n]. unfold level, node. simpl.
  destruct (l =? 2); [|destruct (l =? 3)]; simpl;
    by rewrite reset_if_empty_q.
Qed.

Lemma put_hi_counts p (m : M) s :
  _hi_counts (put p m s) =
    if level p =? 2 then <[node p := count (put_key p s)]> (_hi_counts (reset_if_empty s))
    else _hi_counts (reset_if_empty s).
Proof.
  unfold put, put_key. destruct p as [[l c] n]. unfold level, node, count. simpl.
  destruct (l =? 2); [|destruct (l =? 3)]; done.
Qed.

Lemma put_lo_counts p (m : M) s :
  _lo_counts (put p m s) =
    if level p =? 2 then _lo_counts (reset_if_empty s)
    else if level p =? 3 then
      <[node p := count (put_key p s)]> (_lo_counts (reset_if_empty s))
    else _lo_counts (reset_if_empty s).
Proof.
  unfold put, put_key. destruct p as [[l c] n]. unfold level, node, count. simpl.
  destruct (l =? 2); [|destruct (l =? 3)]; done.
Qed.

Lemma put_counter p (m : M) s :
  _counter (put p m s) =
    if (level p =? 2) || (level p =? 3) then _counter s else _counter s + 1.
Proof.
  unfold put. destruct p as [[l c] n]. unfold level. simpl.
  assert (_counter (reset_if_empty s) = _counter s) as Hc.
  { unfold reset_if_empty. by destruct (empty s). }
  destruct (l =? 2); [|destruct (l =? 3)]; simpl; by rewrite Hc.
Qed.

Lemma put_floors p (m : M) s :
  _hi_min (put p m s) = _hi_min (reset_if_empty s) /\
  _lo_min (put p m s) = _lo_min (reset_if_empty s).
Proof.
  unfold put. destruct p as [[l c] n]. simpl.
  destruct (l =? 2); [|destruct (l =? 3)]; done.
Qed.

Lemma get_Some s (m : M) s' :
  get s = Some (m, s') ->
  exists p, _q s = (p, m) :: _q s' /\ front s = Some p /\
    _hi_counts s' = _hi_counts s /\ _lo_counts s' = _lo_counts s /\
    _counter s' = _counter s /\
    _hi_min s' = (if level p =? 2 then count p else _hi_min s) /\
    _lo_min s' = _lo_min s.
Proof.
  unfold get, front. destruct (_q s) as [|[p m0] rest]; [done|].
  intros [= <- <-]. exists p. simpl. repeat split.
  by destruct (level p =? 2).
Qed.

Lemma get_None s : get s = None <-> _q s = [].
Proof. unfold get. destruct (_q s) as [|[p m0] rest]; done. Qed.

(** *** Keys never repeat *)

Lemma wf_empty s : _q s = [] -> wf s.
Proof.
  intros Hq. unfold wf, keys. rewrite Hq. simpl.
  split; [constructor|]. repeat split; intros k Hk; by apply elem_of_nil in Hk.
Qed.

Lemma level_put_key p s : level (put_key p s) = level p.
Proof. done. Qed.

Lemma node_put_key p s : node (put_key p s) = node p.
Proof. done. Qed.

Lemma wf_reset s : wf s -> wf (reset_if_empty s).
Proof.
  intros Hwf. unfold reset_if_empty, empty.
  destruct (_q s) eqn:Hq; [|done]. by apply wf_empty.
Qed.

Lemma put_key_fresh p s : wf s -> put_key p s ∉ keys s.
Proof.
  intros Hwf%wf_reset Hin.
  assert (keys (reset_if_empty s) = keys s) as Hk
    by (unfold keys; by rewrite reset_if_empty_q).
  rewrite <-Hk in Hin. destruct Hwf as (_ & Hhi & Hlo & Hc).
  specialize (Hhi _ Hin). specialize (Hlo _ Hin). specialize (Hc _ Hin).
  rewrite level_put_key, node_put_key in *.
  unfold put_key, count in *. simpl in *.
  destruct (level p =? 2) eqn:E2; [lia|].
  destruct (level p =? 3) eqn:E3; lia.
Qed.

Lemma wf_put p (m : M) s : wf s -> wf (put p m s).
Proof.
  intros Hwf. pose proof (put_key_fresh p s Hwf) as Hfresh.
  apply wf_reset in Hwf.
  assert (keys (reset_if_empty s) = keys s) as Hk
    by (unfold keys; by rewrite reset_if_empty_q).
  destruct Hwf as (Hs & Hhi & Hlo & Hc). rewrite Hk in *.
  assert (forall k, k ∈ keys (put p m s) <-> k = put_key p s \/ k ∈ keys s) as Hin.
  { intros k. unfold keys. rewrite put_q. apply pq_put_keys. }
  split; [|split; [|split]].
  - unfold keys. rewrite put_q. by apply pq_put_sorted.
  - intros k [->|Hk']%Hin Hl; rewrite put_hi_counts.
    + rewrite level_put_key in Hl. rewrite node_put_key.
      replace (level p =? 2) with true by lia.
      rewrite getitem_insert. by rewrite decide_True.
    + specialize (Hhi _ Hk' Hl). destruct (level p =? 2) eqn:E2; [|done].
      rewrite getitem_insert. case_decide as Hn; [|done].
      rewrite <-Hn in Hhi. unfold put_key, count in *. simpl. rewrite E2. lia.
  - intros k [->|Hk']%Hin Hl; rewrite put_lo_counts.
    + rewrite level_put_key in Hl. rewrite node_put_key.
      replace (level p =? 2) with false by lia.
      replace (level p =? 3) with true by lia.
      rewrite getitem_insert. by rewrite decide_True.
    + specialize (Hlo _ Hk' Hl). destruct (level p =? 2) eqn:E2; [done|].
      destruct (level p =? 3) eqn:E3; [|done].
      rewrite getitem_insert. case_decide as Hn; [|done].
      rewrite <-Hn in Hlo. unfold put_key, count in *. simpl. rewrite E2, E3. lia.
  - intros k [->|Hk']%Hin Hl2 Hl3; rewrite put_counter.
    + rewrite level_put_key in Hl2, Hl3.
      replace (level p =? 2) with false by lia.
      replace (level p =? 3) with false by lia. simpl.
      unfold put_key, count. simpl.
      replace (level p =? 2) with false by lia.
      replace (level p =? 3) with false by lia.
      unfold reset_if_empty. destruct (empty s); simpl; lia.
    + specialize (Hc _ Hk' Hl2 Hl3).
      assert (_counter (reset_if_empty s) = _counter s) as Hcs.
      { unfold reset_if_empty. by destruct (empty s). }
      rewrite Hcs in Hc. destruct (_ || _); lia.
Qed.

Lemma wf_get s (m : M) s' : wf s -> get s = Some (m, s') -> wf s'.
Proof.
  intros (Hs & Hhi & Hlo & Hc) (p & Hq & _ & Hh & Hl & Hcn & _)%get_Some.
  assert (keys s = p :: keys s') as Hk by (unfold keys; by rewrite Hq).
  rewrite Hk in *. inversion Hs; subst.
  split; [done|]. rewrite Hh, Hl, Hcn.
  repeat split; intros k Hin; [apply Hhi|apply Hlo|apply Hc];
    apply elem_of_cons; by right.
Qed.

Lemma wf_exec ops s : wf s -> wf (exec ops s).
Proof.
  revert s. induction ops as [|[p m|] ops IH]; intros s Hwf; simpl; [done|..].
  - by apply IH, wf_put.
  - destruct (get s) as [[m s']|] eqn:Hg; [|by apply IH].
    eapply IH, wf_get; eauto.
Qed.

(** No two entries of the queue ever carry the same key, whatever the
    clients do; the order of the heap is decided by the keys alone. *)
Lemma keys_distinct ops : NoDup (keys (exec (M:=M) ops init)).
Proof. apply sorted_NoDup, (wf_exec ops init), wf_empty. done. Qed.

(** *** Batches: puts into a drained queue, then gets *)

Lemma binv_reset s : _q s = [] -> binv (reset_if_empty s).
Proof.
  intros Hq.
  assert (wf (reset_if_empty s)) as Hwf by by apply wf_reset, wf_empty.
  revert Hwf. unfold binv, keys, reset_if_empty, empty. rewrite Hq. simpl.
  intros Hwf.
  split; [done|]. split; [done|].
  split; [intros; rewrite getitem_empty; lia|].
  split; [intros; rewrite getitem_empty; lia|].
  split; [|split; [|done]]; intros c n; rewrite getitem_empty, elem_of_nil; lia.
Qed.

Lemma binv_reset_or s : _q s = [] \/ binv s -> binv (reset_if_empty s).
Proof.
  destruct (_q s) eqn:Hq.
  - intros _. by apply binv_reset.
  - intros [?|Hb]; [done|]. rewrite reset_if_empty_nonempty; [done|].
    by rewrite Hq.
Qed.

Lemma binv_put p (m : M) s : binv (reset_if_empty s) -> binv (put p m s).
Proof.
  intros (Hh0 & Hl0 & Hhn & Hln & Hhi & Hlo & Hwf).
  assert (keys (reset_if_empty s) = keys s) as Hk
    by (unfold keys; by rewrite reset_if_empty_q).
  rewrite Hk in Hhi, Hlo.
  assert (forall k, k ∈ keys (put p m s) <-> k = put_key p s \/ k ∈ keys s) as Hin.
  { intros k. unfold keys. rewrite put_q. apply pq_put_keys. }
  assert (wf (put p m s)) as Hwf'.
  { destruct (_q s) eqn:Hq; [by apply wf_put, wf_empty|].
    apply wf_put. rewrite reset_if_empty_nonempty in Hwf; [done|by rewrite Hq]. }
  destruct (put_floors p m s) as [Hf1 Hf2].
  assert (put_key p s =
          (level p,
           if level p =? 2 then Py.getitem (_hi_counts (reset_if_empty s)) (node p) + 1
           else if level p =? 3 then
             Py.getitem (_lo_counts (reset_if_empty s)) (node p) + 1
           else _counter (reset_if_empty s),
           node p)) as Hkey.
  { unfold put_key. rewrite Hh0, Hl0.
    specialize (Hhn (node p)). specialize (Hln (node p)).
    destruct (level p =? 2); [|destruct (level p =? 3)];
      repeat f_equal; lia. }
  unfold binv. rewrite Hf1, Hf2, put_hi_counts, put_lo_counts, Hkey.
  unfold count. simpl.
  split; [done|]. split; [done|].
  split; [|split; [|split; [|split; [|done]]]].
  - intros n. destruct (level p =? 2); [|done].
    rewrite getitem_insert. case_decide; [|done]. specialize (Hhn (node p)). lia.
  - intros n. destruct (level p =? 2); [done|]. destruct (level p =? 3); [|done].
    rewrite getitem_insert. case_decide; [|done]. specialize (Hln (node p)). lia.
  - intros c n. rewrite Hin, Hhi, Hkey. specialize (Hhn (node p)).
    destruct (level p =? 2) eqn:E2.
    + rewrite getitem_insert. case_decide as Hn; [subst n|].
      * split; [intros [[= ? ?]|?]; lia|]. intros ?.
        destruct (decide (c = Py.getitem (_hi_counts (reset_if_empty s)) (node p) + 1)).
        -- left. assert (level p = 2) as -> by lia. by subst c.
        -- right. lia.
      * split; [intros [[= ? ? ?]|?]; [congruence|done]|]. by right.
    + split; [intros [[= ? ? ?]|?]; [lia|done]|]. by right.
  - intros c n. rewrite Hin, Hlo, Hkey. specialize (Hln (node p)).
    destruct (level p =? 2) eqn:E2.
    { split; [intros [[= ? ? ?]|?]; [lia|done]|]. by right. }
    destruct (level p =? 3) eqn:E3.
    + rewrite getitem_insert. case_decide as Hn; [subst n|].
      * split; [intros [[= ? ?]|?]; lia|]. intros ?.
        destruct (decide (c = Py.getitem (_lo_counts (reset_if_empty s)) (node p) + 1)).
        -- left. assert (level p = 3) as -> by lia. by subst c.
        -- right. lia.
      * split; [intros [[= ? ? ?]|?]; [congruence|done]|]. by right.
    + split; [intros [[= ? ? ?]|?]; [lia|done]|]. by right.
Qed.

Lemma binv_closed s : binv s -> closed (keys s).
Proof.
  intros (_ & _ & _ & _ & Hhi & Hlo & _) l c n [-> | ->] Hin.
  - apply Hhi in Hin. split; [lia|]. intros c' ?. apply Hhi. lia.
  - apply Hlo in Hin. split; [lia|]. intros c' ?. apply Hlo. lia.
Qed.

Lemma pops_lookup (q : list (priority * M)) (i : nat) e :
  pops q !! i = Some e ->
  q.*1 !! i = Some (s_key e) /\ s_queued e = drop (S i) q.*1.
Proof.
  revert i. induction q as [|[p m] q IH]; intros i; simpl; [done|].
  destruct i as [|i]; simpl.
  - intros [= <-]. simpl. by rewrite drop_0.
  - apply IH.
Qed.

Lemma pops_lookup_key (q : list (priority * M)) (i : nat) k :
  q.*1 !! i = Some k -> exists e, pops q !! i = Some e /\ s_key e = k.
Proof.
  revert i. induction q as [|[p m] q IH]; intros i; simpl; [done|].
  destruct i as [|i]; simpl.
  - intros [= <-]. eauto.
  - apply IH.
Qed.

Lemma run_gets (n : nat) s : run (repeat Get n) s = take n (pops (_q s)).
Proof.
  revert s. induction n as [|n IH]; intros s; simpl; [done|].
  unfold front, get. destruct (_q s) as [|[p m] rest] eqn:Hq; simpl.
  - rewrite IH, Hq. simpl. by rewrite take_nil.
  - by rewrite IH.
Qed.

Lemma run_puts (puts : list (priority * M)) ops s :
  run (((fun e => Put e.1 e.2) <$> puts) ++ ops) s =
  run ops (exec ((fun e => Put e.1 e.2) <$> puts) s).
Proof.
  revert s. induction puts as [|[p m] puts IH]; intros s; simpl; [done|].
  apply IH.
Qed.

Lemma exec_puts_binv (puts : list (priority * M)) s :
  _q s = [] \/ binv s ->
  let s' := exec ((fun e => Put e.1 e.2) <$> puts) s in _q s' = [] \/ binv s'.
Proof.
  revert s. induction puts as [|[p m] puts IH]; intros s Hs; simpl; [done|].
  apply IH. right. by apply binv_put, binv_reset_or.
Qed.

Lemma window_fair_take (n : nat) (tr : list (served M)) :
  window_fair tr -> window_fair (take n tr).
Proof.
  intros Hf i j ei ej Hij Hi Hj Hl Hlj Hnj d' Hd Hq.
  apply lookup_take_Some in Hi as [Hi Hin], Hj as [Hj Hjn].
  destruct (Hf i j ei ej Hij Hi Hj Hl Hlj Hnj d' Hd Hq) as (k & ek & Hk & Hek & ?).
  exists k, ek. split; [done|]. split; [|done].
  apply lookup_take_Some. split; [done|lia].
Qed.

(** Serving a sorted queue whose counts are initial segments is fair. *)
Lemma pops_fair (q : list (priority * M)) :
  StronglySorted prio_lt q.*1 -> closed q.*1 -> window_fair (pops q).
Proof.
  intros Hs Hc i j ei ej Hij Hi Hj Hfl Hlj Hnj d' Hd (c' & Hq).
  apply pops_lookup in Hi as [Hi Hqi], Hj as [Hj _].
  destruct (s_key ei) as [[l ci] d] eqn:Ei, (s_key ej) as [[l' cj] dj] eqn:Ej.
  unfold level, node in *. simpl in *. subst l' dj.
  rewrite Hqi in Hq. apply list_elem_of_lookup in Hq as [m Hm].
  rewrite lookup_drop in Hm.
  pose proof (sorted_lookup_lt _ _ _ _ _ Hs Hij Hi Hj) as Hij'.
  assert (prio_lt (l, ci, d) (l, c', d')) as Him'.
  { eapply (sorted_lookup_lt _ i (S i + m)); [done|lia|done..]. }
  assert ((l, c', d') ∈ q.*1) as Hin' by by eapply list_elem_of_lookup_2.
  assert ((l, ci, d) ∈ q.*1) as Hini by by eapply list_elem_of_lookup_2.
  destruct (Hc _ _ _ Hfl Hin') as [_ Hdown].
  destruct (Hc _ _ _ Hfl Hini) as [Hci _].
  unfold prio_lt in Hij', Him'. rewrite prio_ltb_spec in Hij', Him'.
  unfold level, count, node in Hij', Him'. simpl in Hij', Him'.
  set (t := if decide (d < d') then ci else ci + 1).
  assert ((l, t, d') ∈ q.*1) as Ht.
  { apply Hdown. unfold t. case_decide; lia. }
  apply list_elem_of_lookup in Ht as [k Hk].
  assert (i < k)%nat as Hik.
  { eapply sorted_lookup_inv; [exact Hs|exact Hi|exact Hk|].
    unfold prio_lt. rewrite prio_ltb_spec. unfold level, count, node, t. simpl.
    case_decide; lia. }
  assert (k < j)%nat as Hkj.
  { eapply sorted_lookup_inv; [exact Hs|exact Hk|exact Hj|].
    unfold prio_lt. rewrite prio_ltb_spec. unfold level, count, node, t. simpl.
    case_decide; lia. }
  destruct (pops_lookup_key _ _ _ Hk) as (ek & Hek & Hkey).
  exists k, ek. rewrite Hkey. done.
Qed.

(** *** Runs depend on the deciding fields only *)

Lemma core_put p (m : M) s1 s2 :
  core (reset_if_empty s1) = core (reset_if_empty s2) ->
  core (put p m s1) = core (put p m s2).
Proof.
  unfold core, put. intros [= Hq Hlo Hhi Hlm Hhm Hc].
  destruct p as [[l c] n]. simpl.
  destruct (l =? 2); [|destruct (l =? 3)]; simpl;
    by rewrite ?Hq, ?Hlo, ?Hhi, ?Hlm, ?Hhm, ?Hc.
Qed.

Lemma core_reset s1 s2 :
  core s1 = core s2 -> core (reset_if_empty s1) = core (reset_if_empty s2).
Proof.
  destruct s1, s2. unfold core, reset_if_empty, empty. simpl.
  intros [= -> -> -> -> -> ->]. by destruct _q1.
Qed.

Lemma run_core ops s1 s2 :
  core (reset_if_empty s1) = core (reset_if_empty s2) -> run ops s1 = run ops s2.
Proof.
  revert s1 s2. induction ops as [|[p m|] ops IH]; intros s1 s2 Hc; simpl; [done|..].
  - by apply IH, core_reset, core_put.
  - assert (_q s1 = _q s2) as Hq.
    { injection Hc as Hq _. by rewrite !reset_if_empty_q in Hq. }
    unfold front, get. rewrite Hq. destruct (_q s2) as [|[p m] rest] eqn:Hq2.
    + by apply IH.
    + rewrite !reset_if_empty_nonempty in Hc by (rewrite ?Hq, ?Hq2; done).
      injection Hc as _ Hlo Hhi Hlm Hhm Hcn.
      f_equal. apply IH, core_reset. unfold core. simpl.
      by rewrite ?Hlo, ?Hhi, ?Hlm, ?Hhm, ?Hcn.
Qed.

Lemma run_drained ops s : _q s = [] -> run ops s = run ops (drained (_counter s)).
Proof.
  intros Hq. apply run_core. unfold core, reset_if_empty, empty, drained.
  rewrite Hq. done.
Qed.

(** C3 (amended): when a batch of messages is put into a drained queue
    and gets follow with no put in between, the service is round-robin
    at each fairness-managed level: a destination is not served a
    second time before every other destination that had an entry of
    that level queued at its first service has been served. *)
Theorem batch_window_fair (puts : list (priority * M)) (n : nat) s :
  _q s = [] ->
  window_fair (run (((fun e => Put e.1 e.2) <$> puts) ++ repeat Get n) s).
Proof.
  intros Hq. rewrite run_puts, run_gets. apply window_fair_take.
  destruct (exec_puts_binv puts s (or_introl Hq)) as [He|Hb].
  - rewrite He. intros i j ei ej _ Hi. simpl in Hi. by rewrite lookup_nil in Hi.
  - apply pops_fair.
    + by destruct Hb as (_ & _ & _ & _ & _ & _ & Hs & _).
    + by apply binv_closed.
Qed.

(** The high floor follows the served counter; the low floor is left
    alone by every [get]. *)
Lemma get_floors s (m : M) s' p :
  front s = Some p -> get s = Some (m, s') ->
  (level p = 2 -> _hi_min s' = count p) /\ _lo_min s' = _lo_min s.
Proof.
  intros Hf (p' & Hq & Hf' & _ & _ & _ & Hh & Hl)%get_Some.
  rewrite Hf in Hf'. injection Hf' as <-. split; [|done].
  intros Hl2. by rewrite Hh, Hl2.
Qed.

End MQ_facts.

(** C2: a [get] that serves an entry of the low level (3) leaves the
    low floor where it was.  After one low-priority put for node 5 into
    the fresh queue the entry carries counter 1; the get returns it and
    [_lo_min] is still 0. *)
Theorem get_low_floor_not_advanced :
  let s := MQ.put (3, 0, 5)%Z "m" MQ.init in
  MQ.front s = Some (3, 1, 5)%Z /\
  exists s', MQ.get s = Some ("m", s') /\ MQ._lo_min s' = 0%Z /\
             MQ._lo_min s' <> MQ.count (3, 1, 5)%Z.
Proof. simpl. split; [reflexivity|]. eexists. split; [reflexivity|]. done. Qed.

(** C3 (as stated) fails.  Node 7 puts two high-priority messages and
    one is served; node 3 then puts two.  The next two gets both serve
    node 3 although node 7 has had an entry queued all along. *)
Lemma fairness_counterexample :
  ~ MQ.window_fair
      (MQ.run [MQ.Put (2, 0, 7)%Z "a1"; MQ.Put (2, 0, 7)%Z "a2"; MQ.Get;
               MQ.Put (2, 0, 3)%Z "b1"; MQ.Put (2, 0, 3)%Z "b2";
               MQ.Get; MQ.Get] MQ.init).
Proof.
  intros Hf.
  destruct (Hf 1%nat 2%nat _ _ ltac:(lia) eq_refl eq_refl
              (or_introl eq_refl) eq_refl eq_refl 7%Z ltac:(done))
    as (k & _ & Hk & _).
  - exists 2%Z. vm_compute. apply list_elem_of_further, list_elem_of_here.
  - lia.
Qed.

(** The served keys of that run, for the record. *)
Example interleaved_run_keys :
  MQ.s_key <$>
    MQ.run [MQ.Put (2, 0, 7)%Z "a1"; MQ.Put (2, 0, 7)%Z "a2"; MQ.Get;
            MQ.Put (2, 0, 3)%Z "b1"; MQ.Put (2, 0, 3)%Z "b2";
            MQ.Get; MQ.Get; MQ.Get] MQ.init
  = [(2, 1, 7); (2, 1, 3); (2, 2, 3); (2, 2, 7)]%Z.
Proof. reflexivity. Qed.

Lemma batch_window_fair_witness :
  MQ._q (MQ.init (M:=string)) = [] /\
  MQ.window_fair
    (MQ.run (((fun e => MQ.Put e.1 e.2) <$>
                [((3, 0, 3)%Z, "a1"); ((3, 0, 3)%Z, "a2");
                 ((3, 0, 7)%Z, "b1"); ((2, 0, 7)%Z, "c1")])
             ++ repeat MQ.Get 4) MQ.init).
Proof. split; [reflexivity|]. apply batch_window_fair. reflexivity. Defined.

Section Scenario_B.
Import MQ.
Local Open Scope Z_scope.
Context {M : Type}.

Lemma perm_337_cases (l : list Z) :
  l ≡ₚ [3; 3; 3; 7; 7; 7] ->
  exists n1 n2 n3 n4 n5 n6, l = [n1; n2; n3; n4; n5; n6] /\
    Forall (fun n => n = 3 \/ n = 7) l /\
    length (filter (fun n => n = 3) l) = 3%nat.
Proof.
  intros Hp.
  assert (length l = 6%nat) as Hlen by by rewrite Hp.
  assert (Forall (fun n => n = 3 \/ n = 7) l) as Hall.
  { rewrite Hp. repeat (apply Forall_cons; split; [lia|]). apply Forall_nil. done. }
  assert (length (filter (fun n => n = 3) l) = 3%nat) as Hc by by rewrite Hp.
  do 6 (destruct l as [|? l]; [done|]). destruct l; [|done].
  eauto 10.
Qed.

(** C4: destinations 3 and 7 put three low-priority messages each into
    a drained queue, in any order of arrival; six gets then serve the
    destinations in the order 3,7,3,7,3,7, each destination's messages in
    the order they were put. *)
Theorem scenario_B (puts : list (priority * M)) (s : MessageQueueOut M) :
  _q s = [] ->
  Forall (fun e => level e.1 = 3) puts ->
  (node ∘ fst) <$> puts ≡ₚ [3; 3; 3; 7; 7; 7] ->
  let tr := run (((fun e => Put e.1 e.2) <$> puts) ++ repeat Get 6) s in
  (node ∘ s_key) <$> tr = [3; 7; 3; 7; 3; 7] /\
  s_msg <$> tr =
    concat (zip_with (fun a b => [a; b])
              (snd <$> filter (fun e => node e.1 = 3) puts)
              (snd <$> filter (fun e => node e.1 = 7) puts)).
Proof.
  intros Hq Hl Hp.
  destruct (perm_337_cases _ Hp) as (n1 & n2 & n3 & n4 & n5 & n6 & He & Hall & Hc).
  clear Hp. rewrite (run_drained _ s Hq). clear Hq. generalize (_counter s).
  clear s. intros ctr.
  do 6 (destruct puts as [|[[[? ?] ?] ?] puts]; [done|]).
  destruct puts; [|done].
  unfold level, node in *. simpl in * |-.
  repeat match goal with
         | H : Forall _ (_ :: _) |- _ =>
           apply Forall_cons in H as [? H]
         end.
  simpl in * |-. simplify_eq.
  repeat match goal with
         | H : _ = 3 \/ _ = 7 |- _ => destruct H as [-> | ->]
         end.
  all: (vm_compute in Hc; try discriminate Hc); clear Hc.
  all: vm_compute; split; reflexivity.
Qed.
End Scenario_B.

Lemma scenario_B_witness :
  let puts := [((3, 0, 3)%Z, "a1"); ((3, 0, 3)%Z, "a2"); ((3, 0, 3)%Z, "a3");
               ((3, 0, 7)%Z, "b1"); ((3, 0, 7)%Z, "b2"); ((3, 0, 7)%Z, "b3")] in
  MQ.s_msg <$> MQ.run (((fun e => MQ.Put e.1 e.2) <$> puts) ++ repeat MQ.Get 6)
                      MQ.init
  = ["a1"; "b1"; "a2"; "b2"; "a3"; "b3"].
Proof.
  intros puts.
  destruct (scenario_B puts MQ.init) as [_ Hr].
  - reflexivity.
  - repeat constructor.
  - reflexivity.
  - exact Hr.
Defined.

Lemma MQ_wf_empty {M : Type} : MQ.wf (MQ.init (M:=M)).
Proof. by apply wf_empty. Qed.

(** ** The driver at work *)
Section Sys_facts.
Import Py ZMessage Driver Sys.
Variable max_retries : nat.
Variable LowestPriority : MQ.priority.

Abbreviation step := (Sys.step max_retries LowestPriority).
Abbreviation exec := (Sys.exec max_retries LowestPriority).

Lemma NextAction_resolves ts frame i a c i' res :
  NextActionForReceivedMessage max_retries ts frame i = (a, c, i', res) ->
  resolves i i' res.
Proof.
  unfold NextActionForReceivedMessage, resolves. intros H.
  repeat case_match; simplify_eq; simpl; auto.
Qed.

Lemma Timeout_resolves i i' res : Timeout i = (i', res) -> resolves i i' res.
Proof.
  unfold Timeout, resolves. intros H. repeat case_match; simplify_eq; simpl; auto.
Qed.

Lemma current_complete res s : current (complete res s) = current s.
Proof.
  unfold complete. destruct res as [[m o]|]; [|done].
  by destruct (callback m).
Qed.

Lemma rx_complete res s : rx (complete res s) = rx s.
Proof.
  unfold complete. destruct res as [[m o]|]; [|done].
  by destruct (callback m).
Qed.

Lemma verdict_complete res s i :
  resolves (_inflight (drv s)) i res ->
  forall s0, view s0 = view s -> _inflight (drv s0) = i ->
    completed s0 = completed s -> wq_lock s0 = wq_lock s ->
    term_lock s0 = term_lock s -> _terminate (drv s0) = _terminate (drv s) ->
    _raw_history (drv s) `prefix_of` _raw_history (drv s0) ->
    verdict res s (complete res s0).
Proof.
  intros Hres s0 Hv Hi Hc Hw Ht Hf Hr. unfold verdict, complete.
  destruct res as [[m o]|]; simpl.
  - destruct (callback m) eqn:Hcb; simpl; rewrite ?Hc, ?Hw, ?Ht, ?Hf, ?Hi;
      repeat split; try done; try apply Hres.
  - rewrite app_nil_r. by rewrite Hi.
Qed.

Lemma verdict_none s s' :
  view s' = view s -> _inflight (drv s') = _inflight (drv s) ->
  completed s' = completed s -> wq_lock s' = wq_lock s ->
  term_lock s' = term_lock s -> _terminate (drv s') = _terminate (drv s) ->
  _raw_history (drv s) `prefix_of` _raw_history (drv s') ->
  verdict None s s'.
Proof.
  intros Hv Hi Hc Hw Ht Hf Hr. unfold verdict. simpl.
  by rewrite Hi, Hc, app_nil_r.
Qed.

Ltac solve_prefix :=
  simpl; first [done | reflexivity | by eexists | by apply prefix_app_r].

Ltac solve_verdict_none := apply verdict_none; solve_prefix.

Lemma rx_step_verdict r ts s s' :
  Sys.rx_step max_retries r ts s = Some s' -> exists res, verdict res s s'.
Proof.
  intros H. unfold rx_step in H.
  destruct (rx s) as [d|d [l|l|l a ts0 m]| | | |e] eqn:Hrx.
  2: { injection H as <-. exists None. solve_verdict_none. }
  2: { destruct (rx_receive _ r ts l) as [[l'|l' m]|e].
       - injection H as <-. exists None. solve_verdict_none.
       - destruct (NextActionForReceivedMessage _ _ _ _) as [[[a c] i] res] eqn:Hn.
         injection H as <-. exists res.
         apply verdict_complete with (i := i); try done.
         + by eapply NextAction_resolves.
         + solve_prefix.
       - injection H as <-. exists None. solve_verdict_none. }
  2: { destruct (rx_dispatch a ts0 m ts (drv s)) as [d'|e] eqn:Hd.
       - injection H as <-. exists None. unfold rx_dispatch in Hd.
         destruct a; [| |destruct (GetMessage _)|]; simplify_eq;
           solve_verdict_none.
       - injection H as <-. exists None. solve_verdict_none. }
  all: unfold sup_step, barrier_arrive in H; repeat case_match; simplify_eq;
    exists None; solve_verdict_none.
Qed.

Lemma tx_timeout_verdict ts s s' :
  tx_timeout ts s = Some s' ->
  exists res, verdict res s s' /\ exists d, tx s = Run d TxWait.
Proof.
  unfold tx_timeout. intros H.
  destruct (tx s) as [|d []| | | |] eqn:Htx; try done.
  destruct (Timeout _) as [i [r|]] eqn:Ht; [|done].
  replace s' with (complete (Some r) (set_drv (set_inflight i (drv s)) s))
    by congruence.
  exists (Some r). split; [|eauto].
  apply verdict_complete with (i := i); try done. by eapply Timeout_resolves.
Qed.

Lemma fw_step_verdict s s' : fw_step s = Some s' -> verdict None s s'.
Proof.
  unfold fw_step, sup_step, barrier_arrive. intros H.
  repeat case_match; simplify_eq; solve_verdict_none.
Qed.

Lemma rx_raise_verdict ts s s' : rx_raise ts s = Some s' -> verdict None s s'.
Proof.
  unfold rx_raise. intros H.
  repeat case_match; simplify_eq; solve_verdict_none.
Qed.

Lemma fw_raise_verdict e s s' : fw_raise e s = Some s' -> verdict None s s'.
Proof.
  unfold fw_raise. intros H.
  repeat case_match; simplify_eq; solve_verdict_none.
Qed.

Lemma exec_app ls1 ls2 s s' :
  exec (ls1 ++ ls2) s = Some s' <->
  exists s1, exec ls1 s = Some s1 /\ exec ls2 s1 = Some s'.
Proof.
  revert s. induction ls1 as [|l ls1 IH]; simpl; intros s.
  - split; [eauto|]. by intros (s1 & [= <-] & H).
  - destruct (step l s) as [s0|]; [apply IH|].
    split; [done|]. by intros (s1 & ? & _).
Qed.

(** *** One message at a time *)

Lemma Inv1_init : Inv1 Sys.init.
Proof. split; done. Qed.

Lemma Inv1_same s s' :
  tx s' = tx s -> current s' = current s -> started s' = started s ->
  completed s' = completed s -> _raw_history (drv s') = _raw_history (drv s) ->
  Inv1 s -> Inv1 s'.
Proof.
  intros Htx Hc Hst Hcomp Hr [A B R].
  split; unfold tx_holds, started_inv, sent_or_pending in *;
    rewrite ?Htx, ?Hc, ?Hst, ?Hcomp, ?Hr; done.
Qed.

Lemma Inv1_verdict res s s' : verdict res s s' -> Inv1 s -> Inv1 s'.
Proof.
  intros (Hv & Hres & Hcomp & _ & _ & _ & Hr) [A B R].
  unfold view in Hv. injection Hv as Htx _ _ Hst _ _.
  destruct res as [[m o]|]; simpl in *.
  - destruct Hres as [Hc Hc'].
    split; unfold tx_holds, started_inv, sent_or_pending, current, GetMessage in *;
      rewrite ?Htx, ?Hst, ?Hc', ?Hcomp.
    + repeat case_match; auto.
    + rewrite B, Hc, fmap_app. simpl. by rewrite app_nil_r.
    + done.
  - split; unfold tx_holds, started_inv, sent_or_pending, current, GetMessage in *;
      rewrite ?Htx, ?Hst, ?Hres, ?Hcomp, ?app_nil_r; try done.
    intros m Hc. destruct (R m Hc) as [[ts Hin]|Hp]; [left|by right].
    exists ts. destruct Hr as [k ->]. apply elem_of_app. by left.
Qed.

Lemma Inv1_tx ts s s' : tx_step ts s = Some s' -> Inv1 s -> Inv1 s'.
Proof.
  unfold tx_step. intros H [A B R].
  unfold tx_holds, started_inv, sent_or_pending, current, GetMessage in *.
  destruct (tx s) as [d|d [| |m|m|m|]| | | |e] eqn:Htx.
  (* StartMessage *)
  4: { unfold StartMessage in H.
       destruct (_message (_inflight (drv s))) as [m0|] eqn:Hc;
         injection H as <-;
         split; unfold tx_holds, started_inv, sent_or_pending, current, GetMessage;
         simpl; rewrite ?Hc; auto.
       - intros m1 Hm1. destruct (R m1 Hm1) as [?|[d0 [?|?]]];
           [by left|congruence..].
       - rewrite B. simpl. by rewrite app_nil_r.
       - intros m1 [= <-]. right. eauto. }
  (* _RecordInflight *)
  4: { injection H as <-.
       split; unfold tx_holds, started_inv, sent_or_pending, current, GetMessage;
         simpl; auto.
       intros m1 Hm1. destruct (R m1 Hm1) as [?|[d0 [?|?]]]; [by left|..];
         simplify_eq. right. eauto. }
  (* _SendRaw *)
  4: { injection H as <-.
       split; unfold tx_holds, started_inv, sent_or_pending, current, GetMessage;
         simpl; auto.
       intros m1 Hm1. left.
       destruct (R m1 Hm1) as [[ts1 Hin]|[d0 [?|?]]]; simplify_eq.
       - exists ts1. apply elem_of_app. by left.
       - exists ts. apply elem_of_app. right. by apply list_elem_of_singleton. }
  all: unfold sup_step, barrier_arrive, fn_end, supervise in H;
    repeat case_match; simplify_eq;
    split; unfold tx_holds, started_inv, sent_or_pending, current, GetMessage;
    simpl; auto; try done.
  all: try (intros m1 Hm1; (destruct (R m1 Hm1) as [?|[d0 [?|?]]]; [by left|..]);
            congruence).
  all: match goal with E : _message _ = None |- _ => rewrite E end;
    first [done|congruence].
Qed.

Lemma Inv1_tx_raise ts s s' : tx_raise ts s = Some s' -> Inv1 s -> Inv1 s'.
Proof.
  unfold tx_raise. intros H [A B R].
  unfold tx_holds, started_inv, sent_or_pending, current, GetMessage in *.
  destruct (tx s) as [d|d [| |m|m|m|]| | | |e] eqn:Htx; try done.
  injection H as <-.
  split; unfold tx_holds, started_inv, sent_or_pending, current, GetMessage;
    simpl; auto.
  intros m1 Hm1. left.
  destruct (R m1 Hm1) as [[ts1 Hin]|[d0 [?|?]]]; simplify_eq.
  - exists ts1. apply elem_of_app. by left.
  - exists ts. apply elem_of_app. right. by apply list_elem_of_singleton.
Qed.

Lemma Inv1_step l s s' : step l s = Some s' -> Inv1 s -> Inv1 s'.
Proof.
  destruct l as [m| |id|ts id|ts|ts|r ts| |ts|ts|e]; simpl; intros H HI.
  - unfold submit in H. case_match; [|done]. injection H as <-.
    eapply Inv1_same; [..|exact HI]; done.
  - injection H as <-. eapply Inv1_same; [..|exact HI]; done.
  - unfold wq_step in H. repeat case_match; simplify_eq;
      (eapply Inv1_same; [..|exact HI]); done.
  - unfold term_step, barrier_arrive in H. repeat case_match; simplify_eq;
      (eapply Inv1_same; [..|exact HI]); done.
  - by eapply Inv1_tx.
  - apply tx_timeout_verdict in H as (res & Hv & _). by eapply Inv1_verdict.
  - apply rx_step_verdict in H as (res & Hv). by eapply Inv1_verdict.
  - apply fw_step_verdict in H. by eapply Inv1_verdict.
  - by eapply Inv1_tx_raise.
  - apply rx_raise_verdict in H. by eapply Inv1_verdict.
  - apply fw_raise_verdict in H. by eapply Inv1_verdict.
Qed.

Lemma Inv1_exec ls s s' : exec ls s = Some s' -> Inv1 s -> Inv1 s'.
Proof.
  revert s. induction ls as [|l ls IH]; simpl; intros s H HI.
  - by injection H as <-.
  - destruct (step l s) as [s1|] eqn:Hs; [|done].
    eapply IH; eauto. by eapply Inv1_step.
Qed.

(** As long as no write fails on the transmit thread, that thread
    finds the in-flight record idle wherever it is outside lines 335 to
    337. *)
Lemma discipline_verdict res s s' :
  verdict res s s' -> tx_discipline s -> tx_discipline s'.
Proof.
  intros (Hv & Hres & _) A. unfold view in Hv. injection Hv as Htx _ _ _ _ _.
  unfold tx_discipline, current, GetMessage in *. rewrite Htx.
  destruct res as [[m o]|]; simpl in Hres.
  - destruct Hres as [_ ->]. repeat case_match; auto.
  - by rewrite Hres.
Qed.

Lemma discipline_step l s s' :
  step l s = Some s' -> tx_writes_ok l -> tx_discipline s -> tx_discipline s'.
Proof.
  destruct l as [m| |id|ts id|ts|ts|r ts| |ts|ts|e]; simpl; intros H Hl A.
  - unfold submit in H. case_match; [|done]. by injection H as <-.
  - by injection H as <-.
  - unfold wq_step in H. repeat case_match; by simplify_eq.
  - unfold term_step, barrier_arrive in H. repeat case_match; by simplify_eq.
  - unfold tx_step, sup_step, barrier_arrive, fn_end, supervise, StartMessage in H.
    unfold tx_discipline, current, GetMessage in *.
    repeat case_match; simplify_eq; simpl in *; auto;
      first [congruence | right; congruence | left; congruence].
  - apply tx_timeout_verdict in H as (res & Hv & _). by eapply discipline_verdict.
  - apply rx_step_verdict in H as (res & Hv). by eapply discipline_verdict.
  - apply fw_step_verdict in H. by eapply discipline_verdict.
  - done.
  - apply rx_raise_verdict in H. by eapply discipline_verdict.
  - apply fw_raise_verdict in H. by eapply discipline_verdict.
Qed.

Lemma discipline_exec ls s s' :
  exec ls s = Some s' -> Forall tx_writes_ok ls ->
  tx_discipline s -> tx_discipline s'.
Proof.
  revert s. induction ls as [|l ls IH]; simpl; intros s H Hl A.
  - by injection H as <-.
  - destruct (step l s) as [s1|] eqn:Hs; [|done].
    apply Forall_cons in Hl as [Hl Hls].
    eapply IH; eauto. by eapply discipline_step.
Qed.

(** C1 (amended): in every reachable configuration, device faults
    included, at most one started message is unresolved.  As long as no
    write to the device has failed on the transmit thread, the record
    is idle whenever the transmit loop is about to take the next
    message from the queue (line 333): the wait for the previous message
    has returned. *)
Theorem single_outstanding (ls : list label) (s : config) :
  exec ls Sys.init = Some s ->
  (active_count s <= 1)%nat /\
  (length (completed s) <= length (started s))%nat /\
  (Forall tx_writes_ok ls ->
   forall d, tx s = Run d TxGet -> active_count s = 0%nat /\ current s = None).
Proof.
  intros H. destruct (Inv1_exec _ _ _ H Inv1_init) as [_ B _].
  unfold active_count. rewrite B, length_app, length_fmap.
  split; [|split].
  - destruct (current s); simpl; lia.
  - lia.
  - intros Hok d Htx.
    assert (tx_discipline s) as A by by eapply discipline_exec.
    unfold tx_discipline in A. rewrite Htx in A.
    rewrite A. simpl. split; [lia|done].
Qed.

(** The steps of the other threads leave a message in the in-flight
    record alone, as long as the deadline does not expire. *)
Lemma current_stable l s s' m :
  step l s = Some s' -> no_deadline l -> current s = Some m ->
  current s' = Some m /\ rx s' = rx s.
Proof.
  unfold current, GetMessage.
  destruct l as [x| |id|ts id|ts|ts|r ts| |ts|ts|e]; simpl; intros H Hq Hc;
    try done.
  - unfold submit in H. case_match; [|done]. by injection H as <-.
  - by injection H as <-.
  - unfold wq_step in H. repeat case_match; by simplify_eq.
  - unfold term_step, barrier_arrive in H. repeat case_match; by simplify_eq.
  - unfold tx_step, sup_step, barrier_arrive, StartMessage in H.
    rewrite ?Hc in H. repeat case_match; by simplify_eq.
  - unfold fw_step, sup_step, barrier_arrive in H.
    repeat case_match; by simplify_eq.
  - unfold tx_raise in H. repeat case_match; by simplify_eq.
  - unfold fw_raise in H. repeat case_match; by simplify_eq.
Qed.

Lemma current_stable_exec ls s s' m :
  exec ls s = Some s' -> Forall no_deadline ls -> current s = Some m ->
  current s' = Some m /\ rx s' = rx s.
Proof.
  revert s. induction ls as [|l ls IH]; simpl; intros s H Hq Hc.
  - by injection H as <-.
  - destruct (step l s) as [s1|] eqn:Hs; [|done].
    apply Forall_cons in Hq as [Hl Hq].
    destruct (current_stable _ _ _ _ Hs Hl Hc) as [Hc1 Hr1].
    destruct (IH _ H Hq Hc1) as [Hc2 Hr2]. split; congruence.
Qed.

(** An idle record stays idle until the transmit loop starts a
    message. *)
Lemma idle_stable l s s' :
  step l s = Some s' -> no_start l -> current s = None ->
  current s' = None /\ rx s' = rx s.
Proof.
  unfold current, GetMessage.
  destruct l as [x| |id|ts id|ts|ts|r ts| |ts|ts|e]; simpl; intros H Hq Hc;
    try done.
  - unfold submit in H. case_match; [|done]. by injection H as <-.
  - by injection H as <-.
  - unfold wq_step in H. repeat case_match; by simplify_eq.
  - unfold term_step, barrier_arrive in H. repeat case_match; by simplify_eq.
  - unfold tx_timeout, Timeout in H. rewrite ?Hc in H.
    repeat case_match; by simplify_eq.
  - unfold fw_step, sup_step, barrier_arrive in H.
    repeat case_match; by simplify_eq.
  - unfold tx_raise in H. repeat case_match; by simplify_eq.
  - unfold fw_raise in H. repeat case_match; by simplify_eq.
Qed.

Lemma idle_stable_exec ls s s' :
  exec ls s = Some s' -> Forall no_start ls -> current s = None ->
  current s' = None /\ rx s' = rx s.
Proof.
  revert s. induction ls as [|l ls IH]; simpl; intros s H Hq Hc.
  - by injection H as <-.
  - destruct (step l s) as [s1|] eqn:Hs; [|done].
    apply Forall_cons in Hq as [Hl Hq].
    destruct (idle_stable _ _ _ Hs Hl Hc) as [Hc1 Hr1].
    destruct (IH _ H Hq Hc1) as [Hc2 Hr2]. split; congruence.
Qed.

(** The deadline of [WaitForMessageCompletion] empties the record. *)
Lemma timeout_idle ts s s' :
  tx_timeout ts s = Some s' -> current s' = None /\ rx s' = rx s.
Proof.
  unfold tx_timeout, Timeout. intros H.
  repeat case_match; simplify_eq.
  rewrite current_complete, rx_complete. done.
Qed.

(** A retry verdict is the answer to a negative acknowledge or a
    collision byte, on a record that holds a message. *)
Lemma retry_verdict s s1 r ts d l0 d' l ts1 frame :
  rx s = Run d (RxRead l0) ->
  step (LRx r ts) s = Some s1 ->
  rx s1 = Run d' (RxAct l DO_RETRY ts1 frame) ->
  exists m, current s1 = Some m /\ (frame = [NAK] \/ frame = [CAN]).
Proof.
  intros Hrx Hs Hrx1.
  simpl in Hs. unfold rx_step in Hs. rewrite Hrx in Hs.
  destruct (rx_receive _ r ts l0) as [[l'|l' fr]|e].
  - exfalso. injection Hs as <-. simpl in Hrx1. done.
  - destruct (NextActionForReceivedMessage _ _ _ _) as [[[a c] i] res] eqn:Hn.
    replace s1 with
      (complete res
         (set_rx (Run d (RxAct l' a ts fr))
            (set_drv (_LogReceived ts fr c (set_inflight i (drv s))) s)))
      in * by congruence.
    rewrite current_complete. rewrite rx_complete in Hrx1. simpl in Hrx1.
    assert (a = DO_RETRY) as -> by congruence.
    assert (fr = frame) as -> by congruence.
    unfold current, GetMessage. simpl.
    unfold NextActionForReceivedMessage in Hn.
    repeat case_match; simplify_eq; simpl;
      repeat match goal with
             | E : Byte.eqb _ _ = true |- _ => apply Byte.byte_dec_bl in E; subst
             | E : _ || _ = true |- _ => apply orb_true_iff in E as [E|E]
             end; try done; eauto.
  - exfalso. injection Hs as <-. unfold fn_end, supervise in Hrx1.
    simpl in Hrx1. destruct (is_Exception e); simpl in Hrx1; done.
Qed.

(** What the retry branch does (line 383). *)
Lemma retry_dispatch s d l ts1 frame r now :
  rx s = Run d (RxAct l DO_RETRY ts1 frame) ->
  match current s with
  | Some m =>
    exists s', step (LRx r now) s = Some s' /\ rx s' = Run d (RxLoop l) /\
      _device (drv s') = _device (drv s) ++ [payload m] /\
      _raw_history (drv s') =
        _raw_history (drv s) ++ [(now, true, payload m, "re-try"%string)]
  | None =>
    rx_dispatch DO_RETRY ts1 frame now (drv s) = Raise AttributeError /\
    exists s', step (LRx r now) s = Some s' /\ rx s' = Sup (next_delay d) /\
      drv s' = drv s
  end.
Proof.
  intros Hrx. simpl. unfold rx_step, rx_dispatch, current. rewrite Hrx.
  destruct (GetMessage _) as [m|]; [by eexists|].
  split; [done|]. by eexists.
Qed.

(** C8 (amended): when the in-flight record directs a retry, which it
    does in response to a negative acknowledge or a collision byte, and
    the deadline of [WaitForMessageCompletion] does not expire before
    the receive loop acts on the verdict, the receive loop logs and
    writes exactly the payload of the message the verdict was about.
    These are the bytes of the transmission by the transmit loop: that
    one is in the raw history with the same payload, or the transmit
    loop is between [StartMessage] and its [_SendRaw] of this very
    payload. *)
Theorem retry_resends_payload (ls ls' : list label) (s s1 s2 : config)
    (r : bytes) (ts : Q) d l0 d' l ts1 frame :
  exec ls Sys.init = Some s ->
  rx s = Run d (RxRead l0) ->
  step (LRx r ts) s = Some s1 ->
  rx s1 = Run d' (RxAct l DO_RETRY ts1 frame) ->
  Forall no_deadline ls' ->
  exec ls' s1 = Some s2 ->
  exists m,
    (frame = [NAK] \/ frame = [CAN]) /\
    current s1 = Some m /\
    (forall r' now, exists s3,
       step (LRx r' now) s2 = Some s3 /\ rx s3 = Run d' (RxLoop l) /\
       _device (drv s3) = _device (drv s2) ++ [payload m] /\
       _raw_history (drv s3) =
         _raw_history (drv s2) ++ [(now, true, payload m, "re-try"%string)]) /\
    ((exists ts0, (ts0, true, payload m, ""%string) ∈ _raw_history (drv s2)) \/
     (exists d0, tx s2 = Run d0 (TxRecord m) \/ tx s2 = Run d0 (TxSend m))).
Proof.
  intros He Hrx Hs Hrx1 Hq He'.
  destruct (retry_verdict _ _ _ _ _ _ _ _ _ _ Hrx Hs Hrx1) as (m & Hm & Hf).
  destruct (current_stable_exec _ _ _ _ He' Hq Hm) as [Hc2 Hr2].
  exists m. split; [done|]. split; [done|]. split.
  - intros r' now. rewrite Hrx1 in Hr2.
    pose proof (retry_dispatch s2 d' l ts1 frame r' now Hr2) as Hd.
    by rewrite Hc2 in Hd.
  - assert (Inv1 s2) as [_ _ R].
    { eapply Inv1_exec; [exact He'|]. eapply Inv1_step; [exact Hs|].
      eapply Inv1_exec; [exact He|]. apply Inv1_init. }
    by apply R.
Qed.


(** *** The invariant of the transmit side *)

(** [LowestPriority()] lies below the fairness-managed levels. *)
Hypothesis lowest_level : (3 < MQ.level LowestPriority)%Z.

Abbreviation Inv := (Sys.Inv LowestPriority).
Abbreviation lowest := (Sys.lowest LowestPriority).

Lemma Inv_init : Inv Sys.init.
Proof.
  split; try done.
  - by apply MQ_wf_empty.
  - constructor.
  - intros k m H. by apply elem_of_nil in H.
  - intros k1 m1 k2 m2 H. by apply elem_of_nil in H.
  - intros m b (i & j & _ & H & _). simpl in H. by rewrite lookup_nil in H.
  - by intros b [?|?].
  - intros m H. by apply elem_of_nil in H.
Qed.

Lemma Inv_core s s' : core s' = core s -> Inv s -> Inv s'.
Proof.
  unfold core. intros [= Htx Hq Hc Hsub Hst Hcomp Hwq Hwl] [].
  split; unfold tx_discipline, started_inv, queued, entries, in_hand, before in *;
    rewrite ?Htx, ?Hq, ?Hc, ?Hsub, ?Hst, ?Hcomp, ?Hwq, ?Hwl; done.
Qed.

Lemma in_hand_current s m :
  tx_discipline s -> current s = Some m ->
  in_hand s = [m] /\ forall s', tx s' = tx s -> current s' = None -> in_hand s' = [].
Proof.
  unfold tx_discipline, in_hand. intros Hd Hc.
  destruct (tx s) as [|d []| | | |] eqn:Htx; try congruence;
    (split; [by rewrite Hc|]); intros s' -> ->; done.
Qed.

Lemma Inv_verdict res s s' : verdict res s s' -> Inv s -> Inv s'.
Proof.
  intros (Hv & Hres & Hcomp & Hwl & _ & _ & _) HI.
  destruct res as [[m o]|]; simpl in *.
  2: { eapply Inv_core; [|exact HI]. unfold core, view, current, GetMessage in *.
       rewrite app_nil_r in Hcomp. simplify_eq. congruence. }
  destruct Hres as [Hc Hc']. unfold view in Hv.
  injection Hv as Htx Hq Hsub Hst Hwq _.
  destruct HI as [A B W N P L K1 K2 F J1 J2 J3 J0 J4].
  destruct (in_hand_current s m A Hc) as [Hh Hh'].
  specialize (Hh' s' Htx Hc').
  assert ((completed s').*1 = (completed s).*1 ++ [m]) as Hc1.
  { rewrite Hcomp, fmap_app. done. }
  split; unfold started_inv, queued, entries, before in *;
    rewrite ?Hq, ?Hsub, ?Hst, ?Hwq, ?Hh', ?Hc1; unfold current, GetMessage;
    rewrite ?Hc'; simpl; try done.
  - unfold tx_discipline, current, GetMessage. rewrite Htx, Hc'.
    repeat case_match; auto.
  - rewrite B. unfold current, GetMessage. rewrite Hc. simpl.
    by rewrite app_nil_r.
  - rewrite P, Hh. unfold queued, entries. simpl.
    apply Permutation_app_head. apply Permutation_cons_append.
  - intros m0 b Hb Hl [Hin|Hin]; [by apply elem_of_nil in Hin|].
    apply elem_of_app. left. apply elem_of_app in Hin as [Hin|Hin].
    + eapply F; eauto.
    + apply list_elem_of_singleton in Hin as ->. eapply F; eauto.
      left. rewrite Hh. by apply list_elem_of_singleton.
  - intros b Hb. apply elem_of_app. left. by apply J2.
  - intros b Hb Hl. rewrite Hwl in Hl. case_decide as Hcb.
    + assert (wq s = WqSent m) as Hm.
      { apply J4; [|done]. apply elem_of_app. right. rewrite Hh.
        by apply list_elem_of_singleton. }
      rewrite Hm in Hb. injection Hb as ->. apply elem_of_app. right.
      by apply list_elem_of_singleton.
    + apply elem_of_app. left. by apply J3.
  - intros Hl. rewrite Hwl. case_decide as Hcb; [|by apply J0].
    assert (wq s = WqSent m) as Hm.
    { apply J4; [|done]. apply elem_of_app. right. rewrite Hh.
      by apply list_elem_of_singleton. }
    congruence.
  - intros m0 Hin Hcb. rewrite app_nil_r in Hin. apply J4; [|done].
    apply elem_of_app. by left.
Qed.

Lemma before_snoc s s' x m b :
  submitted s' = submitted s ++ [x] -> x ∉ submitted s ->
  before s' m b -> b <> x -> before s m b.
Proof.
  intros Hs Hx (i & j & Hij & Hi & Hj) Hb. rewrite Hs in Hi, Hj.
  apply lookup_app_Some in Hj as [Hj|[Hlen Hj]].
  - apply lookup_lt_Some in Hj as Hlt.
    rewrite lookup_app_l in Hi by lia. by exists i, j.
  - apply list_lookup_singleton_Some in Hj as [_ ->]. done.
Qed.

Lemma before_snoc_last s s' x b :
  submitted s' = submitted s ++ [x] -> x ∉ submitted s -> ~ before s' x b.
Proof.
  intros Hs Hx (i & j & Hij & Hi & Hj). rewrite Hs in Hi, Hj.
  apply lookup_app_Some in Hi as [Hi|[Hlen Hi]].
  - apply Hx. by eapply list_elem_of_lookup_2.
  - apply lookup_lt_Some in Hj. rewrite length_app in Hj. simpl in Hj.
    apply lookup_lt_Some in Hi. simpl in Hi. lia.
Qed.

Lemma before_mono s s' x m b :
  submitted s' = submitted s ++ [x] -> before s m b -> before s' m b.
Proof.
  intros Hs (i & j & Hij & Hi & Hj). exists i, j. rewrite Hs.
  split; [done|]. split; by apply lookup_app_l_Some.
Qed.

Lemma Inv_parts_in s m :
  Inv s -> m ∈ queued s ++ in_hand s ++ (completed s).*1 -> m ∈ submitted s.
Proof. intros HI Hin. by rewrite (inv_parts _ _ HI). Qed.

Lemma Inv_send x s s' :
  Inv s -> mid x ∉ mid <$> submitted s ->
  (MQ.level (priority x) <= MQ.level LowestPriority)%Z ->
  tx s' = tx s ->
  _out_queue (drv s') = MQ.put (priority x) x (_out_queue (drv s)) ->
  current s' = current s -> submitted s' = submitted s ++ [x] ->
  started s' = started s -> completed s' = completed s ->
  wq_lock s' = wq_lock s ->
  (callback x <> CbRelease /\ wq s' = wq s) \/
  (wq s = WqLocked /\ wq s' = WqSent x /\ priority x = LowestPriority) ->
  Inv s'.
Proof.
  intros HI Hfresh Hlev Htx Hq Hc Hsub Hst Hcomp Hwl Hwq.
  assert (x ∉ submitted s) as Hx.
  { intros Hin. apply Hfresh. by apply list_elem_of_fmap_2. }
  assert (x ∉ queued s ++ in_hand s ++ (completed s).*1) as Hx'.
  { intros Hin. by apply Hx, Inv_parts_in. }
  assert (in_hand s' = in_hand s) as Hh.
  { unfold in_hand. by rewrite Htx, Hc. }
  set (kx := MQ.put_key (priority x) (_out_queue (drv s))).
  assert (entries s' = MQ.pq_put (kx, x) (entries s)) as He.
  { unfold entries. rewrite Hq. apply put_q. }
  assert (queued s' ≡ₚ x :: queued s) as Hqd.
  { unfold queued. rewrite He, pq_put_perm. done. }
  destruct HI as [A B W N P L K1 K2 F J1 J2 J3 J0 J4].
  split.
  - unfold tx_discipline. by rewrite Htx, Hc.
  - unfold started_inv. by rewrite Hst, Hcomp, Hc.
  - rewrite Hq. by apply wf_put.
  - rewrite Hsub, fmap_app. apply NoDup_app. split; [done|].
    split; [|apply NoDup_singleton].
    intros n Hn Hn'. apply list_elem_of_singleton in Hn' as ->. done.
  - rewrite Hsub, Hqd, Hh, Hcomp, P. simpl.
    symmetry. apply Permutation_cons_append.
  - rewrite Hsub. apply Forall_app. split; [done|]. by apply Forall_singleton.
  - intros k m. rewrite He. intros [[= -> ->]|Hin]%elem_of_pq_put; [done|].
    by apply K1.
  - intros k1 m1 k2 m2. rewrite He.
    intros [[= -> ->]|Hin1]%elem_of_pq_put [[= -> ->]|Hin2]%elem_of_pq_put Hb Hl.
    + exfalso. by eapply before_snoc_last.
    + exfalso. by eapply before_snoc_last.
    + specialize (K1 _ _ Hin1).
      assert (MQ.level (priority m1) <= MQ.level LowestPriority)%Z as Hl1.
      { rewrite Forall_forall in L. apply L. rewrite P.
        apply elem_of_app. left. unfold queued.
        by apply (list_elem_of_fmap_2 snd) in Hin1. }
      destruct W as (_ & _ & _ & Wc).
      assert (k1 ∈ MQ.keys (_out_queue (drv s))) as Hk1.
      { by apply (list_elem_of_fmap_2 fst) in Hin1. }
      specialize (Wc _ Hk1).
      unfold Sys.lowest in Hl. unfold MQ.prio_lt. rewrite prio_ltb_spec.
      assert (MQ.level kx = MQ.level (priority x)) as Hkl by done.
      assert (MQ.count kx = MQ._counter (_out_queue (drv s))) as Hkc.
      { unfold kx, MQ.put_key, MQ.count. simpl.
        replace (MQ.level (priority x) =? 2)%Z with false by lia.
        replace (MQ.level (priority x) =? 3)%Z with false by lia.
        unfold MQ.reset_if_empty. by destruct (MQ.empty _). }
      lia.
    + eapply K2; eauto. eapply before_snoc; eauto.
      intros ->. apply Hx'. apply elem_of_app. left.
      by apply (list_elem_of_fmap_2 snd) in Hin2.
  - intros m b Hb Hl. rewrite Hh, Hcomp. intros Hin.
    eapply F; eauto. eapply before_snoc; eauto.
    intros ->. apply Hx'. apply elem_of_app. right. by apply elem_of_app.
  - intros b Hb. rewrite Hsub.
    destruct Hwq as [[_ Hwq]|(Hwq & Hwq' & Hp)].
    + rewrite Hwq in Hb. destruct (J1 b Hb) as [? ?]. split; [done|].
      apply elem_of_app. by left.
    + rewrite Hwq' in Hb. destruct Hb as [[= <-]|?]; [|done]. split; [done|].
      apply elem_of_app. right. by apply list_elem_of_singleton.
  - intros b Hb. rewrite Hcomp. apply J2.
    destruct Hwq as [[_ Hwq]|(Hwq & Hwq' & Hp)]; congruence.
  - intros b Hb Hl. rewrite Hcomp. rewrite Hwl in Hl.
    destruct Hwq as [[_ Hwq]|(Hwq & Hwq' & Hp)].
    + apply J3; congruence.
    + rewrite J0 in Hl; done.
  - intros Hb. rewrite Hwl. apply J0.
    destruct Hwq as [[_ Hwq]|(Hwq & Hwq' & Hp)]; congruence.
  - intros m Hin Hcb. rewrite Hh, Hqd in Hin.
    apply elem_of_cons in Hin as [->|Hin].
    + destruct Hwq as [[? _]|(_ & ? & _)]; done.
    + specialize (J4 _ Hin Hcb).
      destruct Hwq as [[_ Hwq]|(Hwq & Hwq' & Hp)]; congruence.
Qed.

Lemma Inv_parts_nodup s :
  Inv s -> NoDup (queued s ++ in_hand s ++ (completed s).*1).
Proof.
  intros HI. rewrite <-(inv_parts _ _ HI).
  eapply NoDup_fmap_1, (inv_nodup _ _ HI).
Qed.

Lemma Inv_wq_lock s :
  Inv s -> (wq s = WqIdle \/ exists b, wq s = WqReturned b) ->
  Inv (set_wq WqLocked (set_wq_lock true s)).
Proof.
  intros [A B W N P L K1 K2 F J1 J2 J3 J0 J4] Hwq.
  split; try done.
  - by intros b [?|?].
  - intros m Hin Hcb. specialize (J4 m Hin Hcb).
    destruct Hwq as [?|[b ?]]; congruence.
Qed.

Lemma Inv_wq_return s b :
  Inv s -> wq s = WqSent b -> wq_lock s = false ->
  Inv (set_wq (WqReturned b) (set_wq_lock true s)).
Proof.
  intros HI Hwq Hl. pose proof (Inv_parts_nodup s HI) as Hnd.
  destruct HI as [A B W N P L K1 K2 F J1 J2 J3 J0 J4].
  split; try done.
  - intros b' [?|[= <-]]; [done|]. apply J1. by left.
  - intros b' [= <-]. by apply J3.
  - intros m Hin Hcb. exfalso. specialize (J4 m Hin Hcb).
    rewrite Hwq in J4. injection J4 as ->.
    specialize (J3 _ Hwq Hl).
    rewrite app_assoc in Hnd. apply NoDup_app in Hnd as (_ & Hd & _).
    by eapply Hd.
Qed.

Lemma Inv_tx ts s s' : tx_step ts s = Some s' -> Inv s -> Inv s'.
Proof.
  unfold tx_step. intros H HI.
  destruct (tx s) as [d|d pc| | | |e] eqn:Htx.
  2: destruct pc as [| |m|m|m|].
  (* TxLoop *)
  2: { injection H as <-.
       destruct HI as [A B W N P L K1 K2 F J1 J2 J3 J0 J4].
       unfold tx_discipline, in_hand in *. rewrite Htx in *.
       split; unfold tx_discipline, in_hand, started_inv, queued, entries,
         before, current in *; simpl; try done;
         unfold fn_end; simpl; by destruct (_terminate (drv s)). }
  (* TxGet *)
  2: { destruct (MQ.get _) as [[m q]|] eqn:Hg; [|done]. injection H as <-.
       pose proof (Inv_parts_nodup s HI) as Hnd.
       destruct HI as [A B W N P L K1 K2 F J1 J2 J3 J0 J4].
       apply get_Some in Hg as Hg'. destruct Hg' as (k & Hq & _).
       assert (entries s = (k, m) :: MQ._q q) as He by done.
       assert (forall k0 m0, (k0, m0) ∈ MQ._q q -> MQ.prio_lt k k0) as Hhead.
       { intros k0 m0 Hin0. destruct W as (Hs & _). unfold MQ.keys in Hs.
         rewrite Hq in Hs. simpl in Hs. inversion Hs as [|? ? _ Hall]; subst.
         rewrite Forall_forall in Hall. apply Hall.
         by apply (list_elem_of_fmap_2 fst) in Hin0. }
       unfold tx_discipline, in_hand in *. rewrite Htx in *.
       split; unfold tx_discipline, in_hand, started_inv, queued, entries,
         before, current in *; simpl; rewrite ?He in *; simpl in *; try done.
       - by eapply wf_get.
       - rewrite P. by rewrite Permutation_middle.
       - intros k0 m0 Hin. apply K1. apply elem_of_cons. by right.
       - intros k1 m1 k2 m2 Hin1 Hin2. apply K2; apply elem_of_cons; by right.
       - intros m0 b Hb Hl [Hin|Hin]; [|by eapply F; eauto].
         apply list_elem_of_singleton in Hin as ->.
         destruct Hb as (i & j & Hij & Hi & Hj).
         assert (m0 ∈ submitted s) as Hm0 by by eapply list_elem_of_lookup_2.
         rewrite P in Hm0. apply elem_of_cons in Hm0 as [->|Hm0].
         { exfalso. apply NoDup_fmap_1 in N.
           pose proof (NoDup_lookup _ _ _ _ N Hi Hj). lia. }
         apply elem_of_app in Hm0 as [Hm0|Hm0]; [|done].
         exfalso. apply list_elem_of_fmap in Hm0 as ([k0 m0'] & -> & Hin0).
         simpl in *.
         assert (MQ.prio_lt k0 k) as Hlt.
         { eapply K2; [apply elem_of_cons; by right|apply elem_of_cons; by left| |done].
           by exists i, j. }
         eapply prio_lt_asym; [exact Hlt|]. by eapply Hhead.
       - intros m0 Hin Hcb. apply J4; [|done]. rewrite app_nil_r.
         apply elem_of_app in Hin as [Hin|Hin].
         + apply elem_of_cons. by right.
         + apply list_elem_of_singleton in Hin as ->. apply elem_of_cons. by left. }
  (* TxStart *)
  2: { assert (current s = None) as Hc.
       { pose proof (inv_tx _ _ HI) as A. unfold tx_discipline in A.
         by rewrite Htx in A. }
       unfold StartMessage in H. unfold current, GetMessage in Hc.
       rewrite Hc in H. injection H as <-.
       destruct HI as [A B W N P L K1 K2 F J1 J2 J3 J0 J4].
       unfold tx_discipline, in_hand in *. rewrite Htx in *.
       split; unfold tx_discipline, in_hand, started_inv, queued, entries,
         before, current, GetMessage in *; simpl; try done.
       - by right.
       - rewrite B, Hc. simpl. by rewrite app_nil_r. }
  (* TxRecord, TxSend *)
  2,3: injection H as <-;
       destruct HI as [A B W N P L K1 K2 F J1 J2 J3 J0 J4];
       unfold tx_discipline, in_hand in *; rewrite Htx in *;
       split; unfold tx_discipline, in_hand, started_inv, queued, entries,
         before, current, GetMessage in *; simpl; done.
  (* TxWait *)
  2: { destruct (GetMessage _) eqn:Hc; [done|]. injection H as <-.
       destruct HI as [A B W N P L K1 K2 F J1 J2 J3 J0 J4].
       unfold tx_discipline, in_hand in *. rewrite Htx in *.
       split; unfold tx_discipline, in_hand, started_inv, queued, entries,
         before, current in *; simpl; rewrite ?Hc in *; done. }
  (* outside fn() *)
  all: unfold sup_step, barrier_arrive in H; repeat case_match; simplify_eq;
       destruct HI as [A B W N P L K1 K2 F J1 J2 J3 J0 J4];
       unfold tx_discipline, in_hand in *; rewrite Htx in *;
       split; unfold tx_discipline, in_hand, started_inv, queued, entries,
         before, current, GetMessage in *; simpl; done.
Qed.

Abbreviation within_levels := (Sys.within_levels LowestPriority).

Lemma Inv_step l s s' :
  step l s = Some s' -> within_levels l -> tx_writes_ok l -> Inv s -> Inv s'.
Proof.
  destruct l as [m| |id|ts id|ts|ts|r ts| |ts|ts|e]; simpl; intros H Hl Hok HI.
  - unfold submit in H. destruct (fresh _ _) eqn:Hf; [|done].
    simpl in H. case_bool_decide as Hcb; [|done]. injection H as <-.
    unfold fresh in Hf. apply bool_decide_eq_true in Hf.
    eapply Inv_send; eauto; try done. left. split; [|done]. by rewrite Hcb.
  - injection H as <-. eapply Inv_core; [|exact HI]. done.
  - unfold wq_step in H. destruct (wq s) as [| |b|b] eqn:Hwq.
    + injection H as <-. apply Inv_wq_lock; auto.
    + destruct (fresh _ _) eqn:Hf; [|done]. injection H as <-.
      unfold fresh in Hf. apply bool_decide_eq_true in Hf.
      eapply Inv_send; eauto; try done.
    + destruct (wq_lock s) eqn:Hlk; [done|]. injection H as <-.
      by apply Inv_wq_return.
    + injection H as <-. apply Inv_wq_lock; eauto.
  - unfold term_step in H. destruct (term s) eqn:Hterm.
    3: { destruct (fresh _ _) eqn:Hf; [|done]. injection H as <-.
         unfold fresh in Hf. apply bool_decide_eq_true in Hf.
         eapply Inv_send; eauto; try done. }
    all: unfold barrier_arrive in H; repeat case_match; simplify_eq;
      (eapply Inv_core; [|exact HI]); done.
  - by eapply Inv_tx.
  - apply tx_timeout_verdict in H as (res & Hv & _). by eapply Inv_verdict.
  - apply rx_step_verdict in H as (res & Hv). by eapply Inv_verdict.
  - apply fw_step_verdict in H. by eapply Inv_verdict.
  - done.
  - apply rx_raise_verdict in H. by eapply Inv_verdict.
  - apply fw_raise_verdict in H. by eapply Inv_verdict.
Qed.

Lemma Inv_exec ls s s' :
  exec ls s = Some s' -> Forall within_levels ls -> Forall tx_writes_ok ls ->
  Inv s -> Inv s'.
Proof.
  revert s. induction ls as [|l ls IH]; simpl; intros s H Hl Hok HI.
  - by injection H as <-.
  - destruct (step l s) as [s1|] eqn:Hs; [|done].
    apply Forall_cons in Hl as [Hl Hls]. apply Forall_cons in Hok as [Hok Hoks].
    eapply IH; eauto. by eapply Inv_step.
Qed.


(** *** Terminate *)

Ltac inv3_cases H :=
  unfold Sys.step, tx_raise, rx_raise, fw_raise, submit, wq_step, term_step,
    tx_step, tx_timeout, rx_step,
    fw_step, sup_step, fn_end, supervise, send_message, barrier_arrive,
    barrier_open, complete, Timeout, rx_dispatch in H;
  simpl in H; repeat (case_match; simpl in *); simplify_eq.

Lemma Inv3_init : Inv3 Sys.init.
Proof. split; done. Qed.

Lemma Inv3_step l s s' : step l s = Some s' -> Inv3 s -> Inv3 s'.
Proof.
  intros H [Hp Ha Ho Hf Hl].
  destruct s as [dr t r f tm w tl wl cp sb st].
  destruct dr as [dev oq rh hi te iq li [pa ar] inf].
  simpl in *.
  destruct l as [x| |id|ts id|ts|ts|rd ts| |ts|ts|e]; simpl in H.
  all: inv3_cases H; subst; split; unfold arrivals in *; simpl in *; intros;
    rewrite ?orb_true_r in *; simpl in *;
    repeat match goal with
           | E : (_ =? _)%nat = true |- _ => apply Nat.eqb_eq in E
           | E : (_ <=? _)%nat = true |- _ => apply Nat.leb_le in E
           end;
    first [done | by auto | lia
          | (specialize (Ho eq_refl); lia)
          | (repeat case_match; simpl in *; lia) ].
Qed.

(** C6: [Terminate] puts the shutdown marker into the inbound queue,
    submits a final message whose callback sets [_terminate], and waits
    at the barrier, which is sized for the child threads and the caller.
    Once it has returned the flag is set and each of the three child
    threads has left its loop and called [wait()] on the barrier. *)
Theorem terminate_quiesces (ls : list label) (s : config) :
  exec ls Sys.init = Some s ->
  term s = TermReturned ->
  parties (_termination_barrier (drv s)) = (length child_threads + 1)%nat /\
  _terminate (drv s) = true /\
  past_loop (tx s) = true /\ past_loop (rx s) = true /\
  past_loop (fw s) = true.
Proof.
  intros He Ht.
  assert (Inv3 s) as [Hp Ha Ho Hf Hl].
  { clear Ht. revert He. generalize Inv3_init. generalize Sys.init.
    induction ls as [|l ls IH]; simpl; intros s0 HI He.
    - by injection He as <-.
    - destruct (step l s0) as [s1|] eqn:Hs; [|done].
      eapply IH; [|exact He]. by eapply Inv3_step. }
  rewrite Ht in *. split; [done|]. split; [by apply Hf|].
  unfold arrivals in Ha. rewrite Ht in Ha. simpl in *.
  rewrite !orb_true_r in Ho. specialize (Ho eq_refl).
  destruct (past_loop (tx s)), (past_loop (rx s)), (past_loop (fw s));
    simpl in *; try done; lia.
Qed.

End Sys_facts.

(** ** Diagnostics *)
Section Stats_facts.
Import Py ZMessage Stats.
Local Open Scope Z_scope.

(** Every node that was counted was counted at least once. *)
Lemma loop_body_counts (a : locals) (m : Message) :
  map_Forall (fun _ v => 1 <= v) (by_node_cnt a) ->
  map_Forall (fun _ v => 1 <= v) (by_node_cnt (loop_body a m)).
Proof.
  intros Ha. unfold loop_body.
  destruct (0 <? can m); destruct (end_ m) as [e|];
    try destruct (truthy (Some e)); simpl;
    (apply map_Forall_insert_2; [|done]);
    (destruct (by_node_cnt a !! node m) as [v|] eqn:Hv; simpl; [|lia];
     specialize (Ha _ _ Hv); simpl in Ha; lia).
Qed.

Lemma foldl_counts (h : list Message) (a : locals) :
  map_Forall (fun _ v => 1 <= v) (by_node_cnt a) ->
  map_Forall (fun _ v => 1 <= v) (by_node_cnt (foldl loop_body a h)).
Proof.
  revert a. induction h as [|m h IH]; intros a Ha; simpl; [done|].
  by apply IH, loop_body_counts.
Qed.

Lemma node_lines_no_division (a : locals) (ns : list (option Z)) e :
  map_Forall (fun _ v => 1 <= v) (by_node_cnt a) ->
  Forall (fun n => is_Some (by_node_cnt a !! n)) ns ->
  node_lines a ns = Raise e -> e = TypeError.
Proof.
  intros Ha. induction ns as [|n ns IH]; simpl; intros Hns H; [done|].
  apply Forall_cons in Hns as [[v Hv] Hns].
  unfold node_line in H. destruct n as [z|]; [|by injection H].
  unfold floordiv, counter_get in H. rewrite Hv in H. simpl in H.
  specialize (Ha _ _ Hv). simpl in Ha.
  replace (v =? 0) with false in H by lia.
  destruct (node_lines a ns) as [ls|e'] eqn:Hl; [done|].
  injection H as <-. by apply IH.
Qed.

Lemma sorted_nodes_keys (c : gmap (option Z) Z) ns :
  sorted_nodes c = Ok ns -> Forall (fun n => is_Some (c !! n)) ns.
Proof.
  unfold sorted_nodes. intros H. apply Forall_forall. intros n Hn.
  assert (forall k, k ∈ (map_to_list c).*1 -> is_Some (c !! k)) as Hk.
  { intros k ([k' v] & -> & Hin)%list_elem_of_fmap.
    apply elem_of_map_to_list in Hin. by exists v. }
  destruct (omap id (map_to_list c).*1) as [|z zs] eqn:Ho.
  - injection H as <-. by apply Hk.
  - case_bool_decide; [done|]. injection H as <-.
    apply list_elem_of_fmap in Hn as (z' & -> & Hz).
    rewrite merge_sort_Permutation, <-Ho in Hz.
    apply list_elem_of_omap in Hz as (k & Hkin & Hid). simpl in Hid.
    subst k. by apply Hk.
Qed.

(** With a history that is not empty no division fails. *)
Lemma stats_division_only_on_empty (history : list Message) e :
  history <> [] -> MessageStatsString history = Raise e -> e = TypeError.
Proof.
  intros Hne. unfold MessageStatsString. simpl.
  unfold floordiv at 1.
  replace (Z.of_nat (length history) =? 0) with false
    by (destruct history; [done|simpl; lia]).
  set (a := foldl loop_body locals0 history).
  assert (map_Forall (fun _ v => 1 <= v) (by_node_cnt a)) as Ha.
  { apply foldl_counts. simpl. apply map_Forall_empty. }
  destruct (sorted_nodes (by_node_cnt a)) as [ns|e'] eqn:Hs.
  - destruct (node_lines a ns) as [ls|e'] eqn:Hl; [done|].
    intros [= <-]. apply (node_lines_no_division a ns); [done| |done].
    by apply sorted_nodes_keys.
  - intros [= <-]. unfold sorted_nodes in Hs.
    repeat case_match; by simplify_eq.
Qed.

(** C10: on the empty history [MessageStatsString] divides by the
    message count 0 and fails, and so does [Driver.__str__] as long as
    no message has been recorded, whatever the other attributes are. *)
Theorem stats_fail_on_empty_history :
  MessageStatsString [] = Raise ZeroDivisionError /\
  Driver.__str__ Driver.__init__ = Raise ZeroDivisionError /\
  forall d : Driver.Driver,
    Driver.__str__ (Driver.set_history [] d) = Raise ZeroDivisionError.
Proof. repeat split. Qed.

End Stats_facts.

(** ** A frame that never completes *)
Section Desync.
Import Py ZMessage Driver Sys.

(** C5 (amended): when a frame that began with the start marker is still
    incomplete and a further byte arrives more than 2 seconds after the
    arrival that opened the frame, the receive loop raises
    [AssertionError]; [_run_child_thread] catches it like any other
    [Exception], backs off and, unless termination was requested, calls
    the receive loop again, which starts from an empty buffer.  The test
    is made only when a byte has arrived: as long as [read(1)] returns
    nothing the loop goes on with its buffer unchanged and raises
    nothing, however much time has passed. *)
Theorem desync_raises_and_is_retried
    (extract : bytes -> option bytes) (r : bytes) (ts t0 delay : Q)
    (l : rx_locals) (d : Driver) :
  r <> [] ->
  head (buf l ++ r) = Some SOF ->
  falsy (extract (buf l ++ r)) = true ->
  last_sof_arrival l = Some t0 ->
  (2 < ts - t0)%Q ->
  _terminate d = false ->
  rx_receive extract r ts l = Raise AssertionError /\
  supervise (Raise AssertionError) delay = Retry (next_delay delay) /\
  fn_end (P := rx_pc) (Raise AssertionError) delay = Sup (next_delay delay) /\
  sup_step (RxLoop rx_locals0) (Sup (next_delay delay)) d
    = Some (Run (next_delay delay) (RxLoop rx_locals0), d) /\
  forall ts', rx_receive extract [] ts' l = Ok (RxContinue l).
Proof.
  intros Hr Hh Hf Hl Hlt Ht.
  split; [|split; [done|split; [done|split; [|done]]]].
  - unfold rx_receive. destruct r as [|b r]; [done|].
    destruct (buf l ++ b :: r) as [|m0 rest] eqn:Hb; [done|].
    simpl in Hh. injection Hh as ->. simpl.
    rewrite Hl, Hf.
    assert (Qle_bool (ts - t0) 2 = false) as ->; [|done].
    destruct (Qle_bool (ts - t0) 2) eqn:Hle; [|done].
    apply Qle_bool_iff in Hle. exfalso. eapply Qlt_not_le; eauto.
  - simpl. by rewrite Ht.
Qed.

End Desync.

Lemma desync_raises_and_is_retried_witness :
  Driver.rx_receive ZMessage.ExtracRawMessage [Byte.x05] 3
    {| Driver.buf := [ZMessage.SOF]; Driver.last_sof_arrival := Some 0%Q |}
  = Py.Raise Py.AssertionError /\
  Driver.rx_receive ZMessage.ExtracRawMessage [] 100
    {| Driver.buf := [ZMessage.SOF]; Driver.last_sof_arrival := Some 0%Q |}
  = Py.Ok (Driver.RxContinue
             {| Driver.buf := [ZMessage.SOF];
                Driver.last_sof_arrival := Some 0%Q |}).
Proof.
  destruct (desync_raises_and_is_retried ZMessage.ExtracRawMessage [Byte.x05]
              3 0 (1 # 2)
              {| Driver.buf := [ZMessage.SOF];
                 Driver.last_sof_arrival := Some 0%Q |} Driver.__init__)
    as (A & _ & _ & _ & B); try reflexivity; [discriminate|].
  split; [exact A|exact (B 100%Q)].
Defined.

(** C5 (as stated) fails: the assertion failure is an [Exception], so
    the supervision wrapper takes it for a recoverable fault.  A start
    marker arrives at time 0, the next byte at time 3; the receive loop
    raises [AssertionError], and the thread is back at the loop test of
    [_run_child_thread] with its delay doubled, not dead. *)
Lemma desync_is_absorbed :
  Driver.rx_receive ZMessage.ExtracRawMessage [Byte.x05] 3
    {| Driver.buf := [ZMessage.SOF]; Driver.last_sof_arrival := Some 0%Q |}
  = Py.Raise Py.AssertionError /\
  Driver.supervise (Py.Raise Py.AssertionError) (1 # 2) = Driver.Retry (2 # 2) /\
  Driver.supervise (Py.Raise Py.AssertionError) (1 # 2)
    <> Driver.Propagate Py.AssertionError /\
  exists s,
    Sys.exec Scenario.retries Scenario.lowest_priority Scenario.desync Sys.init
      = Some s /\
    Sys.rx s = Sys.Sup (2 # 2).
Proof.
  split; [reflexivity|]. split; [reflexivity|]. split; [discriminate|].
  eexists. split; [vm_compute; reflexivity|]. reflexivity.
Qed.

(** ** Witnesses and counterexamples on concrete schedules *)

Ltac run_schedule s Hs :=
  match goal with
  | |- context [Sys.exec ?r ?p ?ls ?i] =>
    destruct (Sys.exec r p ls i) as [s|] eqn:Hs;
    [|vm_compute in Hs; discriminate]
  end.

Ltac by_run Hs := vm_compute in Hs; injection Hs as <-; vm_compute; reflexivity.

Lemma single_outstanding_witness :
  exists s,
    Sys.exec Scenario.retries Scenario.lowest_priority Scenario.quiesce Sys.init
      = Some s /\
    (Sys.active_count s <= 1)%nat.
Proof.
  run_schedule s Hs. exists s. split; [done|].
  by apply (single_outstanding Scenario.retries Scenario.lowest_priority
              Scenario.quiesce s Hs).
Defined.

(** C1 (as stated) fails.  The write of the payload of [m1] raises;
    the supervision wrapper calls the transmit loop again, and the loop
    takes [m2] from the queue while [m1] is in the in-flight record,
    unresolved: [WaitForMessageCompletion] was never reached for it. *)
Lemma dequeue_while_in_flight :
  exists s,
    Sys.exec Scenario.retries Scenario.lowest_priority Scenario.next_taken
      Sys.init = Some s /\
    Sys.tx s = Sys.Run (Driver.backoff 1) (Sys.TxStart Scenario.m2) /\
    Sys.current s = Some Scenario.m1 /\
    Sys.started s = [Scenario.m1] /\ Sys.completed s = [].
Proof.
  run_schedule s Hs. exists s. split; [done|].
  vm_compute in Hs. injection Hs as <-. repeat split.
Qed.

Lemma retry_resends_payload_witness :
  exists s s1 s3,
    Sys.exec Scenario.retries Scenario.lowest_priority
      (Scenario.send_m1 ++ Scenario.rx_ready) Sys.init = Some s /\
    Sys.step Scenario.retries Scenario.lowest_priority
      (Sys.LRx [ZMessage.NAK] 2) s = Some s1 /\
    Sys.step Scenario.retries Scenario.lowest_priority (Sys.LRx [] 3) s1
      = Some s3 /\
    Driver._device (Sys.drv s3) =
      Driver._device (Sys.drv s1) ++ [Some [Byte.x01; Byte.x02]].
Proof.
  run_schedule s Hs.
  destruct (Sys.step Scenario.retries Scenario.lowest_priority
              (Sys.LRx [ZMessage.NAK] 2) s) as [s1|] eqn:H1;
    [|vm_compute in Hs; injection Hs as <-; vm_compute in H1; discriminate].
  destruct (retry_resends_payload Scenario.retries Scenario.lowest_priority
              (Scenario.send_m1 ++ Scenario.rx_ready) [] s s1 s1
              [ZMessage.NAK] 2 (1 # 2) Driver.rx_locals0 (1 # 2)
              Driver.rx_locals0 2 [ZMessage.NAK] Hs)
    as (m & _ & Hm & Hd & _).
  - by_run Hs.
  - exact H1.
  - vm_compute in Hs. injection Hs as <-. vm_compute in H1.
    injection H1 as <-. vm_compute. reflexivity.
  - constructor.
  - reflexivity.
  - destruct (Hd [] 3%Q) as (s3 & Hstep & _ & Hdev & _).
    exists s, s1, s3. split; [done|]. split; [done|]. split; [exact Hstep|].
    rewrite Hdev. f_equal. f_equal.
    assert (Some m = Some Scenario.m1) as [= ->]; [|reflexivity].
    rewrite <-Hm. vm_compute in Hs. injection Hs as <-.
    vm_compute in H1. injection H1 as <-. vm_compute. reflexivity.
Defined.

(** C8 (as stated) fails.  [m1] is sent and answered by a negative
    acknowledge; the in-flight record directs a retry.  Before the
    receive thread acts on it the deadline resolves [m1] and the
    transmit loop starts [m2].  The retry branch then writes the payload
    of [m2], which differs from that of [m1] and has not been
    transmitted before. *)
Lemma retry_sends_other_payload :
  exists s s',
    Sys.exec Scenario.retries Scenario.lowest_priority Scenario.other_started
      Sys.init = Some s /\
    Sys.rx s =
      Sys.Run (1 # 2)
        (Sys.RxAct Driver.rx_locals0 ZMessage.DO_RETRY 2 [ZMessage.NAK]) /\
    Sys.sent_log (Driver._raw_history (Sys.drv s))
      = [ZMessage.payload Scenario.m1] /\
    Sys.step Scenario.retries Scenario.lowest_priority (Sys.LRx [] 4) s
      = Some s' /\
    Driver._device (Sys.drv s') =
      Driver._device (Sys.drv s) ++ [ZMessage.payload Scenario.m2] /\
    ZMessage.payload Scenario.m2 <> ZMessage.payload Scenario.m1.
Proof.
  run_schedule s Hs.
  destruct (Sys.step Scenario.retries Scenario.lowest_priority
              (Sys.LRx [] 4) s) as [s'|] eqn:H1;
    [|vm_compute in Hs; injection Hs as <-; vm_compute in H1; discriminate].
  exists s, s'. split; [done|].
  vm_compute in Hs. injection Hs as <-. vm_compute in H1. injection H1 as <-.
  repeat split. discriminate.
Qed.





Lemma terminate_quiesces_witness :
  exists s,
    Sys.exec Scenario.retries Scenario.lowest_priority Scenario.shutdown Sys.init
      = Some s /\
    Sys.term s = Sys.TermReturned /\
    Sys.past_loop (Sys.tx s) = true /\ Sys.past_loop (Sys.rx s) = true /\
    Sys.past_loop (Sys.fw s) = true.
Proof.
  run_schedule s Hs. exists s. split; [done|].
  assert (Sys.term s = Sys.TermReturned) as Ht by by_run Hs.
  split; [done|].
  by apply (terminate_quiesces Scenario.retries Scenario.lowest_priority
              Scenario.shutdown s Hs Ht).
Defined.

(* ================================================================== *)
(** * Further properties of the code *)

(** ** The outbound queue: bookkeeping and order of service *)
Section MQ_more.
Import MQ.
Local Open Scope Z_scope.
Context {M : Type}.
Implicit Types (p q r : priority) (s : MessageQueueOut M).

Lemma node_count_cons n k ks :
  node_count n (k :: ks) = (if decide (node k = n) then 1 else 0) + node_count n ks.
Proof.
  unfold node_count. rewrite filter_cons.
  destruct (decide (node k = n)); simpl length; lia.
Qed.

Lemma node_count_perm n ks ks' : ks ≡ₚ ks' -> node_count n ks = node_count n ks'.
Proof. intros H. unfold node_count. by rewrite H. Qed.

Lemma put_per_node_size p (m : M) s :
  _per_node_size (put p m s) =
  <[node p := Py.getitem (_per_node_size s) (node p) + 1]> (_per_node_size s).
Proof.
  unfold put. destruct p as [[l c] n]. unfold node. simpl.
  assert (_per_node_size (reset_if_empty s) = _per_node_size s) as Hc.
  { unfold reset_if_empty. by destruct (empty s). }
  destruct (l =? 2); [|destruct (l =? 3)]; simpl; by rewrite Hc.
Qed.

Lemma keys_put p (m : M) s : keys (put p m s) ≡ₚ put_key p s :: keys s.
Proof. unfold keys. rewrite put_q, pq_put_perm. done. Qed.

Lemma acct_put p (m : M) s : acct s -> acct (put p m s).
Proof.
  intros H n. unfold qsize_for_node. rewrite put_per_node_size, getitem_insert.
  rewrite (node_count_perm _ _ _ (keys_put p m s)), node_count_cons.
  rewrite node_put_key. specialize (H n). unfold qsize_for_node in H.
  destruct (decide (node p = n)) as [->|]; lia.
Qed.

Lemma acct_get s (m : M) s' : acct s -> get s = Some (m, s') -> acct s'.
Proof.
  intros H Hg n. unfold get in Hg.
  destruct (_q s) as [|[p m0] rest] eqn:Hq; [done|]. injection Hg as <- <-.
  specialize (H n). unfold qsize_for_node, keys in *. rewrite Hq in H.
  simpl. rewrite fmap_cons, node_count_cons in H. simpl in H.
  rewrite getitem_insert.
  destruct (decide (node p = n)) as [->|]; lia.
Qed.

Lemma acct_exec ops s : acct s -> acct (exec ops s).
Proof.
  revert s. induction ops as [|[p m|] ops IH]; intros s H; simpl; [done|..].
  - by apply IH, acct_put.
  - destruct (get s) as [[m s']|] eqn:Hg; [|by apply IH].
    eapply IH, acct_get; eauto.
Qed.

Lemma acct_init_exec (ops : list (op M)) : acct (exec ops init).
Proof.
  apply acct_exec. intros n'. unfold qsize_for_node. simpl.
  by rewrite getitem_empty.
Qed.

(** X1: whatever sequence of [put]s and [get]s a client applies to a new
    queue, [qsize_for_node(n)] is the number of entries in the queue
    that are filed for node [n]. *)
Theorem per_node_size_counts_entries (ops : list (op M)) (n : Z) :
  qsize_for_node (exec ops init) n = node_count n (keys (exec ops init)).
Proof. apply acct_init_exec. Qed.

(** X2: the dictionary that [MessageQueueOut.__str__] prints has an
    entry for node [n] exactly when entries for [n] are queued, and the
    entry is their number. *)
Theorem str_lists_nodes_with_entries (ops : list (op M)) (n c : Z) :
  non_empty (exec ops init) !! n = Some c <->
  c = node_count n (keys (exec ops init)) /\ c <> 0.
Proof.
  unfold non_empty. rewrite map_lookup_filter_Some. simpl.
  pose proof (acct_init_exec ops n) as H.
  unfold qsize_for_node, Py.getitem in H.
  destruct (_per_node_size (exec ops init) !! n) as [c'|] eqn:E; simpl in H.
  - split; [intros [[= ->] ?]|intros [-> ?]]; split; congruence.
  - split; [intros [[=] ?]|intros [-> ?]]. congruence.
Qed.

Lemma run_least ops s : wf s -> Forall least_served (run ops s).
Proof.
  revert s. induction ops as [|[p m|] ops IH]; intros s Hwf; simpl.
  - constructor.
  - by apply IH, wf_put.
  - destruct (front s) as [p|] eqn:Hf; [|by apply IH].
    destruct (get s) as [[m s']|] eqn:Hg; [|by apply IH].
    constructor; [|eapply IH, wf_get; eauto].
    apply get_Some in Hg as (p' & Hq & Hf' & _). rewrite Hf in Hf'.
    injection Hf' as <-. destruct Hwf as [Hs _]. unfold keys in Hs.
    rewrite Hq in Hs. simpl in Hs. inversion Hs; subst.
    unfold least_served. simpl. done.
Qed.

(** X3: every [get] serves the entry with the least key: the key that
    is served lies strictly below, in the order of Python's tuples,
    every key that stays in the queue. *)
Theorem get_serves_least_key (ops : list (op M)) :
  Forall (fun e => Forall (prio_lt (s_key e)) (s_queued e)) (run ops init).
Proof. apply run_least, wf_empty. done. Qed.

Lemma put_key_in p (m : M) s : (put_key p s, m) ∈ _q (put p m s).
Proof. rewrite put_q. apply elem_of_pq_put. by left. Qed.

Lemma put_key_behind p s k :
  wf s -> k ∈ keys s -> level k = level p ->
  node k = node p \/ (level p <> 2 /\ level p <> 3) ->
  prio_lt k (put_key p s).
Proof.
  intros (Hs & Hhi & Hlo & Hc) Hk Hl Hcase.
  assert (_q s <> []) as Hne.
  { unfold keys in Hk. destruct (_q s); [by apply elem_of_nil in Hk|done]. }
  unfold prio_lt. rewrite prio_ltb_spec. right. split; [done|]. left.
  unfold put_key. rewrite (reset_if_empty_nonempty s Hne).
  unfold count at 2. simpl.
  destruct (level p =? 2) eqn:E2; [|destruct (level p =? 3) eqn:E3].
  - destruct Hcase as [Hn|[? _]]; [|lia].
    specialize (Hhi k Hk ltac:(lia)). rewrite Hn in Hhi. lia.
  - destruct Hcase as [Hn|[_ ?]]; [|lia].
    specialize (Hlo k Hk ltac:(lia)). rewrite Hn in Hlo. lia.
  - apply Hc; [done|lia..].
Qed.

(** X4: at a level other than 2 and 3 the queue is first in, first out,
    whatever the nodes and whatever count the caller passes: [put] files
    the message under a key that lies above the key of every queued
    entry of the same level. *)
Theorem fifo_within_unmanaged_level (ops : list (op M)) p (m : M) :
  level p <> 2 -> level p <> 3 ->
  let s := exec ops init in
  (put_key p s, m) ∈ _q (put p m s) /\
  forall k, k ∈ keys s -> level k = level p -> prio_lt k (put_key p s).
Proof.
  intros H2 H3 s. split; [apply put_key_in|]. intros k Hk Hl.
  apply put_key_behind; auto. apply wf_exec, wf_empty. done.
Qed.

(** X5: at every level the messages for one node are served in the
    order in which they were put: [put] files the message under a key
    that lies above the key of every queued entry of the same level and
    the same node. *)
Theorem fifo_per_node (ops : list (op M)) p (m : M) :
  let s := exec ops init in
  (put_key p s, m) ∈ _q (put p m s) /\
  forall k, k ∈ keys s -> level k = level p -> node k = node p ->
    prio_lt k (put_key p s).
Proof.
  intros s. split; [apply put_key_in|]. intros k Hk Hl Hn.
  apply put_key_behind; auto. apply wf_exec, wf_empty. done.
Qed.

Lemma run_conserves ops s :
  (s_msg <$> run ops s) ++ (_q (exec ops s)).*2 ≡ₚ (_q s).*2 ++ puts_of ops.
Proof.
  revert s. induction ops as [|[p m|] ops IH]; intros s; simpl.
  - by rewrite app_nil_r.
  - rewrite IH, put_q, pq_put_perm. simpl. unfold puts_of. simpl.
    by rewrite Permutation_middle.
  - unfold front, get. destruct (_q s) as [|[p m] rest] eqn:Hq; simpl.
    + rewrite IH, Hq. done.
    + rewrite IH. simpl. done.
Qed.

(** X6: the queue neither loses nor duplicates a message: after any
    sequence of operations on a new queue the messages that were served
    together with those still queued are, up to order, the messages
    that were put. *)
Theorem queue_conserves_messages (ops : list (op M)) :
  (s_msg <$> run ops init) ++ (_q (exec ops init)).*2 ≡ₚ puts_of ops.
Proof. by rewrite run_conserves. Qed.

End MQ_more.

(** At level 1 the entries for the nodes 5 and 7 are overtaken by
    nobody: a message for node 3 is filed behind both, under the value
    of the global counter. *)
Lemma fifo_within_unmanaged_level_witness :
  MQ.put_key (1, 0, 3)%Z
    (MQ.exec [MQ.Put (1, 0, 5)%Z 10%nat; MQ.Put (1, 9, 7)%Z 11%nat] MQ.init)
    = (1, 2, 3)%Z /\
  MQ.prio_lt (1, 1, 7)%Z
    (MQ.put_key (1, 0, 3)%Z
       (MQ.exec [MQ.Put (1, 0, 5)%Z 10%nat; MQ.Put (1, 9, 7)%Z 11%nat] MQ.init)).
Proof.
  split; [reflexivity|].
  apply (fifo_within_unmanaged_level
           [MQ.Put (1, 0, 5)%Z 10%nat; MQ.Put (1, 9, 7)%Z 11%nat]
           (1, 0, 3)%Z 12%nat); [by vm_compute..| |reflexivity].
  vm_compute. apply list_elem_of_further, list_elem_of_here.
Defined.

(** At level 3 a second message for node 5 is filed behind the first
    one. *)
Lemma fifo_per_node_witness :
  MQ.prio_lt (3, 1, 5)%Z
    (MQ.put_key (3, 0, 5)%Z
       (MQ.exec [MQ.Put (3, 0, 5)%Z 10%nat; MQ.Put (3, 0, 7)%Z 11%nat] MQ.init)).
Proof.
  apply (fifo_per_node
           [MQ.Put (3, 0, 5)%Z 10%nat; MQ.Put (3, 0, 7)%Z 11%nat]
           (3, 0, 5)%Z 12%nat); [|reflexivity..].
  vm_compute. apply list_elem_of_here.
Defined.

(** ** MessageStatsString and Driver.__str__ *)
Section Stats_more.
Import Py ZMessage Stats.
Local Open Scope Z_scope.

Lemma loop_body_nodes (a : locals) (m : Message) n :
  is_Some (by_node_cnt (loop_body a m) !! n) <->
  is_Some (by_node_cnt a !! n) \/ n = node m.
Proof.
  assert (by_node_cnt (loop_body a m) = incr (by_node_cnt a) (node m) 1) as ->.
  { unfold loop_body.
    destruct (0 <? can m); destruct (end_ m) as [e|];
      try destruct (truthy (Some e)); done. }
  unfold incr. destruct (decide (node m = n)) as [->|Hne].
  - rewrite lookup_insert_eq. split; [by right|by eexists].
  - rewrite lookup_insert_ne by done. split; [by left|].
    intros [?|?]; [done|congruence].
Qed.

Lemma foldl_nodes (h : list Message) (a : locals) n :
  is_Some (by_node_cnt (foldl loop_body a h) !! n) <->
  is_Some (by_node_cnt a !! n) \/ n ∈ node <$> h.
Proof.
  revert a. induction h as [|m h IH]; intros a; simpl.
  - rewrite elem_of_nil. tauto.
  - rewrite IH, loop_body_nodes, elem_of_cons. tauto.
Qed.

Lemma history_nodes (h : list Message) n :
  n ∈ (map_to_list (by_node_cnt (foldl loop_body locals0 h))).*1 <->
  n ∈ node <$> h.
Proof.
  rewrite list_elem_of_fmap. split.
  - intros ([k v] & -> & Hin). apply elem_of_map_to_list in Hin.
    assert (is_Some (by_node_cnt (foldl loop_body locals0 h) !! k)) as Hs
      by by exists v.
    apply foldl_nodes in Hs as [[? Hs]|]; [|done]. simpl in Hs.
    by rewrite lookup_empty in Hs.
  - intros Hn.
    assert (is_Some (by_node_cnt (foldl loop_body locals0 h) !! n)) as [v Hv]
      by (apply foldl_nodes; by right).
    exists (n, v). split; [done|]. by apply elem_of_map_to_list.
Qed.

Lemma node_lines_None (a : locals) (ns : list (option Z)) :
  ns <> [] -> Forall (fun n => n = None) ns -> node_lines a ns = Raise TypeError.
Proof. destruct ns as [|n ns]; [done|]. intros _ [-> _]%Forall_cons. done. Qed.

Lemma omap_id_nil (ks : list (option Z)) :
  omap id ks = [] -> Forall (fun n => n = None) ks.
Proof.
  induction ks as [|[z|] ks IH]; simpl; [constructor|done|].
  intros H. constructor; [done|]. by apply IH.
Qed.

Lemma stats_raises_without_node (history : list Message) (m : Message) :
  m ∈ history -> node m = None ->
  MessageStatsString history = Raise TypeError.
Proof.
  intros Hm Hn.
  assert (history <> []) as Hne by (intros ->; by apply elem_of_nil in Hm).
  destruct (MessageStatsString history) as [out|e] eqn:Hr.
  2: { f_equal. by eapply stats_division_only_on_empty. }
  exfalso. revert Hr. unfold MessageStatsString. simpl. unfold floordiv at 1.
  replace (Z.of_nat (length history) =? 0) with false
    by (destruct history; [done|simpl; lia]).
  set (a := foldl loop_body locals0 history).
  assert (None ∈ (map_to_list (by_node_cnt a)).*1) as HNone.
  { apply history_nodes. rewrite <-Hn. apply list_elem_of_fmap. eauto. }
  unfold sorted_nodes.
  destruct (omap id (map_to_list (by_node_cnt a)).*1) as [|z zs] eqn:Ho.
  - rewrite node_lines_None; [done| |by apply omap_id_nil].
    intros E. rewrite E in HNone. by apply elem_of_nil in HNone.
  - by rewrite bool_decide_true.
Qed.

(** X7: a history that holds a message without a destination makes
    [MessageStatsString] fail with [TypeError]: [None] cannot be sorted
    among node numbers and cannot be formatted with [%2d]. *)
Theorem stats_type_error_without_node (history : list Message) (m : Message) :
  m ∈ history -> node m = None ->
  MessageStatsString history = Raise TypeError.
Proof. apply stats_raises_without_node. Qed.

Lemma node_lines_Some (a : locals) (ns : list (option Z)) :
  map_Forall (fun _ v => 1 <= v) (by_node_cnt a) ->
  Forall (fun n => is_Some (by_node_cnt a !! n)) ns ->
  Forall (fun n => is_Some n) ns ->
  exists ls, node_lines a ns = Ok ls /\ length ls = length ns.
Proof.
  intros Ha. induction ns as [|n ns IH]; simpl; intros Hns Hsome; [by eexists|].
  apply Forall_cons in Hns as [[v Hv] Hns].
  apply Forall_cons in Hsome as [[z ->] Hsome].
  destruct (IH Hns Hsome) as (ls & -> & Hlen).
  unfold node_line, floordiv, counter_get. rewrite Hv. simpl.
  specialize (Ha _ _ Hv). simpl in Ha.
  replace (v =? 0) with false by lia. eexists. split; [done|]. simpl. lia.
Qed.

Lemma sorted_nodes_Some (c : gmap (option Z) Z) :
  None ∉ (map_to_list c).*1 ->
  exists ns, sorted_nodes c = Ok ns /\ Forall (fun n => is_Some n) ns.
Proof.
  intros HNone. unfold sorted_nodes.
  destruct (omap id (map_to_list c).*1) as [|i ints] eqn:Ho.
  - eexists. split; [done|]. apply Forall_forall.
    intros [k|] Hin; [by eexists|done].
  - rewrite bool_decide_false by done. eexists. split; [done|].
    apply Forall_fmap, Forall_forall. intros k _. by eexists.
Qed.

Lemma stats_returns_with_nodes (history : list Message) :
  history <> [] -> Forall (fun m => is_Some (node m)) history ->
  exists out, MessageStatsString history = Ok out.
Proof.
  intros Hne Hall. unfold MessageStatsString. simpl. unfold floordiv at 1.
  replace (Z.of_nat (length history) =? 0) with false
    by (destruct history; [done|simpl; lia]).
  set (a := foldl loop_body locals0 history).
  assert (map_Forall (fun _ v => 1 <= v) (by_node_cnt a)) as Ha.
  { apply foldl_counts. simpl. apply map_Forall_empty. }
  assert (None ∉ (map_to_list (by_node_cnt a)).*1) as HNone.
  { intros (m & Hn & Hm)%history_nodes%list_elem_of_fmap.
    rewrite Forall_forall in Hall. destruct (Hall m Hm) as [z Hz]. congruence. }
  destruct (sorted_nodes_Some _ HNone) as (ns & Hs & Hsome).
  rewrite Hs.
  destruct (node_lines_Some a ns Ha (sorted_nodes_keys _ _ Hs) Hsome)
    as (ls & -> & _).
  by eexists.
Qed.

(** X8: on a history that is not empty and in which every message has
    a destination, [MessageStatsString] returns its report: no division
    and no conversion fails. *)
Theorem stats_ok_with_nodes (history : list Message) :
  history <> [] -> Forall (fun m => is_Some (node m)) history ->
  exists out, MessageStatsString history = Ok out.
Proof. apply stats_returns_with_nodes. Qed.

(** X9: [str(driver)] returns a string exactly when the history of the
    driver is not empty and every message in it has a destination; in
    every other state of the driver it raises. *)
Theorem str_succeeds_iff (d : Driver.Driver) :
  (exists out, Driver.__str__ d = Ok out) <->
  Driver._history d <> [] /\
  Forall (fun m => is_Some (node m)) (Driver._history d).
Proof.
  unfold Driver.__str__. split.
  - intros [out Hout].
    destruct (MessageStatsString (Driver._history d)) as [st|e] eqn:Hs; [|done].
    split.
    + intros E. rewrite E in Hs. done.
    + apply Forall_forall. intros m Hm.
      destruct (node m) as [z|] eqn:Hn; [by eexists|].
      rewrite (stats_raises_without_node _ m Hm Hn) in Hs. done.
  - intros [Hne Hall]. destruct (stats_returns_with_nodes _ Hne Hall) as [st ->].
    by eexists.
Qed.

End Stats_more.

Lemma stats_type_error_without_node_witness :
  Stats.MessageStatsString
    [Scenario.m1;
     Sys.barrier_message Scenario.lowest_priority 7 ZMessage.CbRelease]
  = Py.Raise Py.TypeError.
Proof.
  apply (stats_type_error_without_node _
           (Sys.barrier_message Scenario.lowest_priority 7 ZMessage.CbRelease)).
  - apply list_elem_of_further, list_elem_of_here.
  - reflexivity.
Defined.

Lemma stats_ok_with_nodes_witness :
  exists out, Stats.MessageStatsString [Scenario.m1] = Py.Ok out.
Proof.
  apply (stats_ok_with_nodes [Scenario.m1]); [done|].
  apply Forall_singleton. by eexists.
Defined.

(** ** The supervision wrapper and the receive loop *)
Section Driver_more.
Import Py ZMessage Driver.

Lemma backoff_cap (k : nat) : backoff (7 + k) = backoff 7.
Proof.
  induction k as [|k IH]; [done|].
  replace (7 + S k)%nat with (S (7 + k)) by lia.
  change (backoff (S (7 + k))) with (next_delay (backoff (7 + k))).
  rewrite IH. vm_compute. reflexivity.
Qed.

Lemma backoff_bounds (n : nat) : (1 # 2 <= backoff n)%Q /\ (backoff n <= 64)%Q.
Proof.
  destruct (le_lt_dec 7 n) as [Hle|Hlt].
  - replace n with (7 + (n - 7))%nat by lia. rewrite backoff_cap. done.
  - do 7 (destruct n as [|n]; [done|]). lia.
Qed.

(** X10: the delay of [_run_child_thread] doubles with every caught
    exception, from .5 s up to 64 s, and stays at 64 s from the seventh
    on: the test [delay < 60] lets the doubling pass 60 once. *)
Theorem backoff_doubles_up_to_64 (n : nat) :
  backoff n == inject_Z (2 ^ Z.of_nat (Nat.min n 7)) / 2.
Proof.
  destruct (le_lt_dec 7 n) as [Hle|Hlt].
  - replace n with (7 + (n - 7))%nat by lia. rewrite backoff_cap.
    replace (Nat.min (7 + (n - 7)) 7) with 7%nat by lia. reflexivity.
  - do 7 (destruct n as [|n]; [reflexivity|]). lia.
Qed.

Section Receive_facts.
Variable Ext : bytes -> option bytes.

Lemma Qle_bool_false (x y : Q) : negb (Qle_bool x y) = true <-> (y < x)%Q.
Proof.
  rewrite negb_true_iff. split.
  - intros H. apply Qnot_le_lt. intros Hle. apply Qle_bool_iff in Hle.
    congruence.
  - intros H. destruct (Qle_bool x y) eqn:E; [|done].
    apply Qle_bool_iff in E. by apply Qlt_not_le in H.
Qed.

(** X11: the first half of an iteration of the receive loop raises only
    in one situation, and then [AssertionError]: a byte has arrived, the
    buffer starts with the start marker, no frame can be extracted, and
    more than 2 s have passed since the arrival that opened the frame.
    In particular it never fails on the iteration that opens a frame,
    never when [read] times out, and indexing [m[0]] never fails. *)
Theorem rx_receive_raises (r : bytes) (ts : Q) (l : rx_locals) (e : exn) :
  rx_receive Ext r ts l = Raise e <->
  e = AssertionError /\ r <> [] /\ head (buf l ++ r) = Some SOF /\
  falsy (Ext (buf l ++ r)) = true /\
  exists t, last_sof_arrival l = Some t /\ (2 < ts - t)%Q.
Proof.
  unfold rx_receive. destruct r as [|b r].
  { split; [done|]. by intros (_ & ? & _). }
  set (bf := buf l ++ b :: r).
  assert (exists m0 tl, bf = m0 :: tl) as (m0 & tl & Hbf).
  { unfold bf. destruct (buf l); simpl; eauto. }
  rewrite Hbf. simpl. rewrite <-Hbf.
  destruct (Byte.eqb m0 SOF) eqn:Hm0.
  2: { split; [done|]. intros (_ & _ & [= ->] & _).
       by apply Byte.eqb_false in Hm0. }
  apply Byte.byte_dec_bl in Hm0 as ->.
  destruct (falsy (Ext bf)) eqn:Hf.
  2: { split; [done|]. by intros (_ & _ & _ & ? & _). }
  destruct (last_sof_arrival l) as [t|].
  - destruct (negb (Qle_bool (ts - t) 2)) eqn:Hq.
    + apply Qle_bool_false in Hq. split.
      * intros [= <-]. eauto 10.
      * by intros (-> & _).
    + split; [done|]. intros (_ & _ & _ & _ & t' & [= <-] & Hlt).
      apply Qle_bool_false in Hlt. congruence.
  - assert (negb (Qle_bool (ts - ts) 2) = false) as ->.
    { apply negb_false_iff, Qle_bool_iff.
      unfold Qminus. rewrite Qplus_opp_r. done. }
    split; [done|]. by intros (_ & _ & _ & _ & t' & ? & _).
Qed.

Lemma rx_receive_Exception r ts l e :
  rx_receive Ext r ts l = Raise e -> is_Exception e = true.
Proof. unfold rx_receive. intros H. repeat case_match; by simplify_eq. Qed.

Hypothesis Ext_prefix : forall b m, Ext b = Some m -> m `prefix_of` b.

Lemma rx_receive_bytes r ts l :
  match rx_receive Ext r ts l with
  | Raise _ => True
  | Ok (RxContinue l') => buf l' = buf l ++ r
  | Ok (RxFrame l' m) => m ++ buf l' = buf l ++ r
  end.
Proof.
  unfold rx_receive. destruct r as [|b r]; [by rewrite app_nil_r|].
  set (bf := buf l ++ b :: r).
  assert (exists m0 tl, bf = m0 :: tl) as (m0 & tl & Hbf).
  { unfold bf. destruct (buf l); simpl; eauto. }
  rewrite Hbf. simpl. rewrite <-Hbf.
  destruct (Byte.eqb m0 SOF).
  - destruct (Ext bf) as [m|] eqn:HE; simpl.
    + destruct m as [|x m]; simpl.
      * by destruct (negb _).
      * apply Ext_prefix in HE as [k ->]. simpl. f_equal.
        by rewrite drop_app_length.
    + by destruct (negb _).
  - simpl. rewrite Hbf. simpl. by rewrite drop_0.
Qed.

(** X12: as long as [ExtracRawMessage] returns an initial segment of
    the buffer it is given, the receive loop neither drops nor reorders
    a byte: the frames it has handed on, followed by what is left in
    [buf], are the former content of [buf] followed by the bytes
    read. *)
Theorem rx_loop_conserves_bytes (reads : list (bytes * Q)) (l l' : rx_locals)
    (fs : list bytes) :
  rx_frames Ext reads l = Ok (fs, l') ->
  concat fs ++ buf l' = buf l ++ concat reads.*1.
Proof.
  revert l fs. induction reads as [|[r ts] reads IH]; intros l fs; simpl.
  - intros [= <- <-]. by rewrite app_nil_r.
  - pose proof (rx_receive_bytes r ts l) as Hb.
    destruct (rx_receive Ext r ts l) as [[l1|l1 m]|e]; [| |done].
    + intros H. rewrite (IH _ _ H), Hb. by rewrite <-app_assoc.
    + destruct (rx_frames Ext reads l1) as [[fs1 l2]|e] eqn:Hr; [|done].
      intros [= <- <-]. simpl. rewrite <-app_assoc, (IH _ _ Hr).
      by rewrite app_assoc, Hb, <-app_assoc.
Qed.

End Receive_facts.

Lemma ExtracRawMessage_prefix b m :
  ExtracRawMessage b = Some m -> m `prefix_of` b.
Proof.
  unfold ExtracRawMessage. destruct b as [|x [|len rest]]; [done..|].
  case_match; [|done]. intros [= <-].
  exists (drop (N.to_nat (Byte.to_N len)) rest). simpl. by rewrite take_drop.
Qed.

End Driver_more.

Lemma rx_loop_conserves_bytes_witness :
  Driver.rx_frames ZMessage.ExtracRawMessage Scenario.reads Driver.rx_locals0
    = Py.Ok ([Scenario.frame1; [ZMessage.ACK]], Driver.rx_locals0) /\
  concat [Scenario.frame1; [ZMessage.ACK]] ++ Driver.buf Driver.rx_locals0
    = Driver.buf Driver.rx_locals0 ++ concat Scenario.reads.*1.
Proof.
  split; [by vm_compute|].
  apply (rx_loop_conserves_bytes ZMessage.ExtracRawMessage
           ExtracRawMessage_prefix Scenario.reads).
  by vm_compute.
Defined.

(** ** The driver at work: logs, listeners, supervision *)
Section Sys_more.
Import Py ZMessage Driver Sys.
Variable max_retries : nat.
Variable LowestPriority : MQ.priority.

Abbreviation step := (Sys.step max_retries LowestPriority).
Abbreviation exec := (Sys.exec max_retries LowestPriority).

Lemma exec_invariant (P : config -> Prop) :
  (forall l s s', step l s = Some s' -> P s -> P s') ->
  forall ls s s', exec ls s = Some s' -> P s -> P s'.
Proof.
  intros Hstep ls. induction ls as [|l ls IH]; simpl; intros s s' H HP.
  - by injection H as <-.
  - destruct (step l s) as [s1|] eqn:Hs; [|done]. eauto.
Qed.

Ltac step_cases H :=
  unfold Sys.step, tx_raise, rx_raise, fw_raise, submit, wq_step, term_step,
    tx_step, tx_timeout, rx_step,
    fw_step, sup_step, fn_end, supervise, send_message, barrier_arrive,
    barrier_open, complete, Timeout, rx_dispatch, StartMessage in H;
  simpl in H; repeat (case_match; simpl in * ); simplify_eq.

Ltac open_config s :=
  destruct s as [dr t r f tm w tl wl cp sb st];
  destruct dr as [dev oq rh hi te iq li ba inf];
  simpl in *.

Lemma sent_log_app h h' : sent_log (h ++ h') = sent_log h ++ sent_log h'.
Proof. apply omap_app. Qed.

Lemma io_step l s s' : step l s = Some s' -> io_inv s -> io_inv s'.
Proof.
  unfold io_inv. intros H HI. open_config s.
  destruct l as [x| |id|ts id|ts|ts|rd ts| |ts|ts|e]; simpl in H.
  all: step_cases H; simpl; rewrite ?sent_log_app; simpl;
    rewrite ?app_nil_r, ?app_assoc; try done; try (by f_equal).
Qed.

(** X13: every buffer handed to [write] of the serial device after
    start-up was handed to it by [_SendRaw] and is recorded in the raw
    history, also when the call raised: at any time the device has been
    sent the six negative acknowledges of [__init__] followed by the
    sent entries of the raw history, in order. *)
Theorem device_writes_are_logged (ls : list label) (s : config) :
  exec ls Sys.init = Some s ->
  _device (drv s) = _device __init__ ++ sent_log (_raw_history (drv s)).
Proof. intros H. eapply (exec_invariant io_inv); eauto using io_step. done. Qed.

Lemma grows_step l s s' : step l s = Some s' -> grows s s'.
Proof.
  unfold grows. intros H. open_config s.
  destruct l as [x| |id|ts id|ts|ts|rd ts| |ts|ts|e]; simpl in H.
  all: step_cases H; simpl; split;
    first [done | by apply prefix_app_r
          | (etrans; [|by apply prefix_app_r]); by apply prefix_app_r ].
Qed.

(** X14: the raw history and the history of in-flight messages are
    append-only: whatever the threads do, from any state of the driver,
    the former content of both lists stays in place as an initial
    segment. *)
Theorem histories_only_grow (ls : list label) (s s' : config) :
  exec ls s = Some s' ->
  _raw_history (drv s) `prefix_of` _raw_history (drv s') /\
  _history (drv s) `prefix_of` _history (drv s').
Proof.
  revert s. induction ls as [|l ls IH]; simpl; intros s H.
  - by injection H as <-.
  - destruct (step l s) as [s1|] eqn:Hs; [|done].
    destruct (grows_step _ _ _ Hs) as [A B], (IH _ H) as [A' B'].
    split; by etrans.
Qed.

Lemma received_log_app h h' :
  received_log (h ++ h') = received_log h ++ received_log h'.
Proof. apply omap_app. Qed.

Lemma in_frames_app q q' : in_frames (q ++ q') = in_frames q ++ in_frames q'.
Proof. apply omap_app. Qed.

Lemma logged_mono h h' (l : list (Q * bytes)) :
  Forall (fun x => x ∈ received_log h) l ->
  Forall (fun x => x ∈ received_log (h ++ h')) l.
Proof.
  intros H. eapply Forall_impl; [exact H|]. intros x Hx. simpl.
  rewrite received_log_app, elem_of_app. by left.
Qed.

Lemma logged_all_mono h h' (ls : list (list (Q * bytes))) :
  Forall (Forall (fun x => x ∈ received_log h)) ls ->
  Forall (Forall (fun x => x ∈ received_log (h ++ h'))) ls.
Proof. intros H. eapply Forall_impl; [exact H|]. intros l. apply logged_mono. Qed.

Lemma logged_deliver h x (ls : list (list (Q * bytes))) :
  x ∈ received_log h ->
  Forall (Forall (fun x => x ∈ received_log h)) ls ->
  Forall (Forall (fun x => x ∈ received_log h)) ((fun l => l ++ [x]) <$> ls).
Proof.
  intros Hx H. apply Forall_fmap. eapply Forall_impl; [exact H|].
  intros l Hl. simpl. apply Forall_app. split; [done|]. by apply Forall_singleton.
Qed.

Lemma logged_now h ts m c :
  Forall (fun x => x ∈ received_log (h ++ [(ts, false, Some m, c)])) [(ts, m)].
Proof.
  apply Forall_singleton. rewrite received_log_app, elem_of_app. right.
  simpl. apply list_elem_of_here.
Qed.

Lemma logged_insert h x k l (ls : list (list (Q * bytes))) :
  x ∈ received_log h -> ls !! k = Some l ->
  Forall (Forall (fun x => x ∈ received_log h)) ls ->
  Forall (Forall (fun x => x ∈ received_log h)) (<[k := l ++ [x]]> ls).
Proof.
  intros Hx Hk H. apply Forall_insert; [done|].
  apply Forall_app. split; [|by apply Forall_singleton].
  rewrite Forall_forall in H. apply H. by eapply list_elem_of_lookup_2.
Qed.

Lemma fw_inv_step l s s' : step l s = Some s' -> fw_inv s -> fw_inv s'.
Proof.
  intros H [A B C D]. unfold logged in *. open_config s.
  unfold rx_frame, fw_frame in *. simpl in *.
  destruct l as [x| |id|ts id|ts|ts|rd ts| |ts|ts|e]; simpl in H.
  all: step_cases H; split; unfold logged, rx_frame, fw_frame; simpl;
    rewrite ?in_frames_app; simpl;
    first
      [ done
      | by apply logged_mono
      | by apply logged_all_mono
      | by apply logged_now
      | by constructor
      | by repeat constructor
      | by (apply Forall_app; split; [done|constructor])
      | by (apply Forall_app; split; [done|repeat constructor])
      | by (apply Forall_app; split; [by apply logged_mono|by apply logged_mono])
      | by inversion B
      | by (apply Forall_singleton; by inversion B)
      | by (eapply logged_insert; [by inversion C|eassumption|done]) ].
Qed.

(** X15: a listener is handed nothing but frames that the receive loop
    has read: every pair (time stamp, frame) a listener has got is in
    the raw history as a received frame with that time stamp. *)
Theorem forwarded_frames_are_logged (ls : list label) (s : config)
    (l : list (Q * bytes)) (x : Q * bytes) :
  exec ls Sys.init = Some s ->
  l ∈ _listeners (drv s) -> x ∈ l ->
  x ∈ received_log (_raw_history (drv s)).
Proof.
  intros H Hl Hx.
  assert (fw_inv s) as [_ _ _ C].
  { eapply (exec_invariant fw_inv); eauto using fw_inv_step.
    split; unfold logged; simpl; constructor. }
  rewrite Forall_forall in C. specialize (C l Hl). unfold logged in C.
  rewrite Forall_forall in C. by apply C.
Qed.

Lemma aligned_snoc ls : listeners_aligned ls -> listeners_aligned (ls ++ [[]]).
Proof.
  intros Ha i j li lj Hij Hi Hj.
  destruct (decide (j < length ls)%nat) as [Hlt|Hge].
  - rewrite lookup_app_l in Hi, Hj by lia. eauto.
  - assert (lj = []) as ->.
    { apply lookup_lt_Some in Hj as Hlen. rewrite length_app in Hlen.
      simpl in Hlen. rewrite lookup_app_r in Hj by lia.
      replace (j - length ls)%nat with 0%nat in Hj by lia. by injection Hj. }
    apply sublist_nil_l.
Qed.

Lemma delivering_start x ls : delivering x 0 ls.
Proof. split; [lia|]. intros i li Hi. lia. Qed.

Lemma delivering_snoc x k ls : delivering x k ls -> delivering x k (ls ++ [[]]).
Proof.
  intros [Hk Hd]. split; [rewrite length_app; lia|].
  intros i li Hik Hi. rewrite lookup_app_l in Hi by lia.
  destruct (Hd i li Hik Hi) as (li' & -> & Hsub). exists li'. split; [done|].
  intros j lj Hkj Hj. apply lookup_app_Some in Hj as [Hj|[_ Hj]]; [eauto|].
  apply list_lookup_singleton_Some in Hj as [_ <-]. apply sublist_nil_l.
Qed.

Lemma aligned_put x k l ls :
  ls !! k = Some l -> listeners_aligned ls -> delivering x k ls ->
  listeners_aligned (<[k := l ++ [x]]> ls) /\
  delivering x (S k) (<[k := l ++ [x]]> ls).
Proof.
  intros Hk Ha [Hlen Hd]. apply lookup_lt_Some in Hk as Hlt. split.
  - intros i j li lj Hij Hi Hj.
    destruct (decide (i = k)) as [->|Hik], (decide (j = k)) as [->|Hjk].
    + rewrite list_lookup_insert_eq in Hi, Hj by done. by simplify_eq.
    + rewrite list_lookup_insert_eq in Hi by done.
      rewrite list_lookup_insert_ne in Hj by done. simplify_eq.
      apply sublist_inserts_r. eauto.
    + rewrite list_lookup_insert_ne in Hi by done.
      rewrite list_lookup_insert_eq in Hj by done. simplify_eq.
      destruct (Hd i li ltac:(lia) Hi) as (li' & -> & Hsub).
      apply sublist_app; [|done]. eauto.
    + rewrite list_lookup_insert_ne in Hi, Hj by done. eauto.
  - split; [rewrite length_insert; lia|].
    intros i li Hik Hi.
    destruct (decide (i = k)) as [->|Hne].
    + rewrite list_lookup_insert_eq in Hi by done. simplify_eq.
      exists l. split; [done|]. intros j lj Hkj Hj.
      rewrite list_lookup_insert_ne in Hj by lia. eapply (Ha k j); eauto. lia.
    + rewrite list_lookup_insert_ne in Hi by done.
      destruct (Hd i li ltac:(lia) Hi) as (li' & -> & Hsub).
      exists li'. split; [done|]. intros j lj Hkj Hj.
      rewrite list_lookup_insert_ne in Hj by lia. eapply Hsub; [|done]. lia.
Qed.

(** What a step does to the forwarding thread and to the listeners. *)
Lemma fw_footprint l s s' :
  step l s = Some s' ->
  (fw s' = fw s /\
   (_listeners (drv s') = _listeners (drv s) \/
    _listeners (drv s') = _listeners (drv s) ++ [[]])) \/
  (_listeners (drv s') = _listeners (drv s) /\
   ((forall d ts m k, fw s' <> Run d (FwPut ts m k)) \/
    exists d ts m, fw s' = Run d (FwPut ts m 0))) \/
  (exists d ts m k l0,
     fw s = Run d (FwPut ts m k) /\ _listeners (drv s) !! k = Some l0 /\
     _listeners (drv s') = <[k := l0 ++ [(ts, m)]]> (_listeners (drv s)) /\
     fw s' = Run d (FwPut ts m (S k))).
Proof.
  intros H. open_config s.
  destruct l as [x| |id|ts id|ts|ts|rd ts| |ts|ts|e]; simpl in H.
  all: step_cases H; simpl;
    first
      [ by (left; split; [done|by left])
      | by (left; split; [done|by right])
      | by (right; left; split; [done|left; intros; discriminate])
      | by (right; left; split; [done|right; eauto])
      | by (right; right; eauto 10) ].
Qed.

Lemma aligned_step l s s' : step l s = Some s' -> fw_aligned s -> fw_aligned s'.
Proof.
  unfold fw_aligned. intros H [HA HD].
  destruct (fw_footprint _ _ _ H)
    as [[Hf [Hl|Hl]]|[[Hl [Hf|(d & ts & m & Hf)]]|(d & ts & m & k & l0 & Hf & Hk & Hl & Hf')]];
    rewrite ?Hl, ?Hf.
  - done.
  - split; [by apply aligned_snoc|].
    destruct (fw s) as [|? [|? ? ?]| | | |]; try done. by apply delivering_snoc.
  - split; [done|]. destruct (fw s') as [|? [|? ? ?]| | | |]; try done.
    exfalso. by eapply Hf.
  - split; [done|]. apply delivering_start.
  - rewrite Hf'. rewrite Hf in HD. by apply aligned_put.
Qed.

(** X16: the listeners are handed frames in one common order, and a
    listener is never handed a frame that a listener registered before
    it was not handed: the sequence a listener has got is a subsequence
    of the sequence every earlier listener has got.  This holds at any
    moment, also in the middle of the loop over the listeners and after
    a [put] has raised. *)
Theorem listeners_see_common_order (ls : list label) (s : config)
    (i j : nat) (li lj : list (Q * bytes)) :
  exec ls Sys.init = Some s ->
  (i <= j)%nat ->
  _listeners (drv s) !! i = Some li -> _listeners (drv s) !! j = Some lj ->
  lj `sublist_of` li.
Proof.
  intros H. revert i j li lj.
  assert (fw_aligned s) as [HA _]; [|exact HA].
  eapply (exec_invariant fw_aligned); eauto using aligned_step.
  split; [|done]. intros i j li lj _ Hi. done.
Qed.

Lemma kept_step l s s' :
  step l s = Some s' -> in_loop (fw s) = false -> kept s s'.
Proof.
  unfold kept. intros H HI. open_config s.
  destruct l as [x| |id|ts id|ts|ts|rd ts| |ts|ts|e]; simpl in H.
  all: step_cases H; simpl; split; try done.
  intros i l Hl. by apply lookup_app_l_Some.
Qed.

(** X17: once the forwarding thread has left its loop nothing is
    forwarded any more: whatever arrives and whatever the threads do
    from then on, every listener keeps exactly what it had. *)
Theorem nothing_forwarded_after_loop_exit (ls : list label) (s s' : config)
    (i : nat) (l : list (Q * bytes)) :
  in_loop (fw s) = false ->
  exec ls s = Some s' ->
  _listeners (drv s) !! i = Some l ->
  _listeners (drv s') !! i = Some l.
Proof.
  revert s. induction ls as [|x ls IH]; simpl; intros s Hf H Hl.
  - by injection H as <-.
  - destruct (step x s) as [s1|] eqn:Hs; [|done].
    destruct (kept_step _ _ _ Hs Hf) as [Hf1 Hk]. eauto.
Qed.

Lemma supervised_step l s s' :
  step l s = Some s' -> all_supervised s -> all_supervised s'.
Proof.
  unfold all_supervised. intros H (A & B & C). open_config s.
  destruct l as [x| |id|ts id|ts|ts|rd ts| |ts|ts|e]; simpl in H.
  all: step_cases H; simpl; repeat split; try done.
  all: try match goal with
       | E : exists n, ?d = backoff n |- exists n', next_delay ?d = backoff n' =>
         destruct E as [n ->]; by exists (S n)
       end.
  match goal with
  | E : rx_receive _ _ _ _ = Raise _ |- _ =>
    apply rx_receive_Exception in E; congruence
  end.
Qed.

Lemma supervised_spec {P : Type} (t : thread P) :
  supervised t ->
  alive t = true /\
  forall d, delay_of t = Some d ->
    exists n, d = backoff n /\ (1 # 2 <= d)%Q /\ (d <= 64)%Q.
Proof.
  destruct t; simpl; try done; intros [n ->]; (split; [done|]);
    intros ? [= <-]; exists n; (split; [done|apply backoff_bounds]).
Qed.

(** X18: no child thread is brought down by an exception of its own
    loop: what the receive loop raises, a [SerialException] of the
    device and an [Exception] out of a listener's [put] are caught by
    [except Exception], and the delay before the loop is entered again
    is one of the values of the back-off, between .5 s and 64 s. *)
Theorem child_threads_stay_supervised (ls : list label) (s : config) :
  exec ls Sys.init = Some s ->
  (alive (tx s) = true /\ alive (rx s) = true /\ alive (fw s) = true) /\
  forall d,
    delay_of (tx s) = Some d \/ delay_of (rx s) = Some d \/
    delay_of (fw s) = Some d ->
    exists n, d = backoff n /\ (1 # 2 <= d)%Q /\ (d <= 64)%Q.
Proof.
  intros H.
  assert (all_supervised s) as (A & B & C).
  { eapply (exec_invariant all_supervised); eauto using supervised_step.
    repeat split; by exists 0%nat. }
  apply supervised_spec in A as [A1 A2], B as [B1 B2], C as [C1 C2].
  split; [done|]. intros d [?|[?|?]]; eauto.
Qed.

Lemma quiet_put p (m : Message) q :
  callback m <> CbTerminate ->
  Forall (fun e : MQ.priority * Message => callback e.2 <> CbTerminate) (MQ._q q) ->
  Forall (fun e : MQ.priority * Message => callback e.2 <> CbTerminate)
    (MQ._q (MQ.put p m q)).
Proof.
  intros Hm Hq. rewrite put_q. apply Forall_forall. intros e He.
  apply elem_of_pq_put in He as [->|He]; [done|].
  rewrite Forall_forall in Hq. by apply Hq.
Qed.

Lemma quiet_get (m : Message) q q' :
  MQ.get q = Some (m, q') ->
  Forall (fun e : MQ.priority * Message => callback e.2 <> CbTerminate) (MQ._q q) ->
  callback m <> CbTerminate /\
  Forall (fun e : MQ.priority * Message => callback e.2 <> CbTerminate) (MQ._q q').
Proof.
  intros (p & Hq & _)%get_Some H. rewrite Hq in H.
  by apply Forall_cons in H as [? ?].
Qed.

Lemma quiet_step l s s' :
  step l s = Some s' -> term s' = TermIdle -> quiet s ->
  term s = TermIdle /\ quiet s'.
Proof.
  intros H Ht [A B C D E F].
  apply andb_true_iff in F as [[F1 F2]%andb_true_iff F3].
  open_config s.
  unfold tx_msgs, current, GetMessage in *. simpl in *.
  destruct l as [x| |id|ts id|ts|ts|rd ts| |ts|ts|e]; simpl in H.
  all: step_cases H.
  all: repeat match goal with
       | E : NextActionForReceivedMessage _ _ _ _ = _ |- _ =>
         apply NextAction_resolves in E; unfold resolves in E; simpl in E;
         destruct_and?
       | E : rx_receive _ _ _ _ = Raise _ |- _ =>
         apply rx_receive_Exception in E
       | E : _ && _ = true |- _ => apply andb_true_iff in E as [? ?]
       | E : bool_decide _ = true |- _ => apply bool_decide_eq_true in E
       | E : MQ.get _ = Some _ |- _ =>
         eapply quiet_get in E as [? ?]; [|eassumption]
       | E : _message _ = _ |- _ => rewrite E in *; clear E
       end.
  all: simpl in *.
  all: repeat match goal with
       | E : Forall _ (_ :: _) |- _ => apply Forall_cons in E as [? ?]
       | E : Forall _ [] |- _ => clear E
       end.
  all: try congruence.
  all: split; [done|].
  all: split; unfold tx_msgs, current, GetMessage; simpl;
    rewrite ?andb_true_iff; repeat split; try done.
  all: first
       [ by (apply quiet_put; [simpl; congruence|done])
       | by repeat constructor
       | by (apply Forall_app; split; [done|repeat constructor; by eexists])
       | congruence
       | by (simplify_eq; simpl; repeat constructor)
       | by (match goal with
             | E : _message ?i = _ |- context [_message ?i] => rewrite E
             end; simpl; repeat constructor)
       | by (match goal with E : is_Some (_, None).2 |- _ => destruct E end) ].
Qed.

Lemma term_idle_back l s s' :
  step l s = Some s' -> term s' = TermIdle -> term s = TermIdle.
Proof.
  intros H Ht. open_config s.
  destruct l as [x| |id|ts id|ts|ts|rd ts| |ts|ts|e]; simpl in H.
  all: by step_cases H.
Qed.

Lemma quiet_init : quiet Sys.init.
Proof. split; try done; constructor. Qed.

(** X19: the driver does not shut down on its own: as long as
    [Terminate] has not been called the flag [_terminate] is unset, the
    inbound queue holds no shutdown marker, and each of the three child
    threads is inside the loop of [_run_child_thread]. *)
Theorem workers_run_until_terminate (ls : list label) (s : config) :
  exec ls Sys.init = Some s ->
  term s = TermIdle ->
  _terminate (drv s) = false /\
  Forall (fun e => is_Some e.2) (_in_queue (drv s)) /\
  in_loop (tx s) = true /\ in_loop (rx s) = true /\ in_loop (fw s) = true.
Proof.
  intros H Ht.
  assert (term s = TermIdle -> quiet s) as Hq.
  { eapply (exec_invariant (fun s => term s = TermIdle -> quiet s));
      [|exact H|intros _; apply quiet_init].
    intros l s0 s1 Hs HI Ht1.
    pose proof (term_idle_back _ _ _ Hs Ht1) as Ht0.
    by destruct (quiet_step _ _ _ Hs Ht1 (HI Ht0)). }
  destruct (Hq Ht) as [A _ _ _ E F].
  apply andb_true_iff in F as [[F1 F2]%andb_true_iff F3]. done.
Qed.

End Sys_more.

(** ** Concrete runs for the statements above *)

Lemma device_writes_are_logged_witness :
  exists s,
    Sys.exec Scenario.retries Scenario.lowest_priority Scenario.forward Sys.init
      = Some s /\
    Driver._device (Sys.drv s) =
      Driver._device Driver.__init__ ++
      [Some ZMessage.RAW_MESSAGE_ACK; Some ZMessage.RAW_MESSAGE_ACK].
Proof.
  run_schedule s Hs. exists s. split; [done|].
  rewrite (device_writes_are_logged Scenario.retries Scenario.lowest_priority
             Scenario.forward s Hs).
  by_run Hs.
Defined.

Lemma histories_only_grow_witness :
  exists s s',
    Sys.exec Scenario.retries Scenario.lowest_priority Scenario.send_m1 Sys.init
      = Some s /\
    Sys.exec Scenario.retries Scenario.lowest_priority
      (Scenario.rx_ready ++ [Sys.LRx [ZMessage.NAK] 2; Sys.LRx [] 3]) s
      = Some s' /\
    Driver._raw_history (Sys.drv s) `prefix_of` Driver._raw_history (Sys.drv s') /\
    Driver._history (Sys.drv s) `prefix_of` Driver._history (Sys.drv s').
Proof.
  run_schedule s Hs.
  destruct (Sys.exec Scenario.retries Scenario.lowest_priority
              (Scenario.rx_ready ++ [Sys.LRx [ZMessage.NAK] 2; Sys.LRx [] 3]) s)
    as [s'|] eqn:Hs';
    [|vm_compute in Hs; injection Hs as <-; vm_compute in Hs'; discriminate].
  exists s, s'. split; [done|]. split; [done|].
  exact (histories_only_grow Scenario.retries Scenario.lowest_priority _ s s' Hs').
Defined.

Lemma forwarded_frames_are_logged_witness :
  exists s,
    Sys.exec Scenario.retries Scenario.lowest_priority Scenario.forward Sys.init
      = Some s /\
    (1%Q, Scenario.frame1)
      ∈ Sys.received_log (Driver._raw_history (Sys.drv s)).
Proof.
  run_schedule s Hs. exists s. split; [done|].
  apply (forwarded_frames_are_logged Scenario.retries Scenario.lowest_priority
           Scenario.forward s
           [(1%Q, Scenario.frame1); (2%Q, Scenario.frame2)]
           (1%Q, Scenario.frame1) Hs).
  - vm_compute in Hs. injection Hs as <-. vm_compute. apply list_elem_of_here.
  - apply list_elem_of_here.
Defined.

Lemma listeners_see_common_order_witness :
  exists s,
    Sys.exec Scenario.retries Scenario.lowest_priority Scenario.forward Sys.init
      = Some s /\
    Driver._listeners (Sys.drv s) =
      [[(1%Q, Scenario.frame1); (2%Q, Scenario.frame2)];
       [(2%Q, Scenario.frame2)]] /\
    [(2%Q, Scenario.frame2)]
      `sublist_of` [(1%Q, Scenario.frame1); (2%Q, Scenario.frame2)].
Proof.
  run_schedule s Hs. exists s. split; [done|]. split; [by_run Hs|].
  apply (listeners_see_common_order Scenario.retries Scenario.lowest_priority
           Scenario.forward s 0 1 _ _ Hs); [lia|by_run Hs..].
Defined.

Lemma nothing_forwarded_after_loop_exit_witness :
  exists s s',
    Sys.exec Scenario.retries Scenario.lowest_priority Scenario.marker_taken
      Sys.init = Some s /\
    Sys.exec Scenario.retries Scenario.lowest_priority Scenario.late_frame s
      = Some s' /\
    Driver._in_queue (Sys.drv s') = [(4%Q, Some Scenario.frame1)] /\
    Driver._listeners (Sys.drv s') !! 0%nat
      = Some [(1%Q, Scenario.frame1); (2%Q, Scenario.frame2)].
Proof.
  run_schedule s Hs.
  destruct (Sys.exec Scenario.retries Scenario.lowest_priority
              Scenario.late_frame s) as [s'|] eqn:Hs';
    [|vm_compute in Hs; injection Hs as <-; vm_compute in Hs'; discriminate].
  exists s, s'. split; [done|]. split; [done|]. split.
  - vm_compute in Hs. injection Hs as <-. vm_compute in Hs'.
    injection Hs' as <-. vm_compute. reflexivity.
  - apply (nothing_forwarded_after_loop_exit Scenario.retries
             Scenario.lowest_priority Scenario.late_frame s s' 0 _);
      [by_run Hs|exact Hs'|by_run Hs].
Defined.

Lemma child_threads_stay_supervised_witness :
  exists s,
    Sys.exec Scenario.retries Scenario.lowest_priority Scenario.desync Sys.init
      = Some s /\
    Sys.rx s = Sys.Sup (Driver.backoff 1) /\ Sys.alive (Sys.rx s) = true.
Proof.
  run_schedule s Hs. exists s. split; [done|].
  split; [by_run Hs|].
  apply (child_threads_stay_supervised Scenario.retries Scenario.lowest_priority
           Scenario.desync s Hs).
Defined.

Lemma workers_run_until_terminate_witness :
  exists s,
    Sys.exec Scenario.retries Scenario.lowest_priority Scenario.quiesce Sys.init
      = Some s /\
    Driver._terminate (Sys.drv s) = false /\ Sys.in_loop (Sys.tx s) = true.
Proof.
  run_schedule s Hs. exists s. split; [done|].
  assert (Sys.term s = Sys.TermIdle) as Ht by by_run Hs.
  destruct (workers_run_until_terminate Scenario.retries
              Scenario.lowest_priority Scenario.quiesce s Hs Ht)
    as (A & _ & B & _).
  split; [exact A|exact B].
Defined.
